(** * gocmt: the comment synthesizer of parse.go

    A shallow embedding of [parseFile] and of the four [add...Comment]
    functions with [modifyComment], together with the parts of the Go
    standard library they lean on: [strings], [unicode/utf8], [unicode],
    [fmt.Sprintf], [ast.CommentGroup.Text], [ast.CommentMap]. Two parts of
    the library are left open, as classes the development is generic in:
    the table of upper-case letters beyond Latin-1 and the formatting of
    [fmt] beyond the verbs [%s], [%v] and [%%]. *)

From Stdlib Require Import ZArith Lia Bool List Ascii String.
From stdpp Require Import base option list gmap strings.

Local Open Scope string_scope.

(** ** Package [strings] *)

Module strings.

(** [strings.HasPrefix(s, prefix)]. *)
Fixpoint HasPrefix (s p : string) {struct p} : bool :=
  match p with
  | EmptyString => true
  | String c p' =>
      match s with
      | EmptyString => false
      | String d s' => if Ascii.eqb c d then HasPrefix s' p' else false
      end
  end.

(** [s[n:]] for [n <= len(s)]. *)
Fixpoint drop (n : nat) (s : string) : string :=
  match n with
  | O => s
  | S n' => match s with EmptyString => EmptyString | String _ s' => drop n' s' end
  end.

(** [strings.TrimPrefix(s, prefix)]. *)
Definition TrimPrefix (s p : string) : string :=
  if HasPrefix s p then drop (String.length p) s else s.

(** [s[:n]] for [n <= len(s)]. *)
Fixpoint take (n : nat) (s : string) : string :=
  match n, s with
  | S n', String c s' => String c (take n' s')
  | _, _ => EmptyString
  end.

(** [strings.HasSuffix(s, suffix)]. *)
Definition HasSuffix (s suffix : string) : bool :=
  Nat.leb (String.length suffix) (String.length s)
  && String.eqb (drop (String.length s - String.length suffix) s) suffix.

(** A string from the values of its bytes. *)
Definition bytes (l : list nat) : string :=
  string_of_list_ascii (map ascii_of_nat l).

(** The white space of [unicode.IsSpace], each rune in its UTF-8 encoding:
    tab, line feed, vertical tab, form feed, carriage return, space,
    U+0085, U+00A0, U+1680, U+2000 to U+200A, U+2028, U+2029, U+202F,
    U+205F, U+3000. *)
Definition spaces : list string :=
  map bytes
    [[9]; [10]; [11]; [12]; [13]; [32]; [194; 133]; [194; 160]; [225; 154; 128];
     [226; 128; 128]; [226; 128; 129]; [226; 128; 130]; [226; 128; 131];
     [226; 128; 132]; [226; 128; 133]; [226; 128; 134]; [226; 128; 135];
     [226; 128; 136]; [226; 128; 137]; [226; 128; 138]; [226; 128; 168];
     [226; 128; 169]; [226; 128; 175]; [226; 129; 159]; [227; 128; 128]].

(** The width of the white-space rune [s] begins with, [0] when it begins
    with none. UTF-8 is prefix-free, so [s] begins with the encoding of a
    rune exactly when its first rune decodes to that rune. *)
Definition spaceWidth (s : string) : nat :=
  match find (HasPrefix s) spaces with
  | Some e => String.length e
  | None => 0
  end.

(** The width of the white-space rune [s] ends with, [0] when it ends with
    none. A byte that begins an encoding is not a continuation byte, so
    [utf8.DecodeLastRuneInString], which steps back to the last such byte,
    finds a white-space rune exactly when [s] ends with its encoding. *)
Definition spaceWidthLast (s : string) : nat :=
  match find (HasSuffix s) spaces with
  | Some e => String.length e
  | None => 0
  end.

(** [strings.TrimLeftFunc(s, unicode.IsSpace)]; [n] bounds the number of
    runes taken off, and [len(s)] is enough. *)
Fixpoint TrimLeftN (n : nat) (s : string) : string :=
  match n with
  | O => s
  | S n' =>
      match spaceWidth s with
      | O => s
      | w => TrimLeftN n' (drop w s)
      end
  end.

Definition TrimLeft (s : string) : string := TrimLeftN (String.length s) s.

(** [strings.TrimRightFunc(s, unicode.IsSpace)]. *)
Fixpoint TrimRightN (n : nat) (s : string) : string :=
  match n with
  | O => s
  | S n' =>
      match spaceWidthLast s with
      | O => s
      | w => TrimRightN n' (take (String.length s - w) s)
      end
  end.

Definition TrimRight (s : string) : string := TrimRightN (String.length s) s.

(** [strings.TrimSpace(s)]: leading and trailing white space, as Unicode
    defines it, is taken off. *)
Definition TrimSpace (s : string) : string := TrimRight (TrimLeft s).

(** [strings.Replace(s, old, new, 1)] for a non-empty [old]: the first
    occurrence of [old], scanning from the left, is replaced. *)
Fixpoint Replace1 (s old new : string) : string :=
  if HasPrefix s old then new ++ drop (String.length old) s
  else match s with
       | EmptyString => EmptyString
       | String c s' => String c (Replace1 s' old new)
       end.

(** [strings.Split(s, "\n")]. *)
Fixpoint SplitLines (s : string) : list string :=
  match s with
  | EmptyString => [EmptyString]
  | String c s' =>
      if Ascii.eqb c "010"%char then EmptyString :: SplitLines s'
      else match SplitLines s' with
           | [] => [String c EmptyString]
           | l :: ls => String c l :: ls
           end
  end.

(** [strings.Join(lines, "\n")]. *)
Fixpoint JoinLines (ls : list string) : string :=
  match ls with
  | [] => EmptyString
  | [l] => l
  | l :: ls' => l ++ String "010"%char (JoinLines ls')
  end.

(** [strings.Index(s, ":")], [None] for Go's [-1]. *)
Fixpoint IndexColon (s : string) : option nat :=
  match s with
  | EmptyString => None
  | String c s' =>
      if Ascii.eqb c ":"%char then Some O
      else match IndexColon s' with Some i => Some (S i) | None => None end
  end.

End strings.

(** ** Packages [unicode/utf8] and [unicode] *)

Module utf8.

Definition RuneError : Z := 65533%Z.

(** The value of a byte. *)
Definition byte (c : ascii) : Z := Z.of_nat (nat_of_ascii c).

(** [utf8.DecodeRuneInString(s)]: the first rune of [s] and its width in
    bytes. The bounds are those of the tables [first] and [acceptRanges]:
    bytes below [0x80] stand for themselves, [0xC2] to [0xDF] begin two
    bytes, [0xE0] to [0xEF] three, [0xF0] to [0xF4] four, any other byte is
    invalid; the second byte lies in [0x80..0xBF], narrowed after [0xE0],
    [0xED], [0xF0] and [0xF4]. An invalid or short sequence gives
    [(RuneError, 1)]. *)
Definition DecodeRuneInString (s : string) : Z * nat :=
  match s with
  | EmptyString => (RuneError, 0)
  | String c0 s1 =>
      let s0 := byte c0 in
      if (s0 <? 128)%Z then (s0, 1)
      else if (s0 <? 194)%Z || (244 <? s0)%Z then (RuneError, 1)
      else
        let sz := if (s0 <? 224)%Z then 2 else if (s0 <? 240)%Z then 3 else 4 in
        let lo := if (s0 =? 224)%Z then 160%Z else if (s0 =? 240)%Z then 144%Z
                  else 128%Z in
        let hi := if (s0 =? 237)%Z then 159%Z else if (s0 =? 244)%Z then 143%Z
                  else 191%Z in
        if Nat.ltb (String.length s) sz then (RuneError, 1)
        else
          match s1 with
          | EmptyString => (RuneError, 1)
          | String c1 s2 =>
              let b1 := byte c1 in
              if (b1 <? lo)%Z || (hi <? b1)%Z then (RuneError, 1)
              else if Nat.leb sz 2
              then (Z.lor (Z.shiftl (Z.land s0 31) 6) (Z.land b1 63), 2)
              else
                match s2 with
                | EmptyString => (RuneError, 1)
                | String c2 s3 =>
                    let b2 := byte c2 in
                    if (b2 <? 128)%Z || (191 <? b2)%Z then (RuneError, 1)
                    else if Nat.leb sz 3
                    then (Z.lor (Z.shiftl (Z.land s0 15) 12)
                            (Z.lor (Z.shiftl (Z.land b1 63) 6) (Z.land b2 63)), 3)
                    else
                      match s3 with
                      | EmptyString => (RuneError, 1)
                      | String c3 _ =>
                          let b3 := byte c3 in
                          if (b3 <? 128)%Z || (191 <? b3)%Z then (RuneError, 1)
                          else (Z.lor (Z.shiftl (Z.land s0 7) 18)
                                  (Z.lor (Z.shiftl (Z.land b1 63) 12)
                                     (Z.lor (Z.shiftl (Z.land b2 63) 6)
                                        (Z.land b3 63))), 4)
                      end
                end
          end
  end.

End utf8.

Module unicode.

(** [unicode.IsSpace(r)]: the table [White_Space]. *)
Definition IsSpace (r : Z) : bool :=
  ((9 <=? r) && (r <=? 13) || (r =? 32) || (r =? 133) || (r =? 160)
   || (r =? 5760) || (8192 <=? r) && (r <=? 8202) || (r =? 8232) || (r =? 8233)
   || (r =? 8239) || (r =? 8287) || (r =? 12288))%Z.

(** [unicode.Upper], the range table of the upper-case letters: it changes
    with the version of Unicode a Go release carries, and [unicode.IsUpper]
    consults it beyond Latin-1 only. What is used of it: no white-space
    rune is an upper-case letter, nor is U+FFFD, the rune that stands for
    an invalid encoding. *)
Class Tables : Type := {
  Upper : Z -> bool;
  Upper_space : forall r, IsSpace r = true -> Upper r = false;
  Upper_error : Upper 65533%Z = false
}.

(** The upper-case letters of the table [properties], which covers
    Latin-1: [A] to [Z], U+00C0 to U+00D6, U+00D8 to U+00DE. *)
Definition latin1Upper (r : Z) : bool :=
  ((65 <=? r) && (r <=? 90) || (192 <=? r) && (r <=? 214)
   || (216 <=? r) && (r <=? 222))%Z.

(** [unicode.IsUpper(r)]. *)
Definition IsUpper `{Tables} (r : Z) : bool :=
  if (r <=? 255)%Z then latin1Upper r else Upper r.

End unicode.

(** ** Package [fmt]

    [Sprintf format a] follows [doPrintf] through plain text, [%%], and the
    verbs [%s] and [%v] without flags, which write a string operand as it
    is and an identifier through its [String] method, that is, as its name.
    A verb letter that finds no operand left writes [%!c(MISSING)]. Where
    the format goes on with anything else (flags, width, precision, an
    explicit argument index, another verb, a lone [%], operands left over
    at the end) the rest of the output is what [doPrintf] writes from there
    on, which the class [Printer] leaves open. *)

Module fmt.

(** The operands [parse.go] hands to [fmt.Sprintf]: a string, or the
    identifier [fd.Name] of the function declaration [fd]. *)
Inductive Operand : Type :=
  | Str (s : string)
  | Ident (fd : nat) (name : string).

(** What [%s] and [%v] write for an operand. *)
Definition text (a : Operand) : string :=
  match a with
  | Str s => s
  | Ident _ name => name
  end.

(** [doPrintf format a argNum]: what [fmt] writes for [format], a rest of
    the format string that begins where the fragment above ends, with the
    operands [a] of the call, [argNum] of which are used up and none of
    which was reached through an explicit index. *)
Class Printer : Type := { doPrintf : string -> list Operand -> nat -> string }.

Definition isLetter (c : ascii) : bool :=
  let n := nat_of_ascii c in
  (Nat.leb 97 n && Nat.leb n 122) || (Nat.leb 65 n && Nat.leb n 90).

Fixpoint run `{Printer} (f : string) (a : list Operand) (argNum : nat) {struct f}
  : string :=
  match f with
  | EmptyString => if Nat.ltb argNum (length a) then doPrintf f a argNum else ""
  | String c f' =>
      if negb (Ascii.eqb c "%"%char) then String c (run f' a argNum)
      else
        match f' with
        | EmptyString => doPrintf f a argNum
        | String v f'' =>
            if Ascii.eqb v "%"%char then String "%"%char (run f'' a argNum)
            else if isLetter v then
              match nth_error a argNum with
              | None => "%!" ++ String v "(MISSING)" ++ run f'' a argNum
              | Some x =>
                  if Ascii.eqb v "s"%char || Ascii.eqb v "v"%char
                  then text x ++ run f'' a (S argNum)
                  else doPrintf f a argNum
              end
            else doPrintf f a argNum
        end
  end.

(** [fmt.Sprintf(format, a...)]. *)
Definition Sprintf `{Printer} (format : string) (a : list Operand) : string :=
  run format a 0.

End fmt.

(** ** Error results

    A Go run-time panic (index out of range, failed type assertion) is an
    explicit outcome of the model. *)

Inductive Result (A : Type) : Type :=
  | Ok (a : A)
  | Panic (msg : string).
Arguments Ok {A} a.
Arguments Panic {A} msg.

Definition bind {A B} (r : Result A) (k : A -> Result B) : Result B :=
  match r with
  | Ok a => k a
  | Panic m => Panic m
  end.

Notation "'do' x <- r ; k" := (bind r (fun x => k))
  (at level 10, x name, r at level 100, k at level 200).

Definition is_ok {A} (r : Result A) : bool :=
  match r with Ok _ => true | Panic _ => false end.

(** ** Package [go/ast]: comments *)

Module ast.

(** [token.Pos]; [NoPos] is [0]. *)
Definition Pos := Z.
Definition NoPos : Pos := 0%Z.

(** [ast.Comment]. *)
Record Comment : Type := mkComment { Slash : Pos; Text : string }.

(** [ast.CommentGroup]: its [List]. *)
Abbreviation CommentGroup := (list Comment) (only parsing).

(** [CommentGroup.Pos]: [g.List[0].Pos()]. *)
Definition cgPos (g : CommentGroup) : Result Pos :=
  match g with
  | c :: _ => Ok (Slash c)
  | [] => Panic "index out of range [0] with length 0"
  end.

(** [ast.IsExported(name)], which is [token.IsExported(name)]: the first
    rune of the name is an upper-case letter. *)
Definition IsExported `{unicode.Tables} (name : string) : bool :=
  unicode.IsUpper (utf8.DecodeRuneInString name).1.

Definition isWhitespace (c : ascii) : bool :=
  let n := nat_of_ascii c in
  Nat.eqb n 32 || Nat.eqb n 9 || Nat.eqb n 10 || Nat.eqb n 13.

(** [stripTrailingWhitespace]. *)
Fixpoint stripTrailingWhitespace (s : string) : string :=
  match s with
  | EmptyString => EmptyString
  | String c s' =>
      match stripTrailingWhitespace s' with
      | EmptyString => if isWhitespace c then EmptyString else String c EmptyString
      | r => String c r
      end
  end.

Definition lowerOrDigit (c : ascii) : bool :=
  let n := nat_of_ascii c in
  (Nat.leb 97 n && Nat.leb n 122) || (Nat.leb 48 n && Nat.leb n 57).

(** The loop of [isDirective]: bytes [i .. colon+1] of [c], the one at
    [colon] apart, are lower-case letters or digits. [s] is [c[i:]]. *)
Fixpoint directiveBytes (s : string) (i colon : nat) : bool :=
  match s with
  | EmptyString => true
  | String b s' =>
      if Nat.ltb (S colon) i then true
      else if Nat.eqb i colon then directiveBytes s' (S i) colon
      else lowerOrDigit b && directiveBytes s' (S i) colon
  end.

(** [isDirective(c)], [c] being the comment text after its [//]. *)
Definition isDirective (c : string) : bool :=
  if strings.HasPrefix c "line " || strings.HasPrefix c "extern "
     || strings.HasPrefix c "export " then true
  else match strings.IndexColon c with
       | None => false
       | Some colon =>
           if Nat.eqb colon 0 || Nat.leb (String.length c) (S colon) then false
           else directiveBytes c 0 colon
       end.

(** [c[2 : len(c)-2]] for a block comment. *)
Definition stripBlock (c : string) : string :=
  String.substring 2 (String.length c - 4) c.

(** One round of the first loop of [CommentGroup.Text]: the lines a
    comment contributes. A text shorter than two bytes makes [c[1]] fail. *)
Definition commentLines (text : string) : Result (list string) :=
  match text with
  | String _ (String c1 rest) =>
      if Ascii.eqb c1 "/"%char then
        match rest with
        | EmptyString => Ok (map stripTrailingWhitespace (strings.SplitLines ""))
        | String c0 rest' =>
            if Ascii.eqb c0 " "%char
            then Ok (map stripTrailingWhitespace (strings.SplitLines rest'))
            else if isDirective rest then Ok []
            else Ok (map stripTrailingWhitespace (strings.SplitLines rest))
        end
      else if Ascii.eqb c1 "*"%char then
        if Nat.ltb (String.length text) 4 then Panic "slice bounds out of range"
        else Ok (map stripTrailingWhitespace (strings.SplitLines (stripBlock text)))
      else Ok (map stripTrailingWhitespace (strings.SplitLines text))
  | _ => Panic "index out of range [1]"
  end.

Fixpoint allLines (g : CommentGroup) : Result (list string) :=
  match g with
  | [] => Ok []
  | c :: g' =>
      do ls <- commentLines (Text c);
      do rest <- allLines g';
      Ok (ls ++ rest)%list
  end.

(** The second loop: leading blank lines go, a run of interior blank lines
    becomes one. [acc] is [lines[0:n]] reversed. *)
Fixpoint squeeze (acc : list string) (ls : list string) : list string :=
  match ls with
  | [] => rev acc
  | l :: ls' =>
      match l, acc with
      | EmptyString, [] => squeeze acc ls'
      | EmptyString, EmptyString :: _ => squeeze acc ls'
      | _, _ => squeeze (l :: acc) ls'
      end
  end.

Definition isEmpty (s : string) : bool :=
  match s with EmptyString => true | _ => false end.

(** [CommentGroup.Text]. *)
Definition cgText (g : CommentGroup) : Result string :=
  do ls <- allLines g;
  let kept := squeeze [] ls in
  let kept' := match last kept with
               | Some l => if isEmpty l then kept else (kept ++ [EmptyString])%list
               | None => kept
               end in
  Ok (strings.JoinLines kept').

End ast.

(** ** Syntax trees

    The nodes [ast.Inspect] hands to the visitor of [parseFile]. The three
    kinds the visitor switches on, and the two kinds of [Spec] it reads
    through a [GenDecl], are kept apart; every other node is [Other] with
    its children. A node carries an identity (its pointer); the [Doc] field
    of a node lives in the store below, because the pass assigns to it. *)

Abbreviation NodeId := nat (only parsing).
Abbreviation CgId := nat (only parsing).

Inductive Token : Type := IMPORT | CONST | TYPE | VAR.

Inductive Node : Type :=
  | FuncDecl (id : NodeId) (pos : ast.Pos) (Name : string) (children : list Node)
  | DeclStmt (id : NodeId) (Decl : Node)
  | GenDecl (id : NodeId) (TokPos : ast.Pos) (Tok : Token)
            (Lparen Rparen : ast.Pos) (Specs : list Node)
  | ValueSpec (id : NodeId) (pos : ast.Pos) (Names : list string) (children : list Node)
  | TypeSpec (id : NodeId) (Name : string) (children : list Node)
  | Other (id : NodeId) (children : list Node).

Definition nodeId (n : Node) : NodeId :=
  match n with
  | FuncDecl id _ _ _ | DeclStmt id _ | GenDecl id _ _ _ _ _
  | ValueSpec id _ _ _ | TypeSpec id _ _ | Other id _ => id
  end.

(** [ast.File]: its declarations and its [Comments] list. *)
Record File : Type := mkFile { Decls : list Node; Comments : list CgId }.

(** The file node [ast.Inspect] starts from. *)
Definition fileNode (af : File) : Node := Other 0 (Decls af).

(** The mutable part: the comment groups (a pointer is an index into
    [heap]), the [Doc] field of every node ([None] is [nil]), the comment
    map of the pass and its [skipped] set. *)
Record State : Type := mkState {
  heap : list ast.CommentGroup;
  docs : gmap NodeId CgId;
  cmap : gmap NodeId (list CgId);
  skipped : gset NodeId
}.

(** The group behind a pointer. Every pointer of a parsed tree is allocated;
    elsewhere the empty group stands in. *)
Definition deref (h : list ast.CommentGroup) (g : CgId) : ast.CommentGroup :=
  default [] (h !! g).

(** [&ast.CommentGroup{...}]: a fresh pointer. *)
Definition alloc (h : list ast.CommentGroup) (g : ast.CommentGroup)
  : list ast.CommentGroup * CgId := ((h ++ [g])%list, length h).

(** The command-line flags of the package, read through [*template] and
    [*parenComment]. *)
Record Flags : Type := mkFlags { template : string; parenComment : bool }.

(** Modelled from the spec: the constants [commentBase] and
    [commentIndentedBase] are declared outside parse.go. The template has
    a fixed comment-delimiter prefix and one placeholder for the name; the
    indented variant differs in an indentation prefix only. *)
Definition commentBase : string := "// %s ".
Definition commentIndentedBase : string := String "009"%char "// %s ".

(** Modelled from the spec: [isLineComment] is declared outside parse.go.
    A group is a line-comment block when its first line is delimited by
    the line-comment delimiter, rather than being a block comment. *)
Definition isLineComment (g : ast.CommentGroup) : bool :=
  match g with
  | [] => false
  | c :: _ => strings.HasPrefix (ast.Text c) "//"
  end.

(** [name] is a leading token of [text]: [text] starts with [name] and
    either ends there or goes on with white space. *)
Definition leadingToken (text name : string) : bool :=
  strings.HasPrefix text name &&
  match strings.drop (String.length name) text with
  | EmptyString => true
  | rest => negb (Nat.eqb (strings.spaceWidth rest) 0)
  end.

(** Modelled from the spec: [hasCommentPrefix] is declared outside parse.go.
    The first line of the group, its delimiter and the white space around
    the text apart, starts with the name as a whitespace-delimited prefix. *)
Definition hasCommentPrefix (g : ast.CommentGroup) (name : string) : bool :=
  match g with
  | [] => false
  | c :: _ =>
      leadingToken (strings.TrimSpace (strings.TrimPrefix (ast.Text c) "//")) name
  end.

(** Position of a group for comparisons; the empty group has none. *)
Definition posOf (h : list ast.CommentGroup) (g : CgId) : option ast.Pos :=
  match deref h g with
  | c :: _ => Some (ast.Slash c)
  | [] => None
  end.

Definition samePos (h : list ast.CommentGroup) (a b : CgId) : bool :=
  bool_decide (posOf h a = posOf h b).

Fixpoint rewriteAt (h : list ast.CommentGroup) (l : list CgId) (item : CgId)
  : list CgId :=
  match l with
  | [] => []
  | g :: l' => if samePos h g item then item :: l' else g :: rewriteAt h l' item
  end.

(** Modelled from the spec: [appendCommentGroup] is declared outside
    parse.go. The group is (re)written into the entry of its node: it takes
    the place of the group recorded at its position, if there is one, and
    is added otherwise, so that the entry holds no duplicate. *)
Definition appendCommentGroup (h : list ast.CommentGroup) (l : list CgId)
    (item : CgId) : list CgId :=
  if existsb (fun g => samePos h g item) l then rewriteAt h l item
  else (l ++ [item])%list.

(** ** The synthesizer *)

Section Synthesizer.

Context {tables : unicode.Tables} {printer : fmt.Printer}.

Variable flags : Flags.

Definition setHeap (st : State) (h : list ast.CommentGroup) : State :=
  mkState h (docs st) (cmap st) (skipped st).

(** [n.Doc = &ast.CommentGroup{List: []*ast.Comment{{Slash: pos, Text: text}}}]. *)
Definition newDoc (node : NodeId) (pos : ast.Pos) (text : string) (st : State)
  : State :=
  let '(h, g) := alloc (heap st) [ast.mkComment pos text] in
  mkState h (<[node := g]> (docs st)) (cmap st) (skipped st).

(** [modifyComment(comment, prefix)]; [comment] is the pointer [g]. The
    template comes from the package flag. *)
Definition modifyComment (g : CgId) (prefix : string) (st : State) : Result State :=
  let commentTemplate := commentBase ++ template flags in
  match deref (heap st) g with
  | [] => Panic "index out of range [0] with length 0"
  | c0 :: rest =>
      let first := ast.Text c0 in
      if strings.HasPrefix first "//" && negb (strings.HasPrefix first "// ") then
        let text := fmt.Sprintf commentTemplate [fmt.Str prefix] in
        Ok (setHeap st (<[g := ast.mkComment (ast.Slash c0) text :: c0 :: rest]> (heap st)))
      else
        let first1 := strings.TrimPrefix first "// " in
        let first2 :=
          fmt.Sprintf (commentBase ++ "%s") [fmt.Str prefix; fmt.Str first1] in
        Ok (setHeap st (<[g := ast.mkComment (ast.Slash c0) first2 :: rest]> (heap st)))
  end.

(** The body shared by the four [add...Comment] functions: [node] is the
    node whose [Doc] is read and assigned, [declPos] is its [Pos()], [name]
    the name the comment starts with, [arg] the operand handed to
    [fmt.Sprintf] for it, [synthTemplate] the template of the
    missing-or-trivial branch. *)
Definition addComment (node : NodeId) (declPos : ast.Pos) (name : string)
    (arg : fmt.Operand) (synthTemplate : string) (st : State) : Result State :=
  match docs st !! node with
  | None =>
      Ok (newDoc node (declPos - 1)%Z (fmt.Sprintf synthTemplate [arg]) st)
  | Some g =>
      do t <- ast.cgText (deref (heap st) g);
      if String.eqb (strings.TrimSpace t) name then
        do pos <- ast.cgPos (deref (heap st) g);
        Ok (newDoc node pos (fmt.Sprintf synthTemplate [arg]) st)
      else if isLineComment (deref (heap st) g)
              && negb (hasCommentPrefix (deref (heap st) g) name)
      then modifyComment g name st
      else Ok st
  end.

(** [addFuncDeclComment(fd, commentTemplate)]. [fmt.Sprintf] is handed
    [fd.Name], the identifier, where the three other functions hand it the
    name, a string. *)
Definition addFuncDeclComment (fd : NodeId) (pos : ast.Pos) (Name : string)
    (commentTemplate : string) (st : State) : Result State :=
  addComment fd pos Name (fmt.Ident fd Name) commentTemplate st.

(** [addValueSpecComment(gd, vs, commentTemplate)]; [name0] is
    [vs.Names[0].Name]. *)
Definition addValueSpecComment (gd : NodeId) (TokPos : ast.Pos) (name0 : string)
    (commentTemplate : string) (st : State) : Result State :=
  addComment gd TokPos name0 (fmt.Str name0) commentTemplate st.

(** [addParenValueSpecComment(vs, commentTemplate)]. *)
Definition addParenValueSpecComment (vs : NodeId) (pos : ast.Pos) (name0 : string)
    (commentTemplate : string) (st : State) : Result State :=
  addComment vs pos name0 (fmt.Str name0)
    (strings.Replace1 commentTemplate commentBase commentIndentedBase) st.

(** [addTypeSpecComment(gd, ts, commentTemplate)]. *)
Definition addTypeSpecComment (gd : NodeId) (TokPos : ast.Pos) (Name : string)
    (commentTemplate : string) (st : State) : Result State :=
  addComment gd TokPos Name (fmt.Str Name) commentTemplate st.

(** [cmap[n] = appendCommentGroup(cmap[n], n.Doc)]. A [nil] [Doc] does not
    reach this statement: every [add...Comment] leaves a [Doc] behind. *)
Definition recordDoc (node : NodeId) (st : State) : State :=
  match docs st !! node with
  | None => st
  | Some g =>
      mkState (heap st) (docs st)
        (<[node := appendCommentGroup (heap st) (default [] (cmap st !! node)) g]>
           (cmap st))
        (skipped st)
  end.

(** [vs.Names[0]]. *)
Definition firstName (Names : list string) : Result string :=
  match Names with
  | n :: _ => Ok n
  | [] => Panic "index out of range [0] with length 0"
  end.

(** The loop over [typ.Specs] of the per-entry branch. *)
Fixpoint parenEntries (specs : list Node) (commentTemplate : string) (st : State)
  : Result State :=
  match specs with
  | [] => Ok st
  | ValueSpec vs pos Names _ :: specs' =>
      do n0 <- firstName Names;
      if negb (ast.IsExported n0) then parenEntries specs' commentTemplate st
      else
        do st1 <- addParenValueSpecComment vs pos n0 commentTemplate st;
        parenEntries specs' commentTemplate (recordDoc vs st1)
  | _ :: _ => Panic "interface conversion: ast.Spec is not *ast.ValueSpec"
  end.

(** The visitor of [ast.Inspect] at one node; it always answers [true]. *)
Definition visit (commentTemplate : string) (n : Node) (st : State) : Result State :=
  match n with
  | FuncDecl id pos Name _ =>
      if bool_decide (id ∈ skipped st) || negb (ast.IsExported Name) then Ok st
      else
        do st1 <- addFuncDeclComment id pos Name commentTemplate st;
        Ok (recordDoc id st1)
  | DeclStmt _ Decl =>
      Ok (mkState (heap st) (docs st) (cmap st) ({[ nodeId Decl ]} ∪ skipped st))
  | GenDecl id TokPos Tok Lparen Rparen Specs =>
      match Tok with
      | CONST | VAR =>
          if negb (Z.eqb Lparen ast.NoPos && Z.eqb Rparen ast.NoPos)
             && parenComment flags
          then parenEntries Specs commentTemplate st
          else
            match Specs with
            | [] => Ok st
            | ValueSpec _ _ Names _ :: _ =>
                do n0 <- firstName Names;
                if bool_decide (id ∈ skipped st) || negb (ast.IsExported n0) then Ok st
                else
                  do st1 <- addValueSpecComment id TokPos n0 commentTemplate st;
                  Ok (recordDoc id st1)
            | _ :: _ => Panic "interface conversion: ast.Spec is not *ast.ValueSpec"
            end
      | TYPE =>
          match Specs with
          | [] => Panic "index out of range [0] with length 0"
          | TypeSpec _ Name _ :: _ =>
              if bool_decide (id ∈ skipped st) || negb (ast.IsExported Name) then Ok st
              else
                do st1 <- addTypeSpecComment id TokPos Name commentTemplate st;
                Ok (recordDoc id st1)
          | _ :: _ => Panic "interface conversion: ast.Spec is not *ast.TypeSpec"
          end
      | IMPORT => Ok st
      end
  | _ => Ok st
  end.

(** The children [ast.Walk] descends into, in its order. *)
Definition childrenOf (n : Node) : list Node :=
  match n with
  | FuncDecl _ _ _ children | ValueSpec _ _ _ children
  | TypeSpec _ _ children | Other _ children => children
  | DeclStmt _ Decl => [Decl]
  | GenDecl _ _ _ _ _ Specs => Specs
  end.

(** [ast.Inspect(n, visitor)]: the visitor runs at a node before the walk
    goes through its children, depth first. *)
Fixpoint inspect (commentTemplate : string) (n : Node) (st : State) {struct n}
  : Result State :=
  do st1 <- visit commentTemplate n st;
  let walk := fix walk (ns : list Node) (s : State) {struct ns} : Result State :=
    match ns with
    | [] => Ok s
    | m :: ns' => do s1 <- inspect commentTemplate m s; walk ns' s1
    end in
  match n with
  | FuncDecl _ _ _ children | ValueSpec _ _ _ children
  | TypeSpec _ _ children | Other _ children => walk children st1
  | DeclStmt _ Decl => do s1 <- inspect commentTemplate Decl st1; Ok s1
  | GenDecl _ _ _ _ _ Specs => walk Specs st1
  end.

Fixpoint inspectList (commentTemplate : string) (ns : list Node) (st : State)
  : Result State :=
  match ns with
  | [] => Ok st
  | m :: ns' => do s1 <- inspect commentTemplate m st; inspectList commentTemplate ns' s1
  end.

End Synthesizer.

(** ** [parseFile] *)

(** What [parser.ParseFile] hands back: a tree with its comment groups and
    [Doc] fields, or an error. *)
Inductive Parsed : Type :=
  | ParseOk (af : File) (h : list ast.CommentGroup) (d : gmap NodeId CgId)
  | ParseError (err : string).

(** What [parseFile] returns: the error of the parser, or the tree with the
    state the pass left and the [modified] verdict. *)
Inductive Outcome : Type :=
  | Failed (err : string)
  | Done (af : File) (st : State) (modified : bool).

(** The loops that build [originalCommentSign] and [currentCommentSign]. *)
Fixpoint commentSign (h : list ast.CommentGroup) (cs : list CgId) : Result string :=
  match cs with
  | [] => Ok ""
  | c :: cs' =>
      do t <- ast.cgText (deref h c);
      do rest <- commentSign h cs';
      Ok (t ++ rest)
  end.

Definition posZ (h : list ast.CommentGroup) (g : CgId) : Z := default 0%Z (posOf h g).

Fixpoint insertByPos (h : list ast.CommentGroup) (g : CgId) (l : list CgId)
  : list CgId :=
  match l with
  | [] => [g]
  | x :: l' => if (posZ h g <? posZ h x)%Z then g :: x :: l'
               else x :: insertByPos h g l'
  end.

(** [sortComments]: by position; groups at one position keep their order. *)
Definition sortComments (h : list ast.CommentGroup) (l : list CgId) : list CgId :=
  foldr (insertByPos h) [] l.

(** [cmap.Filter(af).Comments()]. Every key of the map is a node of [af]
    (the map is built from [af] and the visitor writes at nodes it is
    handed), so [Filter] keeps every entry; [Comments] collects the groups
    of all entries and sorts them. *)
Definition cmapComments (h : list ast.CommentGroup) (m : gmap NodeId (list CgId))
  : list CgId :=
  sortComments h (concat (map snd (map_to_list m))).

(** The placeholder injected into a file without comments. *)
Definition injected : ast.CommentGroup := [ast.mkComment (-1)%Z "// gocmt"].

Section ParseFile.

Context {tables : unicode.Tables} {printer : fmt.Printer}.

Variable flags : Flags.

(** [ast.NewCommentMap(fset, af, af.Comments)], a function of the positions
    of the nodes and of the comment groups; it belongs to [go/ast]. *)
Variable NewCommentMap : File -> list ast.CommentGroup -> gmap NodeId (list CgId).

(** The body of [parseFile] after a successful parse and the injection of
    the placeholder, up to the [return]. *)
Definition pass (af : File) (h : list ast.CommentGroup) (d : gmap NodeId CgId)
    (templateArg : string) : Result (File * State * bool) :=
  let commentTemplate := commentBase ++ templateArg in
  do originalCommentSign <- commentSign h (Comments af);
  let st0 := mkState h d (NewCommentMap af h) ∅ in
  do st <- inspect flags commentTemplate (fileNode af) st0;
  let comments := cmapComments (heap st) (cmap st) in
  do currentCommentSign <- commentSign (heap st) comments;
  Ok (mkFile (Decls af) comments, st,
      negb (String.eqb currentCommentSign originalCommentSign)).

(** [af.Comments = af.Comments[1:]], the deferred function. *)
Definition dropInjected (af : File) : Result File :=
  match Comments af with
  | [] => Panic "slice bounds out of range [1:0]"
  | _ :: cs => Ok (mkFile (Decls af) cs)
  end.

(** [parseFile(fset, filePath, template)]; [src] is what the parser returns
    for the file at [filePath]. *)
Definition parseFile (src : Parsed) (templateArg : string) : Result Outcome :=
  match src with
  | ParseError err => Ok (Failed err)
  | ParseOk af h d =>
      match Comments af with
      | [] =>
          let '(h1, g) := alloc h injected in
          do r <- pass (mkFile (Decls af) [g]) h1 d templateArg;
          let '(af1, st, modified) := r in
          do af2 <- dropInjected af1;
          Ok (Done af2 st modified)
      | _ :: _ =>
          do r <- pass af h d templateArg;
          let '(af1, st, modified) := r in
          Ok (Done af1 st modified)
      end
  end.

End ParseFile.

(** ** Nodes of a tree *)

Section Vocabulary.

Context {tables : unicode.Tables}.

(** The nodes of a tree, in the order of the walk. *)
Fixpoint subnodes (n : Node) : list Node :=
  let go := fix go (ns : list Node) : list Node :=
    match ns with
    | [] => []
    | m :: ns' => (subnodes m ++ go ns')%list
    end in
  n :: match n with
       | FuncDecl _ _ _ children | ValueSpec _ _ _ children
       | TypeSpec _ _ children | Other _ children => go children
       | DeclStmt _ Decl => subnodes Decl
       | GenDecl _ _ _ _ _ Specs => go Specs
       end.

(** The declarations the visitor may document, whatever the flags and the
    place of the node: an exported function, a [var] or [const] group or
    entry whose first name is exported, a [type] group whose first
    specification is exported. Every other node is, for the visitor,
    unexported or no declaration at all. *)
Definition isTarget (n : Node) : bool :=
  match n with
  | FuncDecl _ _ Name _ => ast.IsExported Name
  | GenDecl _ _ (CONST | VAR) _ _ (ValueSpec _ _ (n0 :: _) _ :: _) => ast.IsExported n0
  | GenDecl _ _ TYPE _ _ (TypeSpec _ Name _ :: _) => ast.IsExported Name
  | ValueSpec _ _ (n0 :: _) _ => ast.IsExported n0
  | _ => false
  end.

(** The file and the comment groups as they stand when the traversal
    begins: a file without comments has received the placeholder. *)
Definition prepared (af : File) (h : list ast.CommentGroup)
  : File * list ast.CommentGroup :=
  match Comments af with
  | [] => (mkFile (Decls af) [length h], (h ++ [injected])%list)
  | _ :: _ => (af, h)
  end.

(** What a stretch of the walk may touch, given the identities [T] of the
    declarations it documents: [Doc] and the comment map elsewhere are
    kept, a [Doc] is kept or set to a fresh pointer, pointers stay
    allocated, and a group that is the [Doc] of no declaration in [T] is
    kept. *)
Definition frame (T : list nat) (st st' : State) : Prop :=
  (forall k, k ∉ T -> docs st' !! k = docs st !! k /\ cmap st' !! k = cmap st !! k)
  /\ length (heap st) <= length (heap st')
  /\ (forall k p, docs st' !! k = Some p ->
        docs st !! k = Some p \/ length (heap st) <= p)
  /\ (forall p cg, heap st !! p = Some cg ->
        (forall k, k ∈ T -> docs st !! k <> Some p) -> heap st' !! p = Some cg).

(** The identities of the declarations among [ns] the visitor may document. *)
Definition targetIds (ns : list Node) : list nat := map nodeId (filter isTarget ns).


(** ** A measure of comment text

    The number of bytes of a string outside its white space: going through
    the string from the left, the bytes of a white-space rune are passed
    over and every other byte counts. [strings.TrimSpace] keeps it, and
    the text of a comment group keeps it through the trimming of lines and
    the squeezing of blank lines, which is what makes it fit to tell two
    concatenations apart. *)

(** [skip] bytes are passed over before the count goes on. *)
Fixpoint weigh (skip : nat) (s : string) : nat :=
  match s with
  | EmptyString => 0
  | String c s' =>
      match skip with
      | S k => weigh k s'
      | O =>
          match strings.spaceWidth s with
          | O => S (weigh 0 s')
          | S w => weigh w s'
          end
      end
  end.

Definition nonSpace (s : string) : nat := weigh 0 s.

(** A continuation byte of UTF-8. *)
Definition isCont (c : ascii) : bool :=
  let n := nat_of_ascii c in Nat.leb 128 n && Nat.leb n 191.

Fixpoint allCont (s : string) : bool :=
  match s with
  | EmptyString => true
  | String c s' => isCont c && allCont s'
  end.

(** A string that does not begin in the middle of a rune. *)
Definition startsClean (s : string) : bool :=
  match s with
  | EmptyString => true
  | String c _ => negb (isCont c)
  end.

(** What [stripTrailingWhitespace] takes off. *)
Fixpoint blanks (s : string) : bool :=
  match s with
  | EmptyString => true
  | String c s' => ast.isWhitespace c && blanks s'
  end.

(** What one comment contributes to the text of its group. *)
Definition linesWeight (text : string) : nat :=
  match ast.commentLines text with
  | Ok ls => sum_list_with nonSpace ls
  | Panic _ => 0
  end.

Definition groupWeight (g : ast.CommentGroup) : nat :=
  sum_list_with (fun c => linesWeight (ast.Text c)) g.

Definition weight (h : list ast.CommentGroup) (g : nat) : nat :=
  groupWeight (deref h g).

(** All the groups of a comment map, entry by entry. *)
Definition groupsOf (m : gmap nat (list nat)) : list nat :=
  concat (map snd (map_to_list m)).

Definition total (h : list ast.CommentGroup) (m : gmap nat (list nat)) : nat :=
  sum_list_with (weight h) (groupsOf m).

(** [n.Pos()] for the declarations the visitor documents. *)
Definition declPos (n : Node) : ast.Pos :=
  match n with
  | FuncDecl _ pos _ _ | ValueSpec _ pos _ _ => pos
  | GenDecl _ TokPos _ _ _ _ => TokPos
  | _ => 0%Z
  end.

(** What the walk relies on in the comment map of a tree with nodes [ns]:
    the groups of the map are allocated; within an entry no two groups
    start at the same position; the doc of a node is in the entry of the
    node; and no group of the entry of an exported declaration without doc
    starts on the byte before the declaration. [ast.NewCommentMap] on a parsed file gives such
    a map. *)
Definition mapInv (ns : list Node) (st : State) : Prop :=
  (forall k l g, cmap st !! k = Some l -> g ∈ l -> g < length (heap st))
  /\ (forall k l, cmap st !! k = Some l -> NoDup (map (posOf (heap st)) l))
  /\ (forall k g, docs st !! k = Some g ->
        exists l, cmap st !! k = Some l /\ g ∈ l)
  /\ (forall n l g, n ∈ ns -> isTarget n = true -> docs st !! nodeId n = None ->
        cmap st !! nodeId n = Some l -> g ∈ l ->
        posOf (heap st) g <> Some (declPos n - 1)%Z).

(** A stretch of the walk keeps the invariant of the comment map and does
    not lower the weight of its groups. *)
Definition walkOk (ns : list Node) (st st' : State) : Prop :=
  mapInv ns st' /\ total (heap st) (cmap st) <= total (heap st') (cmap st').

(** The state in which the traversal of [parseFile] begins. *)
Definition startState (ncm : File -> list ast.CommentGroup -> gmap nat (list nat))
    (af : File) (h : list ast.CommentGroup) (d : gmap nat nat) : State :=
  mkState (prepared af h).2 d (ncm (prepared af h).1 (prepared af h).2) ∅.

(** ** Further vocabulary for the properties *)

(** A template without format verb: no percent sign. *)
Fixpoint plain (s : string) : bool :=
  match s with
  | EmptyString => true
  | String c s' => negb (Ascii.eqb c "%"%char) && plain s'
  end.

(** A [var] or [const] group written with parentheses, the condition of
    line 54. *)
Definition parenGroup (n : Node) : bool :=
  match n with
  | GenDecl _ _ (CONST | VAR) Lparen Rparen _ =>
      negb (Z.eqb Lparen ast.NoPos && Z.eqb Rparen ast.NoPos)
  | _ => false
  end.

(** The name under which the visitor documents a node at the visit of the
    node itself, when the node is not marked as skipped: the name of an
    exported function, the first name of a [type] group, the first name of
    a [var] or [const] group outside the per-entry mode. *)
Definition ownName (flags : Flags) (n : Node) : option string :=
  match n with
  | FuncDecl _ _ Name _ => if ast.IsExported Name then Some Name else None
  | GenDecl _ _ TYPE _ _ (TypeSpec _ Name _ :: _) =>
      if ast.IsExported Name then Some Name else None
  | GenDecl _ _ (CONST | VAR) _ _ (ValueSpec _ _ (n0 :: _) _ :: _) =>
      if parenGroup n && parenComment flags then None
      else if ast.IsExported n0 then Some n0 else None
  | _ => None
  end.

(** The operand [fmt.Sprintf] is handed for a node documented under
    [name]: the identifier of a function, the name itself otherwise. *)
Definition operandOf (n : Node) (name : string) : fmt.Operand :=
  match n with
  | FuncDecl id _ _ _ => fmt.Ident id name
  | _ => fmt.Str name
  end.

(** The name a node is documented under on any path: its own name, or its
    first name as an entry of a group. *)
Definition targetName (n : Node) : option string :=
  match n with
  | FuncDecl _ _ Name _ => if ast.IsExported Name then Some Name else None
  | GenDecl _ _ TYPE _ _ (TypeSpec _ Name _ :: _) =>
      if ast.IsExported Name then Some Name else None
  | GenDecl _ _ (CONST | VAR) _ _ (ValueSpec _ _ (n0 :: _) _ :: _) =>
      if ast.IsExported n0 then Some n0 else None
  | ValueSpec _ _ (n0 :: _) _ => if ast.IsExported n0 then Some n0 else None
  | _ => None
  end.

(** Node [k] has a doc and the doc is in the entry of [k] in the comment
    map. *)
Definition attached (k : nat) (st : State) : Prop :=
  exists g, docs st !! k = Some g /\ g ∈ default [] (cmap st !! k).

(** What no stretch of the walk undoes: a doc stays a doc, an attached doc
    stays attached, the store of comment groups does not shrink. *)
Definition keeps (st st' : State) : Prop :=
  (forall k, is_Some (docs st !! k) -> is_Some (docs st' !! k))
  /\ (forall k, attached k st -> attached k st')
  /\ length (heap st) <= length (heap st').

(** A node the synthesizer has nothing to do for, in a store [h] with docs
    [d] and comment map [m]: if the node is documented under some name at
    all, its doc is there, reads as something other than the bare name,
    and is a block comment or starts with the name; the doc is in the entry
    of the node, alone at its position. *)
Definition compliant (h : list ast.CommentGroup) (d : gmap nat nat)
    (m : gmap nat (list nat)) (n : Node) : Prop :=
  forall name, targetName n = Some name ->
    exists g cg t l,
      d !! nodeId n = Some g
      /\ h !! g = Some cg
      /\ ast.cgText cg = Ok t
      /\ strings.TrimSpace t <> name
      /\ isLineComment cg && negb (hasCommentPrefix cg name) = false
      /\ m !! nodeId n = Some l
      /\ g ∈ l
      /\ NoDup (map (posOf h) l).

End Vocabulary.

(** ** Sample inputs

    Small trees and states on which the statements below are run. *)

Module Sample.

(** The open parts of the library for the inputs below. None of these
    inputs has a name that begins beyond Latin-1 or a template that goes
    beyond the verbs [fmt.run] follows, so neither part is consulted on
    them, and what is stated of them holds whatever the two parts are. *)
#[global] Instance tables : unicode.Tables | 100 :=
  {| unicode.Upper := fun _ => false;
     unicode.Upper_space := fun _ _ => eq_refl;
     unicode.Upper_error := eq_refl |}.

#[global] Instance printer : fmt.Printer | 100 :=
  {| fmt.doPrintf := fun _ _ _ => "" |}.

Definition dots : Flags := mkFlags "..." false.
Definition dotsParen : Flags := mkFlags "..." true.
Definition emptyParen : Flags := mkFlags "" true.

(** A state in which node [1] has the doc [0] made of the given lines,
    the first at position [10]. *)
Definition withDoc (lines : list string) : State :=
  mkState [map (ast.mkComment 10%Z) lines] {[ 1 := 0 ]} {[ 1 := [0] ]} ∅.

(** A state without comments. *)
Definition bare : State := mkState [] ∅ ∅ ∅.

(** [ast.NewCommentMap] on a tree whose only comment group is the doc of
    node [1]. *)
Definition docOfOne (af : File) (h : list ast.CommentGroup)
  : gmap NodeId (list CgId) := {[ 1 := [0] ]}.

(** [ast.NewCommentMap] on a tree without comments: the placeholder goes to
    a node of the package clause, recorded here under the identity [0]. *)
Definition onPackageName (af : File) (h : list ast.CommentGroup)
  : gmap NodeId (list CgId) := {[ 0 := [0] ]}.

(** [func DoThing() {}] at position [20]. *)
Definition funcDoThing : Node := FuncDecl 1 20%Z "DoThing" [].

(** [func f() { var ( X = 1 ) }]: the body is node [2], the statement
    node [3], the group node [4] with parentheses at [34] and [50], its
    entry node [5] at [40]. *)
Definition localGroup : Node :=
  FuncDecl 1 20%Z "f"
    [Other 2 [DeclStmt 3 (GenDecl 4 30%Z VAR 34%Z 50%Z [ValueSpec 5 40%Z ["X"] []])]].

(** [type ()] at position [20]. *)
Definition emptyTypeGroup : Node := GenDecl 1 20%Z TYPE 25%Z 26%Z [].

(** [// does it] [func helper() {}] [func Run() {}]: nodes [1] and [2]. *)
Definition helperAndRun : File :=
  mkFile [FuncDecl 1 20%Z "helper" []; FuncDecl 2 40%Z "Run" []] [0].


(** [func Run() {}] at position [20], node [1]. *)
Definition funcRun : Node := FuncDecl 1 20%Z "Run" [].

End Sample.

(** * Properties *)

Section FirstLine.

Context {tables : unicode.Tables} {printer : fmt.Printer}.

Example cgText_line :
  ast.cgText [ast.mkComment 5%Z "// DoThing does it. "; ast.mkComment 30%Z "//go:noinline"]
  = Ok ("DoThing does it." ++ String "010"%char "").
Proof. reflexivity. Qed.

Example cgText_block :
  ast.cgText [ast.mkComment 5%Z "/* Run */"] = Ok (" Run" ++ String "010"%char "").
Proof. reflexivity. Qed.

(** ** The library beyond ASCII *)

(** The encodings of [strings.spaces] decode, each at its full width, to
    the runes of [unicode.IsSpace], and every such rune is among them. *)
Lemma spaces_decode :
  Forall (fun e => unicode.IsSpace (utf8.DecodeRuneInString e).1 = true
                   /\ (utf8.DecodeRuneInString e).2 = String.length e)
    strings.spaces.
Proof. repeat constructor. Qed.

Lemma IsSpace_spaces (r : Z) :
  unicode.IsSpace r = true ->
  In r (map (fun e => (utf8.DecodeRuneInString e).1) strings.spaces).
Proof.
  unfold unicode.IsSpace. intros H.
  assert (Hr : (9 <= r <= 13 \/ r = 32 \/ r = 133 \/ r = 160 \/ r = 5760
               \/ 8192 <= r <= 8202 \/ r = 8232 \/ r = 8233 \/ r = 8239
               \/ r = 8287 \/ r = 12288)%Z).
  { repeat (apply orb_true_iff in H as [H|H]);
      try (apply andb_true_iff in H as [H1 H2]; apply Z.leb_le in H1, H2);
      try apply Z.eqb_eq in H; lia. }
  vm_compute.
  assert (Hc : (r = 9 \/ r = 10 \/ r = 11 \/ r = 12 \/ r = 13 \/ r = 32 \/ r = 133
               \/ r = 160 \/ r = 5760 \/ r = 8192 \/ r = 8193 \/ r = 8194
               \/ r = 8195 \/ r = 8196 \/ r = 8197 \/ r = 8198 \/ r = 8199
               \/ r = 8200 \/ r = 8201 \/ r = 8202 \/ r = 8232 \/ r = 8233
               \/ r = 8239 \/ r = 8287 \/ r = 12288)%Z) by lia.
  clear H Hr. intuition (subst; auto 30).
Qed.

(** [Élan] is exported: its first rune, U+00C9, is an upper-case letter of
    Latin-1. *)
Example IsExported_Elan : ast.IsExported (strings.bytes [195; 137; 108; 97; 110]) = true.
Proof. reflexivity. Qed.

(** [func Élan() {}] in a file without comments gets its comment. *)
Example parseFile_Elan :
  exists af st,
    parseFile Sample.dots Sample.onPackageName
      (ParseOk (mkFile [FuncDecl 1 20%Z (strings.bytes [195; 137; 108; 97; 110]) []] [])
         [] ∅) "..."
    = Ok (Done af st true)
    /\ docs st !! 1 = Some 1
    /\ heap st !! 1
       = Some [ast.mkComment 19%Z
                 ("// " ++ strings.bytes [195; 137; 108; 97; 110] ++ " ...")].
Proof. eexists _, _. split; [vm_compute; reflexivity|]. split; reflexivity. Qed.

(** A no-break space, U+00A0, is trimmed: the doc [// DoThing] followed by
    one is trivial, and is replaced. *)
Example TrimSpace_nbsp :
  strings.TrimSpace ("DoThing" ++ strings.bytes [194; 160; 10]) = "DoThing".
Proof. reflexivity. Qed.

Example trivial_with_nbsp :
  addFuncDeclComment Sample.dots 1 20%Z "DoThing" (commentBase ++ "...")
    (Sample.withDoc ["// DoThing" ++ strings.bytes [194; 160]])
  = Ok (newDoc 1 10%Z "// DoThing ..."
          (Sample.withDoc ["// DoThing" ++ strings.bytes [194; 160]])).
Proof. reflexivity. Qed.

(** A verb with an argument index is left to [doPrintf]. *)
Example Sprintf_index (x : fmt.Operand) :
  fmt.Sprintf (commentBase ++ "%[1]s") [x]
  = "// " ++ fmt.text x ++ " " ++ fmt.doPrintf "%[1]s" [x] 1.
Proof. reflexivity. Qed.


(** ** Strings and formatting *)

Lemma append_cons (c : ascii) (s t : string) : String c s ++ t = String c (s ++ t).
Proof. reflexivity. Qed.

Lemma append_nil (t : string) : "" ++ t = t.
Proof. reflexivity. Qed.

Lemma append_empty_r (s : string) : s ++ "" = s.
Proof.
  induction s as [|c s IH]; [reflexivity|].
  now rewrite append_cons, IH.
Qed.

Lemma append_assoc' (a b c : string) : (a ++ b) ++ c = a ++ (b ++ c).
Proof.
  induction a as [|x a IH]; [reflexivity|].
  now rewrite !append_cons, IH.
Qed.

Lemma HasPrefix_append (a b : string) : strings.HasPrefix (a ++ b) a = true.
Proof.
  induction a as [|x a IH]; [reflexivity|].
  rewrite append_cons; simpl. now rewrite Ascii.eqb_refl.
Qed.

Lemma drop_append (a b : string) : strings.drop (String.length a) (a ++ b) = b.
Proof.
  induction a as [|x a IH]; [reflexivity|].
  rewrite append_cons; simpl. exact IH.
Qed.

Lemma TrimPrefix_append (a b : string) : strings.TrimPrefix (a ++ b) a = b.
Proof. unfold strings.TrimPrefix. now rewrite HasPrefix_append, drop_append. Qed.

(** The indented template is the template with the indented base in
    front of the same suffix. *)
Lemma Replace1_base (suffix : string) :
  strings.Replace1 (commentBase ++ suffix) commentBase commentIndentedBase
  = commentIndentedBase ++ suffix.
Proof. reflexivity. Qed.

(** The template filled with a name: the delimiter, the name, a space and
    the rendering of the suffix. *)
Lemma Sprintf_template (suffix : string) (arg : fmt.Operand) :
  fmt.Sprintf (commentBase ++ suffix) [arg]
  = "// " ++ fmt.text arg ++ " " ++ fmt.run suffix [arg] 1.
Proof. reflexivity. Qed.

Lemma Sprintf_indented (suffix : string) (arg : fmt.Operand) :
  fmt.Sprintf (commentIndentedBase ++ suffix) [arg]
  = String "009"%char ("// " ++ fmt.text arg ++ " " ++ fmt.run suffix [arg] 1).
Proof. reflexivity. Qed.

(** The format of the rewrite branch of [modifyComment]. *)
Lemma Sprintf_base_rest (name rest : string) :
  fmt.Sprintf (commentBase ++ "%s") [fmt.Str name; fmt.Str rest]
  = "// " ++ name ++ " " ++ rest.
Proof.
  change (fmt.Sprintf (commentBase ++ "%s") [fmt.Str name; fmt.Str rest])
    with ("// " ++ name ++ " " ++ rest ++ "").
  now rewrite append_empty_r.
Qed.

Lemma deref_lookup (h : list ast.CommentGroup) (g : CgId) (cg : ast.CommentGroup) :
  h !! g = Some cg -> deref h g = cg.
Proof. intros H; unfold deref; now rewrite H. Qed.

(** ** The branches of the synthesizer *)

Section Branches.

Variable flags : Flags.

(** No doc: a fresh group of one comment just before the declaration. *)
Lemma addComment_missing node pos name arg tmpl st :
  docs st !! node = None ->
  addComment flags node pos name arg tmpl st
  = Ok (newDoc node (pos - 1)%Z (fmt.Sprintf tmpl [arg]) st).
Proof. intros H; unfold addComment; now rewrite H. Qed.

(** Trivial doc: a fresh group of one comment at the position of the doc. *)
Lemma addComment_trivial node pos name arg tmpl st g c0 rest t :
  docs st !! node = Some g ->
  heap st !! g = Some (c0 :: rest) ->
  ast.cgText (c0 :: rest) = Ok t ->
  strings.TrimSpace t = name ->
  addComment flags node pos name arg tmpl st
  = Ok (newDoc node (ast.Slash c0) (fmt.Sprintf tmpl [arg]) st).
Proof.
  intros Hd Hh Ht Heq; unfold addComment.
  rewrite Hd, (deref_lookup _ _ _ Hh), Ht; simpl.
  apply String.eqb_eq in Heq; now rewrite Heq.
Qed.

(** A doc that is not trivial goes to [modifyComment] or stays. *)
Lemma addComment_nontrivial node pos name arg tmpl st g cg t :
  docs st !! node = Some g ->
  heap st !! g = Some cg ->
  ast.cgText cg = Ok t ->
  strings.TrimSpace t <> name ->
  addComment flags node pos name arg tmpl st
  = if isLineComment cg && negb (hasCommentPrefix cg name)
    then modifyComment flags g name st else Ok st.
Proof.
  intros Hd Hh Ht Hne; unfold addComment.
  rewrite Hd, (deref_lookup _ _ _ Hh), Ht; simpl.
  apply String.eqb_neq in Hne; now rewrite Hne.
Qed.

(** The rewrite branch of [modifyComment]. *)
Lemma modifyComment_rewrite g name st c0 rest r :
  heap st !! g = Some (c0 :: rest) ->
  ast.Text c0 = "// " ++ r ->
  modifyComment flags g name st
  = Ok (setHeap st (<[g := ast.mkComment (ast.Slash c0) ("// " ++ name ++ " " ++ r) :: rest]>
                      (heap st))).
Proof.
  intros Hh Ht; unfold modifyComment.
  rewrite (deref_lookup _ _ _ Hh), Ht.
  replace (strings.HasPrefix ("// " ++ r) "// ") with true
    by (symmetry; apply HasPrefix_append).
  rewrite andb_false_r, TrimPrefix_append, Sprintf_base_rest.
  reflexivity.
Qed.

(** The prepend branch of [modifyComment]. *)
Lemma modifyComment_prepend g name st c0 rest :
  heap st !! g = Some (c0 :: rest) ->
  strings.HasPrefix (ast.Text c0) "//" = true ->
  strings.HasPrefix (ast.Text c0) "// " = false ->
  modifyComment flags g name st
  = Ok (setHeap st
          (<[g := ast.mkComment (ast.Slash c0)
                    (fmt.Sprintf (commentBase ++ template flags) [fmt.Str name])
                  :: c0 :: rest]>
             (heap st))).
Proof.
  intros Hh H1 H2; unfold modifyComment.
  now rewrite (deref_lookup _ _ _ Hh), H1, H2.
Qed.

End Branches.

(** ** The rewrite of a first line (C4) *)

Lemma Sprintf_base_append (name r : string) :
  fmt.Sprintf commentBase [fmt.Str name] ++ r = "// " ++ name ++ " " ++ r.
Proof.
  change (fmt.Sprintf commentBase [fmt.Str name]) with ("// " ++ name ++ " " ++ "").
  rewrite !append_cons, append_nil, !append_assoc'.
  now rewrite !append_cons, !append_nil.
Qed.

(** C4, as amended. A doc whose trimmed text is not the name, whose first
    line starts with the delimiter and a space, and which does not start
    with the name, has its first line rewritten in place, by each of the
    four [add...Comment] functions, to the fixed base [commentBase] filled
    with the name ("// name ") followed by what came after the delimiter
    and the space. The suffix of the template does not enter the line, the
    position of the line and the lines after it are kept, and [Doc] and the
    comment map are not assigned. *)
Theorem C4_first_line_rewritten
    (flags : Flags) (st : State) (node g : nat) (c0 : ast.Comment)
    (rest : list ast.Comment) (r name t tmpl : string) (pos : ast.Pos) :
  docs st !! node = Some g ->
  heap st !! g = Some (c0 :: rest) ->
  ast.Text c0 = "// " ++ r ->
  ast.cgText (c0 :: rest) = Ok t ->
  strings.TrimSpace t <> name ->
  hasCommentPrefix (c0 :: rest) name = false ->
  let st' := setHeap st
    (<[g := ast.mkComment (ast.Slash c0) (fmt.Sprintf commentBase [fmt.Str name] ++ r)
             :: rest]>
       (heap st)) in
  addFuncDeclComment flags node pos name tmpl st = Ok st'
  /\ addValueSpecComment flags node pos name tmpl st = Ok st'
  /\ addParenValueSpecComment flags node pos name tmpl st = Ok st'
  /\ addTypeSpecComment flags node pos name tmpl st = Ok st'.
Proof.
  intros Hd Hh Ht Hc Hne Hp st'.
  assert (Hline : isLineComment (c0 :: rest) = true).
  { simpl. rewrite Ht. reflexivity. }
  assert (H : forall arg tm, addComment flags node pos name arg tm st = Ok st').
  { intros arg tm.
    rewrite (addComment_nontrivial flags _ _ _ _ _ _ _ _ _ Hd Hh Hc Hne).
    rewrite Hline, Hp; simpl.
    rewrite (modifyComment_rewrite flags _ _ _ _ _ _ Hh Ht).
    unfold st'. now rewrite Sprintf_base_append. }
  unfold addFuncDeclComment, addValueSpecComment, addParenValueSpecComment,
    addTypeSpecComment.
  repeat split; apply H.
Qed.

(** Two docs of [func DoThing] on which the first line is not rewritten
    the way C4 has it, whatever the library. *)
Lemma rewrite_not_as_claimed :
  (addFuncDeclComment Sample.dots 1 20%Z "DoThing" (commentBase ++ "...")
     (Sample.withDoc ["// does it"])
   = Ok (Sample.withDoc ["// DoThing does it"])
   /\ fmt.Sprintf (commentBase ++ template Sample.dots) [fmt.Str "DoThing"] ++ "does it"
      = "// DoThing ...does it")
  /\ let doc := [ast.mkComment 10%Z "// "; ast.mkComment 10%Z "// DoThing"] in
     isLineComment doc = true
     /\ hasCommentPrefix doc "DoThing" = false
     /\ strings.HasPrefix "// " "// " = true
     /\ exists st' g,
          addFuncDeclComment Sample.dots 1 20%Z "DoThing" (commentBase ++ "...")
            (Sample.withDoc ["// "; "// DoThing"]) = Ok st'
          /\ docs st' !! 1 = Some g
          /\ map ast.Text (deref (heap st') g) = ["// DoThing ..."]
          /\ forall line, map ast.Text (deref (heap st') g) <> [line; "// DoThing"].
Proof.
  split; [split; reflexivity|].
  repeat split.
  exists (newDoc 1 10%Z "// DoThing ..." (Sample.withDoc ["// "; "// DoThing"])), 1.
  repeat split; intros line H; vm_compute in H; discriminate.
Qed.

End FirstLine.

(** [func DoThing] documented as [// does it]: the line becomes
    [// DoThing does it]. *)
Lemma C4_first_line_rewritten_witness :
  addFuncDeclComment Sample.dots 1 20%Z "DoThing" (commentBase ++ "...")
    (Sample.withDoc ["// does it"])
  = Ok (Sample.withDoc ["// DoThing does it"]).
Proof.
  refine (proj1 (C4_first_line_rewritten Sample.dots (Sample.withDoc ["// does it"])
            1 0 (ast.mkComment 10%Z "// does it") [] "does it" "DoThing"
            ("does it" ++ String "010"%char "") (commentBase ++ "...") 20%Z
            _ _ _ _ _ _)).
  - reflexivity.
  - reflexivity.
  - reflexivity.
  - reflexivity.
  - vm_compute. discriminate.
  - reflexivity.
Defined.

(** C4 as stated fails, in two ways. The doc [// does it] of
    [func DoThing], under the template [...], is rewritten to
    [// DoThing does it]: the line is the fixed base filled with the name
    followed by the remaining text, not the template filled with the name
    followed by it, which reads [// DoThing ...does it]. And the doc [// ]
    [// DoThing] of [func DoThing] is a line-comment block whose first
    line has the delimiter and a space and does not start with the name,
    yet its trimmed text is the name: the block is replaced by one
    synthesized line, the first line is not rewritten in place and the
    second line is gone. *)
Lemma C4_counterexample :
  (addFuncDeclComment Sample.dots 1 20%Z "DoThing" (commentBase ++ "...")
     (Sample.withDoc ["// does it"])
   = Ok (Sample.withDoc ["// DoThing does it"])
   /\ fmt.Sprintf (commentBase ++ template Sample.dots) [fmt.Str "DoThing"] ++ "does it"
      = "// DoThing ...does it")
  /\ let doc := [ast.mkComment 10%Z "// "; ast.mkComment 10%Z "// DoThing"] in
     isLineComment doc = true
     /\ hasCommentPrefix doc "DoThing" = false
     /\ strings.HasPrefix "// " "// " = true
     /\ exists st' g,
          addFuncDeclComment Sample.dots 1 20%Z "DoThing" (commentBase ++ "...")
            (Sample.withDoc ["// "; "// DoThing"]) = Ok st'
          /\ docs st' !! 1 = Some g
          /\ map ast.Text (deref (heap st') g) = ["// DoThing ..."]
          /\ forall line, map ast.Text (deref (heap st') g) <> [line; "// DoThing"].
Proof. exact rewrite_not_as_claimed. Qed.

Section GluedLine.

Context {tables : unicode.Tables} {printer : fmt.Printer}.

(** ** A line glued to its delimiter (C7) *)

(** C7, as amended. A doc whose trimmed text is not the name, whose first
    line starts with the delimiter not followed by a space, and which does
    not start with the name, gets one new line in front, by each of the
    four [add...Comment] functions: the template of the package flag filled
    with the name, at the position of the block. The lines of the block
    follow it, unchanged and in order. *)
Theorem C7_glued_line_prepended
    (flags : Flags) (st : State) (node g : nat) (c0 : ast.Comment)
    (rest : list ast.Comment) (name t tmpl : string) (pos : ast.Pos) :
  docs st !! node = Some g ->
  heap st !! g = Some (c0 :: rest) ->
  strings.HasPrefix (ast.Text c0) "//" = true ->
  strings.HasPrefix (ast.Text c0) "// " = false ->
  ast.cgText (c0 :: rest) = Ok t ->
  strings.TrimSpace t <> name ->
  hasCommentPrefix (c0 :: rest) name = false ->
  let line := ast.mkComment (ast.Slash c0)
                (fmt.Sprintf (commentBase ++ template flags) [fmt.Str name]) in
  let st' := setHeap st (<[g := line :: c0 :: rest]> (heap st)) in
  addFuncDeclComment flags node pos name tmpl st = Ok st'
  /\ addValueSpecComment flags node pos name tmpl st = Ok st'
  /\ addParenValueSpecComment flags node pos name tmpl st = Ok st'
  /\ addTypeSpecComment flags node pos name tmpl st = Ok st'.
Proof.
  intros Hd Hh H1 H2 Hc Hne Hp line st'.
  assert (Hline : isLineComment (c0 :: rest) = true) by exact H1.
  assert (H : forall arg tm, addComment flags node pos name arg tm st = Ok st').
  { intros arg tm.
    rewrite (addComment_nontrivial flags _ _ _ _ _ _ _ _ _ Hd Hh Hc Hne).
    rewrite Hline, Hp; simpl.
    exact (modifyComment_prepend flags _ _ _ _ _ Hh H1 H2). }
  unfold addFuncDeclComment, addValueSpecComment, addParenValueSpecComment,
    addTypeSpecComment.
  repeat split; apply H.
Qed.

(** A doc of [func DoThing] with a glued first line that is replaced, not
    prepended to, whatever the library. *)
Lemma glued_block_replaced :
  let doc := [ast.mkComment 10%Z "//"; ast.mkComment 10%Z "// DoThing"] in
  isLineComment doc = true
  /\ hasCommentPrefix doc "DoThing" = false
  /\ strings.HasPrefix "//" "// " = false
  /\ exists st' g,
       addFuncDeclComment Sample.dots 1 20%Z "DoThing" (commentBase ++ "...")
         (Sample.withDoc ["//"; "// DoThing"]) = Ok st'
       /\ docs st' !! 1 = Some g
       /\ map ast.Text (deref (heap st') g) = ["// DoThing ..."]
       /\ forall line, map ast.Text (deref (heap st') g) <> [line; "//"; "// DoThing"].
Proof.
  repeat split.
  exists (newDoc 1 10%Z "// DoThing ..." (Sample.withDoc ["//"; "// DoThing"])), 1.
  repeat split; intros line H; vm_compute in H; discriminate.
Qed.

End GluedLine.

(** [func Run] documented as [//nolint:foo]. *)
Lemma C7_glued_line_prepended_witness :
  addFuncDeclComment Sample.dots 1 20%Z "Run" (commentBase ++ "...")
    (Sample.withDoc ["//nolint:foo"])
  = Ok (Sample.withDoc ["// Run ..."; "//nolint:foo"]).
Proof.
  refine (proj1 (C7_glued_line_prepended Sample.dots (Sample.withDoc ["//nolint:foo"])
            1 0 (ast.mkComment 10%Z "//nolint:foo") [] "Run" ""
            (commentBase ++ "...") 20%Z _ _ _ _ _ _ _)).
  - reflexivity.
  - reflexivity.
  - reflexivity.
  - reflexivity.
  - reflexivity.
  - vm_compute. discriminate.
  - reflexivity.
Defined.

(** C7 as stated fails: the doc [//] [// DoThing] of [func DoThing] is a
    line-comment block, its first line is glued and does not start with
    the name, yet its trimmed text is the name: the block is replaced by
    one synthesized line and its two lines are gone. *)
Lemma C7_counterexample :
  let doc := [ast.mkComment 10%Z "//"; ast.mkComment 10%Z "// DoThing"] in
  isLineComment doc = true
  /\ hasCommentPrefix doc "DoThing" = false
  /\ strings.HasPrefix "//" "// " = false
  /\ exists st' g,
       addFuncDeclComment Sample.dots 1 20%Z "DoThing" (commentBase ++ "...")
         (Sample.withDoc ["//"; "// DoThing"]) = Ok st'
       /\ docs st' !! 1 = Some g
       /\ map ast.Text (deref (heap st') g) = ["// DoThing ..."]
       /\ forall line, map ast.Text (deref (heap st') g) <> [line; "//"; "// DoThing"].
Proof. exact glued_block_replaced. Qed.

Section TemplateOfModify.

Context {tables : unicode.Tables} {printer : fmt.Printer}.

(** ** The template of [modifyComment] (C10) *)

Lemma append_cancel_l (a x y : string) : a ++ x = a ++ y -> x = y.
Proof.
  induction a as [|c a IH]; [now rewrite !append_nil|].
  rewrite !append_cons. intros H; injection H; auto.
Qed.

(** C10. On a doc that is not trivial, the four [add...Comment] functions
    return the same state whatever template [parseFile] passes down: the
    only template read on that path is the package flag, inside
    [modifyComment]. The missing-doc path, on the contrary, fills the
    template it is passed, so the lines of the two paths differ as soon as
    [fmt] writes the suffix of the argument and the suffix of the flag
    differently. *)
Theorem C10_modify_ignores_argument
    (flags : Flags) (st : State) (node g : nat) (cg : ast.CommentGroup)
    (name t arg1 arg2 : string) (pos : ast.Pos) :
  docs st !! node = Some g ->
  heap st !! g = Some cg ->
  ast.cgText cg = Ok t ->
  strings.TrimSpace t <> name ->
  (addFuncDeclComment flags node pos name (commentBase ++ arg1) st
   = addFuncDeclComment flags node pos name (commentBase ++ arg2) st
   /\ addValueSpecComment flags node pos name (commentBase ++ arg1) st
      = addValueSpecComment flags node pos name (commentBase ++ arg2) st
   /\ addParenValueSpecComment flags node pos name (commentBase ++ arg1) st
      = addParenValueSpecComment flags node pos name (commentBase ++ arg2) st
   /\ addTypeSpecComment flags node pos name (commentBase ++ arg1) st
      = addTypeSpecComment flags node pos name (commentBase ++ arg2) st)
  /\ (forall x : fmt.Operand,
        fmt.text x = name ->
        fmt.run arg1 [x] 1 <> fmt.run (template flags) [fmt.Str name] 1 ->
        fmt.Sprintf (commentBase ++ arg1) [x]
        <> fmt.Sprintf (commentBase ++ template flags) [fmt.Str name]).
Proof.
  intros Hd Hh Hc Hne.
  assert (H : forall arg tm1 tm2,
             addComment flags node pos name arg tm1 st
             = addComment flags node pos name arg tm2 st).
  { intros arg tm1 tm2.
    now rewrite !(addComment_nontrivial flags _ _ _ _ _ _ _ _ _ Hd Hh Hc Hne). }
  unfold addFuncDeclComment, addValueSpecComment, addParenValueSpecComment,
    addTypeSpecComment.
  split; [repeat split; apply H|].
  intros x Hx Hr Heq. apply Hr.
  rewrite !Sprintf_template, Hx in Heq. simpl in Heq.
  apply (append_cancel_l "// ") in Heq.
  apply (append_cancel_l name) in Heq.
  now apply (append_cancel_l " ") in Heq.
Qed.

End TemplateOfModify.

(** [func Run] documented as [//nolint:foo], flag [...], arguments [!] and
    [?]: the same line [// Run ...] either way. *)
Lemma C10_modify_ignores_argument_witness :
  addFuncDeclComment Sample.dots 1 20%Z "Run" (commentBase ++ "!")
    (Sample.withDoc ["//nolint:foo"])
  = addFuncDeclComment Sample.dots 1 20%Z "Run" (commentBase ++ "?")
      (Sample.withDoc ["//nolint:foo"]).
Proof.
  refine (proj1 (proj1 (C10_modify_ignores_argument Sample.dots
            (Sample.withDoc ["//nolint:foo"]) 1 0 [ast.mkComment 10%Z "//nolint:foo"]
            "Run" "" "!" "?" 20%Z _ _ _ _))).
  - reflexivity.
  - reflexivity.
  - reflexivity.
  - vm_compute. discriminate.
Defined.

Section VisibilityGate.

Context {tables : unicode.Tables} {printer : fmt.Printer}.

(** ** Empty groups (C6) *)

(** C6 fails on the code. A file whose only declaration is the empty
    group [type ()] makes [typ.Specs[0]] fail: under every flag, template
    and comment map the pass of [parseFile] panics, where the sibling
    branch for [var] and [const] returns on an empty group. *)
Theorem C6_empty_type_group_panics
    (flags : Flags) (ncm : File -> list ast.CommentGroup -> gmap nat (list nat))
    (templateArg : string) :
  parseFile flags ncm (ParseOk (mkFile [Sample.emptyTypeGroup] []) [] ∅) templateArg
  = Panic "index out of range [0] with length 0"
  /\ forall st, is_ok (visit flags (commentBase ++ templateArg)
                         (GenDecl 1 20%Z VAR 25%Z 26%Z []) st) = true.
Proof.
  split; [reflexivity|].
  intros st; simpl. destruct (parenComment flags); reflexivity.
Qed.

(** ** Declarations inside a function body (C2) *)

(** C2 fails on the code. With the per-entry flag set, the parenthesized
    group of [func f() { var ( X = 1 ) }] is marked as skipped by the
    statement that holds it, and its entry [X] still gets a comment: the
    per-entry branch does not consult [skipped]. Without the flag the
    group is left alone. *)
Theorem C2_local_group_documented :
  (exists af st,
     parseFile Sample.dotsParen Sample.onPackageName
       (ParseOk (mkFile [Sample.localGroup] []) [] ∅) "..." = Ok (Done af st true)
     /\ 4 ∈ skipped st
     /\ docs st !! 5 = Some 1
     /\ heap st !! 1 = Some [ast.mkComment 39%Z (String "009"%char "// X ...")]
     /\ Comments af = [1])
  /\ (exists af st,
        parseFile Sample.dots Sample.onPackageName
          (ParseOk (mkFile [Sample.localGroup] []) [] ∅) "..." = Ok (Done af st false)
        /\ docs st = ∅ /\ Comments af = []).
Proof.
  split.
  - eexists _, _. split; [vm_compute; reflexivity|].
    repeat split; try reflexivity.
  - eexists _, _. split; [vm_compute; reflexivity|].
    repeat split; reflexivity.
Qed.

(** ** Walking a tree *)

Lemma bind_Ok {A B} (r : Result A) (k : A -> Result B) (b : B) :
  bind r k = Ok b -> exists a, r = Ok a /\ k a = Ok b.
Proof. destruct r as [a|m]; simpl; [eauto | discriminate]. Qed.

Lemma bind_ext {A B} (r : Result A) (k k' : A -> Result B) :
  (forall a, k a = k' a) -> bind r k = bind r k'.
Proof. intros H; destruct r; simpl; auto. Qed.

Lemma Node_children_ind (P : Node -> Prop) :
  (forall n, Forall P (childrenOf n) -> P n) -> forall n, P n.
Proof.
  intros H. fix IH 1. intros n. apply H.
  assert (L : forall ns : list Node, (forall m, P m) -> Forall P ns).
  { intros ns Hall. induction ns; constructor; auto. }
  destruct n; simpl;
    try (match goal with
         | |- Forall P ?l =>
             induction l as [|c l IHl]; constructor; [apply IH | exact IHl]
         end).
  constructor; [apply IH | constructor].
Qed.

Lemma inspect_unfold flags ct n st :
  inspect flags ct n st
  = do st1 <- visit flags ct n st; inspectList flags ct (childrenOf n) st1.
Proof.
  assert (W : forall ns s,
    (fix walk (ns : list Node) (s : State) {struct ns} : Result State :=
       match ns with
       | [] => Ok s
       | m :: ns' => do s1 <- inspect flags ct m s; walk ns' s1
       end) ns s = inspectList flags ct ns s).
  { induction ns as [|m ns IHns]; intros s; simpl; [reflexivity|].
    destruct (inspect flags ct m s); simpl; auto. }
  destruct n; simpl;
    first [reflexivity | apply W | apply bind_ext; intros a; apply W].
Qed.

Lemma subnodes_unfold n : subnodes n = n :: flat_map subnodes (childrenOf n).
Proof.
  assert (W : forall ns,
    (fix go (ns : list Node) : list Node :=
       match ns with
       | [] => []
       | m :: ns' => (subnodes m ++ go ns')%list
       end) ns = flat_map subnodes ns).
  { induction ns as [|m ns IHns]; simpl; [reflexivity | now rewrite IHns]. }
  destruct n; simpl; rewrite ?W, ?app_nil_r; reflexivity.
Qed.

(** ** What the walk leaves alone *)

Lemma frame_refl T st : frame T st st.
Proof. unfold frame; repeat split; auto. Qed.

Lemma frame_weaken T T' st st' :
  (forall k, k ∈ T -> k ∈ T') -> frame T st st' -> frame T' st st'.
Proof.
  intros Hsub (H1 & H2 & H3 & H4); unfold frame; repeat split; auto.
  - apply H1; auto.
  - apply H1; auto.
Qed.

Lemma frame_trans T1 T2 st0 st1 st2 :
  frame T1 st0 st1 -> frame T2 st1 st2 -> frame (T1 ++ T2) st0 st2.
Proof.
  intros (A1 & A2 & A3 & A4) (B1 & B2 & B3 & B4); unfold frame; repeat split.
  - destruct (B1 k) as [-> _]; [set_solver|]. apply A1; set_solver.
  - destruct (B1 k) as [_ ->]; [set_solver|]. apply A1; set_solver.
  - lia.
  - intros k p Hk. destruct (B3 _ _ Hk) as [Hk1|Hk1]; [|right; lia].
    destruct (A3 _ _ Hk1); auto.
  - intros p cg Hp Hno. apply B4.
    + apply A4; [exact Hp|]. intros k Hk; apply Hno; set_solver.
    + intros k Hk Hd. destruct (A3 _ _ Hd) as [Hd0|Hlen].
      * apply (Hno k); [set_solver | exact Hd0].
      * apply lookup_lt_Some in Hp. lia.
Qed.

Lemma frame_newDoc node pos text st : frame [node] st (newDoc node pos text st).
Proof.
  unfold frame, newDoc; simpl; repeat split.
  - apply lookup_insert_ne. set_solver.
  - rewrite length_app; simpl; lia.
  - intros k p. destruct (decide (node = k)) as [->|Hne].
    + rewrite lookup_insert_eq. intros [= <-]. right; lia.
    + rewrite lookup_insert_ne by exact Hne. auto.
  - intros p cg Hp _. now apply lookup_app_l_Some.
Qed.

Lemma frame_setHeap_insert node g cg' st :
  docs st !! node = Some g ->
  frame [node] st (setHeap st (<[g := cg']> (heap st))).
Proof.
  intros Hd; unfold frame, setHeap; simpl; repeat split; auto.
  - rewrite length_insert; lia.
  - intros p cg Hp Hno. rewrite list_lookup_insert_ne; [exact Hp|].
    intros ->. apply (Hno node); [set_solver | exact Hd].
Qed.

Lemma frame_modifyComment flags node g name st st' :
  docs st !! node = Some g ->
  modifyComment flags g name st = Ok st' -> frame [node] st st'.
Proof.
  intros Hd; unfold modifyComment.
  destruct (deref (heap st) g) as [|c0 rest]; [discriminate|].
  destruct (_ && _); intros [= <-]; now apply frame_setHeap_insert.
Qed.

Lemma frame_addComment flags node pos name arg tmpl st st' :
  addComment flags node pos name arg tmpl st = Ok st' -> frame [node] st st'.
Proof.
  unfold addComment. destruct (docs st !! node) as [g|] eqn:Hd.
  - intros H. apply bind_Ok in H as (t & _ & H).
    destruct (String.eqb _ name).
    + apply bind_Ok in H as (p & _ & [= <-]). apply frame_newDoc.
    + destruct (_ && _).
      * eapply frame_modifyComment; eauto.
      * injection H as <-. apply frame_refl.
  - intros [= <-]. apply frame_newDoc.
Qed.

Lemma frame_recordDoc node st : frame [node] st (recordDoc node st).
Proof.
  unfold recordDoc. destruct (docs st !! node) as [g|]; [|apply frame_refl].
  unfold frame; simpl; repeat split; auto.
  apply lookup_insert_ne. set_solver.
Qed.

(** Documenting one declaration: [add...Comment], then the comment map. *)
Lemma frame_document flags node pos name arg tmpl st st1 :
  addComment flags node pos name arg tmpl st = Ok st1 ->
  frame [node] st (recordDoc node st1).
Proof.
  intros H. apply frame_addComment in H.
  eapply frame_weaken; [|exact (frame_trans _ _ _ _ _ H (frame_recordDoc node st1))].
  set_solver.
Qed.

Lemma targetIds_cons n ns :
  targetIds (n :: ns) = if isTarget n then nodeId n :: targetIds ns else targetIds ns.
Proof. unfold targetIds; simpl. unfold filter; simpl. destruct (isTarget n); reflexivity. Qed.

Lemma targetIds_app ns ms : targetIds (ns ++ ms) = (targetIds ns ++ targetIds ms)%list.
Proof. unfold targetIds. now rewrite filter_app, map_app. Qed.

Lemma frame_parenEntries flags specs ct st st' :
  parenEntries flags specs ct st = Ok st' -> frame (targetIds specs) st st'.
Proof.
  revert st; induction specs as [|s specs IH]; intros st; simpl.
  - intros [= <-]. apply frame_refl.
  - destruct s; try discriminate.
    intros H. apply bind_Ok in H as (n0 & Hn & H).
    destruct Names as [|n0' Names]; [discriminate|]. injection Hn as ->.
    rewrite targetIds_cons; simpl.
    destruct (ast.IsExported n0); simpl in H.
    + apply bind_Ok in H as (st1 & Ha & H).
      apply frame_document in Ha. apply IH in H.
      exact (frame_trans [id] _ _ _ _ Ha H).
    + now apply IH.
Qed.

Lemma frame_visit flags ct n st st' :
  visit flags ct n st = Ok st' -> frame (targetIds (n :: childrenOf n)) st st'.
Proof.
  rewrite targetIds_cons.
  destruct n; simpl.
  - destruct (bool_decide _); simpl.
    + intros [= <-]. apply frame_refl.
    + destruct (ast.IsExported Name); simpl.
      * intros H. apply bind_Ok in H as (st1 & Ha & [= <-]).
        apply frame_document in Ha. eapply frame_weaken; [|exact Ha]. set_solver.
      * intros [= <-]. apply frame_refl.
  - intros [= <-]. unfold frame; simpl; repeat split; auto.
  - assert (Hparen :
      parenEntries flags Specs ct st = Ok st' ->
      frame (if isTarget (GenDecl id TokPos Tok Lparen Rparen Specs)
             then id :: targetIds Specs else targetIds Specs) st st').
    { intros H. apply frame_parenEntries in H.
      eapply frame_weaken; [|exact H]. destruct (isTarget _); set_solver. }
    assert (Hdoc : forall name arg st1 T,
      addComment flags id TokPos name arg ct st = Ok st1 ->
      frame (id :: T) st (recordDoc id st1)).
    { intros name arg st1 T Ha. apply frame_document in Ha.
      eapply frame_weaken; [|exact Ha]. set_solver. }
    destruct Tok.
    + intros [= <-]. apply frame_refl.
    + destruct (negb _ && parenComment flags); [exact Hparen|].
      destruct Specs as [|s Specs]; [intros [= <-]; apply frame_refl|].
      destruct s; try discriminate.
      intros H. apply bind_Ok in H as (n0 & Hn & H).
      destruct Names as [|n0' Names]; [discriminate|]. injection Hn as ->.
      destruct (bool_decide _); simpl in H; [injection H as <-; apply frame_refl|].
      destruct (ast.IsExported n0) eqn:He; simpl in H;
        [|injection H as <-; apply frame_refl].
      apply bind_Ok in H as (st1 & Ha & [= <-]).
      eapply Hdoc; exact Ha.
    + destruct Specs as [|s Specs]; [discriminate|].
      destruct s; try discriminate.
      destruct (bool_decide _); simpl; [intros [= <-]; apply frame_refl|].
      destruct (ast.IsExported Name) eqn:He; simpl;
        [|intros [= <-]; apply frame_refl].
      intros H. apply bind_Ok in H as (st1 & Ha & [= <-]).
      eapply Hdoc; exact Ha.
    + destruct (negb _ && parenComment flags); [exact Hparen|].
      destruct Specs as [|s Specs]; [intros [= <-]; apply frame_refl|].
      destruct s; try discriminate.
      intros H. apply bind_Ok in H as (n0 & Hn & H).
      destruct Names as [|n0' Names]; [discriminate|]. injection Hn as ->.
      destruct (bool_decide _); simpl in H; [injection H as <-; apply frame_refl|].
      destruct (ast.IsExported n0) eqn:He; simpl in H;
        [|injection H as <-; apply frame_refl].
      apply bind_Ok in H as (st1 & Ha & [= <-]).
      eapply Hdoc; exact Ha.
  - intros [= <-]. apply frame_refl.
  - intros [= <-]. apply frame_refl.
  - intros [= <-]. apply frame_refl.
Qed.

Lemma elem_of_targetIds k ns :
  k ∈ targetIds ns <-> exists m, m ∈ ns /\ isTarget m = true /\ nodeId m = k.
Proof.
  unfold targetIds. rewrite list_elem_of_In, in_map_iff. split.
  - intros (m & Hid & Hin). apply list_elem_of_In, list_elem_of_filter in Hin.
    destruct Hin as [Ht Hin]. exists m. split; [exact Hin|]. split; [|exact Hid].
    now destruct (isTarget m).
  - intros (m & Hin & Ht & Hid). exists m. split; [exact Hid|].
    apply list_elem_of_In, list_elem_of_filter. split; [now rewrite Ht | exact Hin].
Qed.

Lemma subnodes_self n : n ∈ subnodes n.
Proof. rewrite subnodes_unfold. constructor. Qed.

Lemma elem_of_flat_map_subnodes m ns :
  m ∈ flat_map subnodes ns <-> exists c, c ∈ ns /\ m ∈ subnodes c.
Proof.
  rewrite list_elem_of_In, in_flat_map. split.
  - intros (c & Hc & Hm). exists c. now rewrite !list_elem_of_In.
  - intros (c & Hc & Hm). exists c. now rewrite <- !list_elem_of_In.
Qed.

Lemma frame_inspectList flags ct ns :
  Forall (fun n => forall st st', inspect flags ct n st = Ok st' ->
                     frame (targetIds (subnodes n)) st st') ns ->
  forall st st', inspectList flags ct ns st = Ok st' ->
    frame (targetIds (flat_map subnodes ns)) st st'.
Proof.
  induction 1 as [|n ns Hn _ IH]; intros st st'; simpl.
  - intros [= <-]. apply frame_refl.
  - intros H. apply bind_Ok in H as (s1 & H1 & H2).
    rewrite targetIds_app.
    exact (frame_trans _ _ _ _ _ (Hn _ _ H1) (IH _ _ H2)).
Qed.

(** The walk of a tree touches the exported declarations of the tree only. *)
Lemma frame_inspect flags ct n :
  forall st st', inspect flags ct n st = Ok st' ->
    frame (targetIds (subnodes n)) st st'.
Proof.
  induction n as [n IH] using Node_children_ind. intros st st'.
  rewrite inspect_unfold, subnodes_unfold. intros H.
  apply bind_Ok in H as (st1 & Hv & Hl).
  apply frame_visit in Hv. apply (frame_inspectList _ _ _ IH) in Hl.
  eapply frame_weaken; [|exact (frame_trans _ _ _ _ _ Hv Hl)].
  intros k Hk. apply elem_of_app in Hk as [Hk|Hk].
  - apply elem_of_targetIds in Hk as (m & Hm & Ht & Hid).
    apply elem_of_targetIds. exists m. split; [|auto].
    apply elem_of_cons in Hm as [->|Hm]; [constructor|].
    apply elem_of_cons; right. apply elem_of_flat_map_subnodes.
    exists m. split; [exact Hm | apply subnodes_self].
  - apply elem_of_targetIds in Hk as (m & Hm & Ht & Hid).
    apply elem_of_targetIds. exists m. split; [|auto].
    apply elem_of_cons; right. exact Hm.
Qed.

(** ** The visibility gate (C3) *)

Lemma NoDup_map_eq {A B} (f : A -> B) (l : list A) (x y : A) :
  NoDup (map f l) -> x ∈ l -> y ∈ l -> f x = f y -> x = y.
Proof.
  induction l as [|a l IH]; intros Hnd Hx Hy Hf; [inversion Hx|].
  simpl in Hnd. apply NoDup_cons in Hnd as [Ha Hl].
  apply elem_of_cons in Hx as [->|Hx]; apply elem_of_cons in Hy as [->|Hy]; auto.
  - exfalso. apply Ha. rewrite Hf. apply list_elem_of_In, in_map.
    now apply list_elem_of_In.
  - exfalso. apply Ha. rewrite <- Hf. apply list_elem_of_In, in_map.
    now apply list_elem_of_In.
Qed.

Lemma parseFile_pass flags ncm af h d tmpl af' st' modified :
  parseFile flags ncm (ParseOk af h d) tmpl = Ok (Done af' st' modified) ->
  exists af1,
    pass flags ncm (prepared af h).1 (prepared af h).2 d tmpl = Ok (af1, st', modified)
    /\ (Comments af = [] -> dropInjected af1 = Ok af')
    /\ (Comments af <> [] -> af' = af1).
Proof.
  unfold parseFile, prepared. destruct (Comments af) as [|c cs]; simpl.
  - intros H. apply bind_Ok in H as ([[af1 st1] m1] & Hp & H).
    apply bind_Ok in H as (af2 & Hd & [= <- <- <-]).
    exists af1. repeat split; auto. congruence.
  - intros H. apply bind_Ok in H as ([[af1 st1] m1] & Hp & [= <- <- <-]).
    exists af1. repeat split; auto. congruence.
Qed.

Lemma pass_inspect flags ncm af h d tmpl af1 st' modified :
  pass flags ncm af h d tmpl = Ok (af1, st', modified) ->
  exists original current,
    commentSign h (Comments af) = Ok original
    /\ inspect flags (commentBase ++ tmpl) (fileNode af) (mkState h d (ncm af h) ∅)
       = Ok st'
    /\ af1 = mkFile (Decls af) (cmapComments (heap st') (cmap st'))
    /\ commentSign (heap st') (Comments af1) = Ok current
    /\ modified = negb (String.eqb current original).
Proof.
  unfold pass. intros H.
  apply bind_Ok in H as (original & Ho & H).
  apply bind_Ok in H as (st & Hi & H).
  apply bind_Ok in H as (current & Hc & [= <- <- <-]).
  exists original, current. repeat split; auto.
Qed.

Lemma fileNode_prepared af h : fileNode (prepared af h).1 = fileNode af.
Proof. unfold prepared. destruct (Comments af); reflexivity. Qed.

Lemma prepared_heap af h g cg : h !! g = Some cg -> (prepared af h).2 !! g = Some cg.
Proof.
  unfold prepared. destruct (Comments af); simpl; auto.
  apply lookup_app_l_Some.
Qed.

(** C3. Let [m] be a node of a parsed file that the visitor takes for
    unexported: a function with an unexported name, a [var], [const] or
    [type] group whose first entry is unexported, an unexported entry of a
    group, or a node that is no declaration. When [parseFile] returns, the
    [Doc] of [m] is the pointer it was (none stays none), the entry of [m]
    in the comment map is what [ast.NewCommentMap] made it, and the lines
    of its doc are what they were, provided the group is not also the doc
    of an exported declaration. Node identities are distinct, as pointers
    of a parsed tree are. *)
Theorem C3_unexported_untouched
    (flags : Flags) (ncm : File -> list ast.CommentGroup -> gmap nat (list nat))
    (af af' : File) (h : list ast.CommentGroup) (d : gmap nat nat)
    (tmpl : string) (st' : State) (modified : bool) (m : Node) :
  parseFile flags ncm (ParseOk af h d) tmpl = Ok (Done af' st' modified) ->
  NoDup (map nodeId (subnodes (fileNode af))) ->
  m ∈ subnodes (fileNode af) ->
  isTarget m = false ->
  docs st' !! nodeId m = d !! nodeId m
  /\ cmap st' !! nodeId m = ncm (prepared af h).1 (prepared af h).2 !! nodeId m
  /\ forall g cg,
       d !! nodeId m = Some g -> h !! g = Some cg ->
       (forall m', m' ∈ subnodes (fileNode af) -> isTarget m' = true ->
                   d !! nodeId m' <> Some g) ->
       heap st' !! g = Some cg.
Proof.
  intros Hp Hnd Hm Ht.
  apply parseFile_pass in Hp as (af1 & Hp & _).
  apply pass_inspect in Hp as (o & c & _ & Hi & _).
  rewrite fileNode_prepared in Hi.
  apply frame_inspect in Hi as (F1 & _ & _ & F4).
  assert (Hk : nodeId m ∉ targetIds (subnodes (fileNode af))).
  { intros Hk. apply elem_of_targetIds in Hk as (m' & Hm' & Ht' & Hid).
    assert (m' = m) by (eapply NoDup_map_eq; eauto).
    congruence. }
  destruct (F1 _ Hk) as [Hd Hc]. simpl in Hd, Hc. repeat split; auto.
  intros g cg Hg Hh Hno. apply F4; [now apply prepared_heap|].
  intros k Hkt Hdk. apply elem_of_targetIds in Hkt as (m' & Hm' & Ht' & <-).
  exact (Hno m' Hm' Ht' Hdk).
Qed.

End VisibilityGate.

(** [helper] keeps its doc [// does it] while [Run] gets a comment. *)
Lemma C3_unexported_untouched_witness :
  exists st',
    docs st' !! 1 = Some 0
    /\ cmap st' !! 1 = Some [0]
    /\ heap st' !! 0 = Some [ast.mkComment 10%Z "// does it"]
    /\ docs st' !! 2 = Some 1.
Proof.
  eexists.
  assert (P : parseFile Sample.dots Sample.docOfOne
                (ParseOk Sample.helperAndRun [[ast.mkComment 10%Z "// does it"]]
                   {[ 1 := 0 ]}) "..." = Ok (Done _ _ _))
    by (vm_compute; reflexivity).
  destruct (C3_unexported_untouched _ _ _ _ _ _ _ _ _
              (FuncDecl 1 20%Z "helper" []) P) as (H1 & H2 & H3).
  - apply (bool_decide_unpack _). vm_compute. exact I.
  - apply elem_of_cons; right. apply elem_of_cons; left. reflexivity.
  - reflexivity.
  - split; [exact H1|]. split; [exact H2|]. split; [|reflexivity].
    apply (H3 0 _ eq_refl eq_refl).
    intros m' Hm' Ht' Hd.
    repeat (apply elem_of_cons in Hm' as [->|Hm']; [discriminate|]).
    inversion Hm'.
Defined.

Section GroupsAndEntries.

Context {tables : unicode.Tables} {printer : fmt.Printer}.

(** ** Groups and entries (C9) *)

Lemma appendCommentGroup_In h l item : item ∈ appendCommentGroup h l item.
Proof.
  unfold appendCommentGroup.
  destruct (existsb _ l) eqn:He; [|set_solver].
  induction l as [|g l IH]; [discriminate|]. simpl in *.
  destruct (samePos h g item); simpl in *; [set_solver|].
  apply elem_of_cons; right. now apply IH.
Qed.

Lemma recordDoc_newDoc node pos text st :
  let g := length (heap st) in
  let st1 := recordDoc node (newDoc node pos text st) in
  docs st1 = <[node := g]> (docs st)
  /\ heap st1 = (heap st ++ [[ast.mkComment pos text]])%list
  /\ g ∈ default [] (cmap st1 !! node)
  /\ skipped st1 = skipped st.
Proof.
  unfold recordDoc, newDoc; simpl. rewrite lookup_insert_eq; simpl.
  repeat split. rewrite lookup_insert_eq; simpl. apply appendCommentGroup_In.
Qed.



End GroupsAndEntries.


Section Verdict.

Context {tables : unicode.Tables} {printer : fmt.Printer}.

(** ** The verdict (C5) *)

(** C5. When [parseFile] returns a tree, both concatenations were built,
    the one over the comment groups of the tree as the traversal begins
    (with the placeholder, in a file without comments) and the one over the
    groups the comment map projects back, and [modified] is [true] exactly
    when the two strings differ. The projected list is the [Comments] of
    the tree returned, short of the placeholder the deferred function cuts
    off. *)
Theorem C5_modified_iff_text_differs
    (flags : Flags) (ncm : File -> list ast.CommentGroup -> gmap nat (list nat))
    (af af' : File) (h : list ast.CommentGroup) (d : gmap nat nat)
    (tmpl : string) (st' : State) (modified : bool) :
  parseFile flags ncm (ParseOk af h d) tmpl = Ok (Done af' st' modified) ->
  exists original current,
    commentSign (prepared af h).2 (Comments (prepared af h).1) = Ok original
    /\ commentSign (heap st') (cmapComments (heap st') (cmap st')) = Ok current
    /\ (modified = true <-> current <> original)
    /\ (Comments af <> [] -> Comments af' = cmapComments (heap st') (cmap st'))
    /\ (Comments af = [] ->
        Comments af' = tail (cmapComments (heap st') (cmap st'))).
Proof.
  intros Hp.
  apply parseFile_pass in Hp as (af1 & Hp & Hdrop & Hkeep).
  apply pass_inspect in Hp as (o & c & Ho & _ & Haf1 & Hc & ->).
  exists o, c. subst af1. simpl in *. repeat split; auto.
  - intros Hm Heq. apply negb_true_iff, String.eqb_neq in Hm. auto.
  - intros Hne. apply negb_true_iff, String.eqb_neq. exact Hne.
  - intros Hne. now rewrite (Hkeep Hne).
  - intros He. specialize (Hdrop He). unfold dropInjected in Hdrop. simpl in Hdrop.
    destruct (cmapComments (heap st') (cmap st')); [discriminate|].
    now injection Hdrop as <-.
Qed.

End Verdict.

(** [func DoThing] documented as [// DoThing]: the text goes from
    [DoThing] to [DoThing ...]. *)
Lemma C5_modified_iff_text_differs_witness :
  exists original current : string,
    original <> current /\ (true = true <-> current <> original).
Proof.
  assert (P : parseFile Sample.dots Sample.docOfOne
                (ParseOk (mkFile [Sample.funcDoThing] [0])
                   [[ast.mkComment 10%Z "// DoThing"]] {[ 1 := 0 ]}) "..."
              = Ok (Done _ _ true))
    by (vm_compute; reflexivity).
  destruct (C5_modified_iff_text_differs _ _ _ _ _ _ _ _ _ P)
    as (o & c & Ho & Hc & Hiff & _).
  exists o, c. split; [|exact Hiff].
  vm_compute in Ho, Hc. injection Ho as <-. injection Hc as <-. discriminate.
Defined.

Section TrivialDoc.

Context {tables : unicode.Tables} {printer : fmt.Printer}.

(** ** Running the pass twice (C1) *)

(** C1 fails on the code. [func Run] documented by the blank line comment
    [// ] (the delimiter and a space): the first run rewrites the line to
    [// Run ] and reports a modification; on the tree it leaves, the doc
    now reads [Run], which the second run takes for a trivial doc and
    replaces by [// Run ...], reporting a modification again. *)
Theorem C1_second_run_modifies :
  exists af1 st1 af2 st2,
    parseFile Sample.dots Sample.docOfOne
      (ParseOk (mkFile [Sample.funcRun] [0]) [[ast.mkComment 10%Z "// "]] {[ 1 := 0 ]})
      "..." = Ok (Done af1 st1 true)
    /\ map (deref (heap st1)) (Comments af1) = [[ast.mkComment 10%Z "// Run "]]
    /\ parseFile Sample.dots Sample.docOfOne
         (ParseOk af1 (heap st1) (docs st1)) "..." = Ok (Done af2 st2 true)
    /\ map (deref (heap st2)) (Comments af2) = [[ast.mkComment 10%Z "// Run ..."]].
Proof.
  eexists _, _, _, _.
  split; [vm_compute; reflexivity|].
  split; [reflexivity|].
  split; [vm_compute; reflexivity|].
  reflexivity.
Qed.

(** ** The measure through [CommentGroup.Text] *)

Lemma HasPrefix_split (s p : string) :
  strings.HasPrefix s p = true -> s = p ++ strings.drop (String.length p) s.
Proof.
  revert s; induction p as [|c p IH]; intros s; simpl; [reflexivity|].
  destruct s as [|d s]; [discriminate|].
  destruct (Ascii.eqb c d) eqn:Hc; [|discriminate].
  apply Ascii.eqb_eq in Hc as ->. intros H.
  rewrite append_cons. f_equal. now apply IH.
Qed.

Lemma take_drop (n : nat) (s : string) : strings.take n s ++ strings.drop n s = s.
Proof.
  revert s; induction n as [|n IH]; intros s; [reflexivity|].
  destruct s as [|c s]; [reflexivity|]. simpl. rewrite append_cons. now rewrite IH.
Qed.

Lemma HasSuffix_split (s e : string) :
  strings.HasSuffix s e = true ->
  s = strings.take (String.length s - String.length e) s ++ e.
Proof.
  unfold strings.HasSuffix. intros H. apply andb_true_iff in H as [_ H].
  apply String.eqb_eq in H.
  pose proof (take_drop (String.length s - String.length e) s) as T.
  rewrite H in T. now symmetry.
Qed.

Lemma length_append (a b : string) :
  String.length (a ++ b) = String.length a + String.length b.
Proof.
  induction a as [|c a IH]; [reflexivity|].
  rewrite append_cons. simpl. now rewrite IH.
Qed.

Lemma drop_app_le (k : nat) (a b : string) :
  k <= String.length a -> strings.drop k (a ++ b) = strings.drop k a ++ b.
Proof.
  revert a; induction k as [|k IH]; intros a Hk; [reflexivity|].
  destruct a as [|c a]; simpl in Hk; [lia|].
  rewrite append_cons. simpl. apply IH. lia.
Qed.

Lemma drop_drop (j k : nat) (s : string) :
  strings.drop j (strings.drop k s) = strings.drop (k + j) s.
Proof.
  revert s; induction k as [|k IH]; intros s; [reflexivity|].
  destruct s as [|c s]; simpl; [now destruct j|]. apply IH.
Qed.

Lemma length_drop (k : nat) (s : string) :
  String.length (strings.drop k s) = String.length s - k.
Proof.
  revert s; induction k as [|k IH]; intros s; simpl; [lia|].
  destruct s as [|c s]; simpl; [reflexivity|]. apply IH.
Qed.

Lemma HasPrefix_length (s e : string) :
  strings.HasPrefix s e = true -> String.length e <= String.length s.
Proof.
  revert s; induction e as [|c e IH]; intros s; simpl; [lia|].
  destruct s as [|d s]; [discriminate|].
  destruct (Ascii.eqb c d); [|discriminate]. intros H. apply IH in H. simpl. lia.
Qed.

Lemma HasPrefix_app_l (a b e : string) :
  strings.HasPrefix a e = true -> strings.HasPrefix (a ++ b) e = true.
Proof.
  revert a; induction e as [|c e IH]; intros a; simpl; [reflexivity|].
  destruct a as [|d a]; [discriminate|]. rewrite append_cons.
  destruct (Ascii.eqb c d); [apply IH | discriminate].
Qed.

(** A prefix of [a ++ b] is a prefix of [a] or runs over into [b]. *)
Lemma HasPrefix_app_inv (a b e : string) :
  strings.HasPrefix (a ++ b) e = true ->
  strings.HasPrefix a e = true
  \/ exists c e2, e = a ++ String c e2 /\ strings.HasPrefix b (String c e2) = true.
Proof.
  revert a; induction e as [|c e IH]; intros a; [now left|].
  destruct a as [|d a].
  - rewrite append_nil. intros H. right. exists c, e. now rewrite append_nil.
  - rewrite append_cons. simpl.
    destruct (Ascii.eqb c d) eqn:Hc; [|discriminate].
    apply Ascii.eqb_eq in Hc as ->. intros H.
    destruct (IH _ H) as [Hl|(c2 & e2 & -> & Hb)]; [now left|].
    right. exists c2, e2. now rewrite append_cons.
Qed.

(** *** The encodings of white space *)

Lemma allCont_app (a b : string) : allCont (a ++ b) = allCont a && allCont b.
Proof.
  induction a as [|c a IH]; [reflexivity|].
  rewrite append_cons. simpl. now rewrite IH, andb_assoc.
Qed.

(** An encoding begins with a byte that is no continuation byte and goes
    on with continuation bytes, and it weighs nothing. *)
Lemma spaces_shape (e : string) :
  In e strings.spaces ->
  startsClean e = true /\ allCont (strings.drop 1 e) = true /\ nonSpace e = 0
  /\ e <> "".
Proof.
  assert (H : forallb (fun e => startsClean e && allCont (strings.drop 1 e)
                                && Nat.eqb (nonSpace e) 0
                                && negb (String.eqb e ""))
                strings.spaces = true) by (vm_compute; reflexivity).
  intros He. pose proof (proj1 (forallb_forall _ _) H e He) as Hs.
  apply andb_true_iff in Hs as [Hs H4]. apply andb_true_iff in Hs as [Hs H3].
  apply andb_true_iff in Hs as [H1 H2].
  repeat split; auto.
  - now apply Nat.eqb_eq.
  - apply negb_true_iff, String.eqb_neq in H4. exact H4.
Qed.

Lemma spaceWidth_Some (s : string) (w : nat) :
  strings.spaceWidth s = S w ->
  exists e, In e strings.spaces /\ strings.HasPrefix s e = true
            /\ String.length e = S w.
Proof.
  unfold strings.spaceWidth.
  destruct (find (strings.HasPrefix s) strings.spaces) as [e|] eqn:Hf; [|discriminate].
  apply find_some in Hf as [He Hp]. intros Hw. now exists e.
Qed.

Lemma find_ext_in {A} (f g : A -> bool) (l : list A) :
  (forall x, In x l -> f x = g x) -> find f l = find g l.
Proof.
  induction l as [|x l IH]; intros H; [reflexivity|]. simpl.
  rewrite (H x) by now left.
  destruct (g x); [reflexivity|]. apply IH. intros y Hy. apply H. now right.
Qed.

Lemma spaceWidth_ext (s t : string) :
  (forall e, In e strings.spaces -> strings.HasPrefix s e = strings.HasPrefix t e) ->
  strings.spaceWidth s = strings.spaceWidth t.
Proof.
  intros H. unfold strings.spaceWidth. now rewrite (find_ext_in _ _ _ H).
Qed.

(** *** The measure and concatenation *)

Lemma weigh_drop (k : nat) (s : string) : weigh k s = nonSpace (strings.drop k s).
Proof.
  revert s; induction k as [|k IH]; intros s; [reflexivity|].
  destruct s as [|c s]; [reflexivity|]. simpl. apply IH.
Qed.

Lemma nonSpace_cons (c : ascii) (s : string) :
  nonSpace (String c s)
  = match strings.spaceWidth (String c s) with
    | O => S (nonSpace s)
    | S w => nonSpace (strings.drop w s)
    end.
Proof.
  unfold nonSpace at 1. cbn [weigh].
  destruct (strings.spaceWidth (String c s)); [reflexivity | apply weigh_drop].
Qed.

Lemma nonSpace_app_gen (n : nat) :
  forall a b,
    String.length a <= n ->
    (forall k e, k < String.length a -> In e strings.spaces ->
       strings.HasPrefix (strings.drop k a ++ b) e = true ->
       strings.HasPrefix (strings.drop k a) e = true) ->
    nonSpace (a ++ b) = nonSpace a + nonSpace b.
Proof.
  induction n as [|n IH]; intros a b Hn Hk.
  - destruct a; simpl in Hn; [reflexivity | lia].
  - destruct a as [|c a]; [reflexivity|]. simpl in Hn.
    rewrite append_cons, !nonSpace_cons.
    assert (Hw : strings.spaceWidth (String c (a ++ b))
                 = strings.spaceWidth (String c a)).
    { apply spaceWidth_ext. intros e He. rewrite <- append_cons.
      destruct (strings.HasPrefix (String c a) e) eqn:Hp.
      - now apply HasPrefix_app_l.
      - destruct (strings.HasPrefix (String c a ++ b) e) eqn:Hq; [|reflexivity].
        rewrite <- Hp. symmetry. apply (Hk 0 e); [simpl; lia | exact He | exact Hq]. }
    rewrite Hw.
    destruct (strings.spaceWidth (String c a)) as [|w] eqn:Hs.
    + rewrite (IH a b); [lia | lia |].
      intros k e Hlt He. apply (Hk (S k) e); [simpl; lia | exact He].
    + apply spaceWidth_Some in Hs as (e & He & Hp & Hl).
      apply HasPrefix_length in Hp. simpl in Hp.
      rewrite drop_app_le by lia.
      apply IH.
      * rewrite length_drop. lia.
      * intros k e' Hlt He'. rewrite drop_drop.
        apply (Hk (S (w + k)) e'); [|exact He'].
        rewrite length_drop in Hlt. simpl. lia.
Qed.

(** The measure is additive where the second string does not begin in the
    middle of a rune. *)
Lemma nonSpace_app (a b : string) :
  startsClean b = true -> nonSpace (a ++ b) = nonSpace a + nonSpace b.
Proof.
  intros Hb. apply (nonSpace_app_gen (String.length a)); [lia|].
  intros k e Hk He Hp.
  destruct (HasPrefix_app_inv _ _ _ Hp) as [Hl|(c & e2 & -> & Hc)]; [exact Hl|].
  exfalso.
  destruct (strings.drop k a) as [|d a'] eqn:Hd.
  { pose proof (length_drop k a) as Hlen. rewrite Hd in Hlen. simpl in Hlen. lia. }
  destruct (spaces_shape _ He) as (_ & Hcont & _).
  rewrite append_cons in Hcont. simpl in Hcont.
  rewrite allCont_app in Hcont. apply andb_true_iff in Hcont as [_ Hcont].
  simpl in Hcont. apply andb_true_iff in Hcont as [Hcont _].
  destruct b as [|c' b]; [discriminate|]. simpl in Hc, Hb.
  destruct (Ascii.eqb c c') eqn:Hcc; [|discriminate].
  apply Ascii.eqb_eq in Hcc as ->. now rewrite Hcont in Hb.
Qed.

(** A byte of ASCII white space weighs nothing. *)
Lemma nonSpace_blank (c : ascii) (s : string) :
  In (String c "") strings.spaces -> nonSpace (String c s) = nonSpace s.
Proof.
  intros Hc. rewrite nonSpace_cons.
  assert (Hw : strings.spaceWidth (String c s) = 1).
  { simpl in Hc.
    repeat (destruct Hc as [Hc|Hc];
            [try discriminate; injection Hc as <-; reflexivity|]).
    destruct Hc. }
  now rewrite Hw.
Qed.

Lemma nonSpace_space (s : string) : nonSpace (String " "%char s) = nonSpace s.
Proof. apply nonSpace_blank. vm_compute. tauto. Qed.

Lemma nonSpace_newline (s : string) : nonSpace (String "010"%char s) = nonSpace s.
Proof. apply nonSpace_blank. vm_compute. tauto. Qed.

(** Two strings with a space between them weigh what they weigh apart. *)
Lemma nonSpace_spaced (a b : string) :
  nonSpace (a ++ " " ++ b) = nonSpace a + nonSpace b.
Proof.
  rewrite nonSpace_app by reflexivity.
  change (" " ++ b) with (String " "%char b). now rewrite nonSpace_space.
Qed.

(** *** The measure and trimming *)

Lemma nonSpace_drop_space (s : string) :
  nonSpace (strings.drop (strings.spaceWidth s) s) = nonSpace s.
Proof.
  destruct s as [|c s]; [reflexivity|].
  destruct (strings.spaceWidth (String c s)) as [|w] eqn:Hw; [reflexivity|].
  rewrite (nonSpace_cons c s), Hw. reflexivity.
Qed.

Lemma nonSpace_take_space (s : string) :
  nonSpace (strings.take (String.length s - strings.spaceWidthLast s) s) = nonSpace s.
Proof.
  unfold strings.spaceWidthLast.
  destruct (find (strings.HasSuffix s) strings.spaces) as [e|] eqn:Hf.
  - apply find_some in Hf as [He Hp].
    destruct (spaces_shape _ He) as (Hc & _ & H0 & _).
    pose proof (f_equal nonSpace (HasSuffix_split _ _ Hp)) as T.
    rewrite (nonSpace_app _ _ Hc), H0 in T. lia.
  - rewrite Nat.sub_0_r.
    pose proof (take_drop (String.length s) s) as T.
    assert (Hd : forall t, strings.drop (String.length t) t = "")
      by (induction t; simpl; auto).
    rewrite Hd, append_empty_r in T. now rewrite T.
Qed.

Lemma nonSpace_TrimLeft (s : string) : nonSpace (strings.TrimLeft s) = nonSpace s.
Proof.
  unfold strings.TrimLeft. generalize (String.length s) as n.
  intros n; revert s; induction n as [|n IH]; intros s; [reflexivity|].
  cbn [strings.TrimLeftN].
  destruct (strings.spaceWidth s) as [|w] eqn:Hw; [reflexivity|].
  rewrite IH, <- Hw. apply nonSpace_drop_space.
Qed.

Lemma nonSpace_TrimRight (s : string) : nonSpace (strings.TrimRight s) = nonSpace s.
Proof.
  unfold strings.TrimRight. generalize (String.length s) as n.
  intros n; revert s; induction n as [|n IH]; intros s; [reflexivity|].
  cbn [strings.TrimRightN].
  destruct (strings.spaceWidthLast s) as [|w] eqn:Hw; [reflexivity|].
  rewrite IH, <- Hw. apply nonSpace_take_space.
Qed.

(** Trimming keeps the measure. *)
Lemma nonSpace_TrimSpace (s : string) : nonSpace (strings.TrimSpace s) = nonSpace s.
Proof. unfold strings.TrimSpace. now rewrite nonSpace_TrimRight, nonSpace_TrimLeft. Qed.

(** *** The measure through the lines of a comment *)

Lemma isWhitespace_blank (c : ascii) :
  ast.isWhitespace c = true -> In (String c "") strings.spaces.
Proof.
  unfold ast.isWhitespace. cbv zeta. intros H.
  assert (Hc : c = ascii_of_nat (nat_of_ascii c)) by (symmetry; apply ascii_nat_embedding).
  repeat (apply orb_true_iff in H as [H|H]);
    apply Nat.eqb_eq in H; rewrite H in Hc; rewrite Hc; vm_compute; tauto.
Qed.

Lemma isWhitespace_clean (c : ascii) : ast.isWhitespace c = true -> isCont c = false.
Proof.
  unfold ast.isWhitespace, isCont. cbv zeta. intros H.
  repeat (apply orb_true_iff in H as [H|H]);
    apply Nat.eqb_eq in H; rewrite H; reflexivity.
Qed.

Lemma nonSpace_blanks (s : string) : blanks s = true -> nonSpace s = 0.
Proof.
  induction s as [|c s IH]; [reflexivity|]. simpl. intros H.
  apply andb_true_iff in H as [Hc Hs].
  rewrite (nonSpace_blank _ _ (isWhitespace_blank _ Hc)). auto.
Qed.

Lemma strip_split (s : string) :
  exists tl, blanks tl = true /\ s = ast.stripTrailingWhitespace s ++ tl.
Proof.
  induction s as [|c s (tl & Hb & Hs)]; [now exists ""|]. simpl.
  destruct (ast.stripTrailingWhitespace s) as [|d r] eqn:Hr.
  - rewrite append_nil in Hs. subst tl.
    destruct (ast.isWhitespace c) eqn:Hc.
    + exists (String c s). split; [simpl; now rewrite Hc | reflexivity].
    + exists s. split; [exact Hb | reflexivity].
  - exists tl. split; [exact Hb|]. rewrite append_cons. now f_equal.
Qed.

Lemma nonSpace_strip (s : string) :
  nonSpace (ast.stripTrailingWhitespace s) = nonSpace s.
Proof.
  destruct (strip_split s) as (tl & Hb & Hs).
  rewrite Hs at 2. rewrite nonSpace_app, (nonSpace_blanks _ Hb); [lia|].
  destruct tl as [|c tl]; [reflexivity|]. simpl in *.
  apply andb_true_iff in Hb as [Hc _]. now rewrite (isWhitespace_clean _ Hc).
Qed.

Lemma SplitLines_cons (s : string) : exists l ls, strings.SplitLines s = l :: ls.
Proof.
  induction s as [|c s (l & ls & IH)]; simpl; [eauto|].
  destruct (Ascii.eqb c "010"); [eauto|]. rewrite IH. eauto.
Qed.

Lemma nonSpace_JoinLines (ls : list string) :
  nonSpace (strings.JoinLines ls) = sum_list_with nonSpace ls.
Proof.
  induction ls as [|l ls IH]; [reflexivity|].
  destruct ls as [|l' ls]; [simpl; lia|].
  change (strings.JoinLines (l :: l' :: ls))
    with (l ++ String "010"%char (strings.JoinLines (l' :: ls))).
  rewrite nonSpace_app by reflexivity.
  rewrite nonSpace_newline, IH. simpl. lia.
Qed.

Lemma JoinLines_SplitLines (s : string) :
  strings.JoinLines (strings.SplitLines s) = s.
Proof.
  induction s as [|c s IH]; [reflexivity|]. simpl.
  destruct (SplitLines_cons s) as (l & ls & Hl). rewrite Hl in *.
  destruct (Ascii.eqb c "010") eqn:Hc.
  - apply Ascii.eqb_eq in Hc as ->.
    change (strings.JoinLines ("" :: l :: ls))
      with ("" ++ String "010"%char (strings.JoinLines (l :: ls))).
    now rewrite IH.
  - destruct ls as [|l' ls].
    + simpl in *. now rewrite IH.
    + change (strings.JoinLines (String c l :: l' :: ls))
        with (String c l ++ String "010"%char (strings.JoinLines (l' :: ls))).
      change (strings.JoinLines (l :: l' :: ls))
        with (l ++ String "010"%char (strings.JoinLines (l' :: ls))) in IH.
      rewrite append_cons. now rewrite IH.
Qed.

Lemma sum_SplitLines (s : string) :
  sum_list_with nonSpace (strings.SplitLines s) = nonSpace s.
Proof. now rewrite <- nonSpace_JoinLines, JoinLines_SplitLines. Qed.

Lemma sum_map_strip (ls : list string) :
  sum_list_with nonSpace (map ast.stripTrailingWhitespace ls)
  = sum_list_with nonSpace ls.
Proof.
  induction ls as [|l ls IH]; simpl; [reflexivity|].
  now rewrite nonSpace_strip, IH.
Qed.

Lemma sum_stripped_lines (s : string) :
  sum_list_with nonSpace (map ast.stripTrailingWhitespace (strings.SplitLines s))
  = nonSpace s.
Proof. now rewrite sum_map_strip, sum_SplitLines. Qed.

Lemma sum_squeeze (acc ls : list string) :
  sum_list_with nonSpace (ast.squeeze acc ls)
  = sum_list_with nonSpace acc + sum_list_with nonSpace ls.
Proof.
  revert acc; induction ls as [|l ls IH]; intros acc; simpl.
  - rewrite <- (sum_list_with_reverse nonSpace acc).
    unfold reverse. rewrite rev_append_rev, app_nil_r. lia.
  - destruct l as [|c l].
    + destruct acc as [|a acc]; [rewrite IH; simpl; lia|].
      destruct a; rewrite IH; simpl; lia.
    + rewrite IH. simpl. lia.
Qed.

Lemma allLines_weight (g : ast.CommentGroup) (ls : list string) :
  ast.allLines g = Ok ls -> sum_list_with nonSpace ls = groupWeight g.
Proof.
  revert ls; induction g as [|c g IH]; intros ls; simpl.
  - now intros [= <-].
  - intros H. apply bind_Ok in H as (l1 & H1 & H).
    apply bind_Ok in H as (l2 & H2 & [= <-]).
    rewrite sum_list_with_app, (IH _ H2).
    unfold linesWeight. now rewrite H1.
Qed.

(** The text of a group has the weight of the group. *)
Lemma cgText_weight (g : ast.CommentGroup) (t : string) :
  ast.cgText g = Ok t -> nonSpace t = groupWeight g.
Proof.
  unfold ast.cgText. intros H. apply bind_Ok in H as (ls & Hl & [= <-]).
  rewrite nonSpace_JoinLines, <- (allLines_weight _ _ Hl).
  assert (Hs : sum_list_with nonSpace (ast.squeeze [] ls) = sum_list_with nonSpace ls)
    by (rewrite sum_squeeze; reflexivity).
  destruct (last (ast.squeeze [] ls)) as [l|]; [|exact Hs].
  destruct (ast.isEmpty l); [exact Hs|].
  rewrite sum_list_with_app. simpl. lia.
Qed.

Lemma JoinLines_snoc (ys : list string) :
  ys <> [] ->
  strings.JoinLines (ys ++ [""]) = strings.JoinLines ys ++ String "010"%char "".
Proof.
  induction ys as [|y ys IH]; [congruence|]. intros _.
  destruct ys as [|y' ys]; [reflexivity|].
  change (strings.JoinLines ((y :: y' :: ys) ++ [""]))
    with (y ++ String "010"%char (strings.JoinLines ((y' :: ys) ++ [""]))).
  rewrite IH by discriminate.
  change (strings.JoinLines (y :: y' :: ys))
    with (y ++ String "010"%char (strings.JoinLines (y' :: ys))).
  now rewrite append_assoc', append_cons.
Qed.

(** The text of a group is empty or ends with a line feed. *)
Lemma cgText_shape (g : ast.CommentGroup) (t : string) :
  ast.cgText g = Ok t -> t = "" \/ exists t', t = t' ++ String "010"%char "".
Proof.
  unfold ast.cgText. intros H. apply bind_Ok in H as (ls & _ & [= <-]).
  set (kept := ast.squeeze [] ls).
  assert (Hsnoc : forall ys, strings.JoinLines (ys ++ [""]) = ""
                    \/ exists t', strings.JoinLines (ys ++ [""])
                                  = t' ++ String "010"%char "").
  { intros [|y ys]; [now left|]. right. eexists. now apply JoinLines_snoc. }
  destruct (last kept) as [l|] eqn:Hl.
  - destruct (ast.isEmpty l) eqn:He; [|apply Hsnoc].
    destruct l; [|discriminate].
    apply last_Some in Hl as (ys & ->). apply Hsnoc.
  - apply last_None in Hl as ->. now left.
Qed.

Lemma nonSpace_app_text (t r : string) :
  t = "" \/ (exists t', t = t' ++ String "010"%char "") ->
  nonSpace (t ++ r) = nonSpace t + nonSpace r.
Proof.
  intros [->|(t' & ->)]; [reflexivity|].
  rewrite append_assoc', append_cons, append_nil.
  rewrite !nonSpace_app by reflexivity.
  rewrite !nonSpace_newline. change (nonSpace "") with 0. lia.
Qed.

Lemma commentSign_weight (h : list ast.CommentGroup) (l : list nat) (s : string) :
  commentSign h l = Ok s -> nonSpace s = sum_list_with (weight h) l.
Proof.
  revert s; induction l as [|g l IH]; intros s; simpl.
  - now intros [= <-].
  - intros H. apply bind_Ok in H as (t & Ht & H).
    apply bind_Ok in H as (r & Hr & [= <-]).
    rewrite (nonSpace_app_text _ _ (cgText_shape _ _ Ht)), (IH _ Hr).
    unfold weight at 1. now rewrite (cgText_weight _ _ Ht).
Qed.

(** A line that starts with the delimiter and a space weighs what follows. *)
Lemma linesWeight_spaced (x : string) : linesWeight ("// " ++ x) = nonSpace x.
Proof.
  unfold linesWeight.
  change (ast.commentLines ("// " ++ x))
    with (Ok (A := list string)
            (map ast.stripTrailingWhitespace (strings.SplitLines x))).
  apply sum_stripped_lines.
Qed.

Lemma isDirective_slash (y : string) : ast.isDirective (String "/"%char y) = false.
Proof.
  unfold ast.isDirective. simpl.
  destruct (strings.IndexColon y) as [i|]; [|reflexivity].
  simpl. destruct (Nat.leb _ _); reflexivity.
Qed.

(** A line of the indented template keeps its second slash. *)
Lemma linesWeight_indented (x : string) :
  linesWeight (String "009"%char ("// " ++ x)) = 1 + nonSpace x.
Proof.
  unfold linesWeight.
  change (ast.commentLines (String "009"%char ("// " ++ x)))
    with (if ast.isDirective (String "/"%char (String " "%char x)) then Ok []
          else Ok (A := list string)
                 (map ast.stripTrailingWhitespace
                    (strings.SplitLines (String "/"%char (String " "%char x))))).
  rewrite isDirective_slash, sum_stripped_lines. reflexivity.
Qed.

(** ** The groups of a comment map *)

Lemma concat_snd_perm {A B} (l l' : list (A * list B)) :
  l ≡ₚ l' -> concat (map snd l) ≡ₚ concat (map snd l').
Proof.
  induction 1 as [|x l l' _ IH|x y l|l1 l2 l3 _ IH1 _ IH2]; simpl.
  - reflexivity.
  - now rewrite IH.
  - rewrite !app_assoc. apply Permutation_app_tail, Permutation_app_comm.
  - now rewrite IH1.
Qed.

Lemma groupsOf_insert_None (m : gmap nat (list nat)) k l' :
  m !! k = None -> groupsOf (<[k := l']> m) ≡ₚ (l' ++ groupsOf m)%list.
Proof.
  intros H. unfold groupsOf.
  rewrite (concat_snd_perm _ _ (map_to_list_insert m k l' H)). reflexivity.
Qed.

Lemma groupsOf_delete (m : gmap nat (list nat)) k l :
  m !! k = Some l -> groupsOf m ≡ₚ (l ++ groupsOf (delete k m))%list.
Proof.
  intros H. unfold groupsOf.
  rewrite <- (concat_snd_perm _ _ (map_to_list_delete m k l H)). reflexivity.
Qed.

Lemma groupsOf_insert_Some (m : gmap nat (list nat)) k l l' :
  m !! k = Some l ->
  groupsOf (<[k := l']> m) ≡ₚ (l' ++ groupsOf (delete k m))%list.
Proof.
  intros H. rewrite <- insert_delete_eq.
  apply groupsOf_insert_None, lookup_delete_eq.
Qed.

Lemma elem_of_groupsOf (m : gmap nat (list nat)) g :
  g ∈ groupsOf m <-> exists k l, m !! k = Some l /\ g ∈ l.
Proof.
  unfold groupsOf. rewrite list_elem_of_In, in_concat. split.
  - intros (l & Hl & Hg). apply in_map_iff in Hl as ([k l0] & <- & Hin).
    exists k, l0. split; [|now apply list_elem_of_In].
    now apply elem_of_map_to_list, list_elem_of_In.
  - intros (k & l & Hk & Hg). exists l. split; [|now apply list_elem_of_In].
    apply in_map_iff. exists (k, l). split; [reflexivity|].
    now apply list_elem_of_In, elem_of_map_to_list.
Qed.

Lemma sum_list_with_cons {A} (f : A -> nat) (a : A) (l : list A) :
  sum_list_with f (a :: l) = f a + sum_list_with f l.
Proof. reflexivity. Qed.

Lemma sum_list_with_le {A} (f f' : A -> nat) (l : list A) :
  (forall x, x ∈ l -> f x <= f' x) -> sum_list_with f l <= sum_list_with f' l.
Proof.
  induction l as [|a l IH]; intros H; simpl; [lia|].
  assert (f a <= f' a) by (apply H; constructor).
  assert (sum_list_with f l <= sum_list_with f' l)
    by (apply IH; intros x Hx; apply H; now constructor).
  lia.
Qed.

(** Writing an entry: the total moves by the difference of the entries,
    on top of what the groups gained in the heap. *)
Lemma total_update (h h' : list ast.CommentGroup) (m : gmap nat (list nat)) k l' :
  (forall g, g ∈ groupsOf m -> weight h g <= weight h' g) ->
  total h m + sum_list_with (weight h') l'
  <= total h' (<[k := l']> m) + sum_list_with (weight h') (default [] (m !! k)).
Proof.
  intros Hmono. unfold total.
  assert (Hle := sum_list_with_le _ _ _ Hmono).
  destruct (m !! k) as [l|] eqn:Hk; simpl.
  - rewrite (groupsOf_insert_Some _ _ _ _ Hk).
    rewrite (groupsOf_delete _ _ _ Hk) in Hle.
    rewrite (groupsOf_delete _ _ _ Hk).
    rewrite !sum_list_with_app in *. lia.
  - rewrite (groupsOf_insert_None _ _ _ Hk), sum_list_with_app. lia.
Qed.

(** ** Writing a group into an entry *)

Lemma samePos_true h a b : samePos h a b = true <-> posOf h a = posOf h b.
Proof. unfold samePos. apply bool_decide_eq_true. Qed.

Lemma samePos_false h a b : samePos h a b = false <-> posOf h a <> posOf h b.
Proof. unfold samePos. apply bool_decide_eq_false. Qed.

(** No group of the entry at the position of the item: it is added. *)
Lemma appendCommentGroup_new h l item :
  (forall e, e ∈ l -> posOf h e <> posOf h item) ->
  appendCommentGroup h l item = (l ++ [item])%list.
Proof.
  intros H. unfold appendCommentGroup.
  replace (existsb (fun g => samePos h g item) l) with false; [reflexivity|].
  symmetry. induction l as [|e l IH]; [reflexivity|]. simpl.
  rewrite (proj2 (samePos_false h e item)) by (apply H; constructor).
  apply IH. intros e' He'. apply H. now constructor.
Qed.

(** A group of the entry at the position of the item, alone there: the
    item takes its place. *)
Lemma appendCommentGroup_replace h l1 g l2 item :
  NoDup (map (posOf h) (l1 ++ g :: l2)) ->
  posOf h item = posOf h g ->
  appendCommentGroup h (l1 ++ g :: l2) item = (l1 ++ item :: l2)%list.
Proof.
  intros Hnd Hpos. unfold appendCommentGroup.
  assert (Hl1 : forall e, e ∈ l1 -> samePos h e item = false).
  { intros e He. apply samePos_false. rewrite Hpos. intros Heq.
    rewrite map_app in Hnd. simpl in Hnd.
    apply NoDup_app in Hnd as (_ & Hdis & _).
    apply (Hdis (posOf h e)).
    - apply list_elem_of_In, in_map. now apply list_elem_of_In.
    - rewrite Heq. constructor. }
  assert (Hg : samePos h g item = true) by (apply samePos_true; auto).
  replace (existsb (fun e => samePos h e item) (l1 ++ g :: l2)) with true.
  - clear Hnd. induction l1 as [|e l1 IH]; simpl; [now rewrite Hg|].
    rewrite (Hl1 e) by constructor. f_equal.
    apply IH. intros e' He'. apply Hl1. now constructor.
  - symmetry. apply existsb_exists. exists g. split; [|exact Hg].
    apply in_or_app. right. now left.
Qed.

(** The item itself in the entry: nothing moves. *)
Lemma appendCommentGroup_self h l g :
  g ∈ l -> NoDup (map (posOf h) l) -> appendCommentGroup h l g = l.
Proof.
  intros Hin Hnd. apply list_elem_of_split in Hin as (l1 & l2 & ->).
  now apply appendCommentGroup_replace.
Qed.

Lemma posOf_app h x e : e < length h -> posOf (h ++ [x]) e = posOf h e.
Proof.
  intros He. unfold posOf, deref. now rewrite lookup_app_l.
Qed.

Lemma weight_app h x e : e < length h -> weight (h ++ [x]) e = weight h e.
Proof.
  intros He. unfold weight, deref. now rewrite lookup_app_l.
Qed.

Lemma posOf_alloc h p text : posOf (h ++ [[ast.mkComment p text]]) (length h) = Some p.
Proof.
  unfold posOf, deref. rewrite lookup_app_r by lia. now rewrite Nat.sub_diag.
Qed.

Lemma weight_alloc h c : weight (h ++ [c]) (length h) = groupWeight c.
Proof.
  unfold weight, deref. rewrite lookup_app_r by lia. now rewrite Nat.sub_diag.
Qed.

(** The invariant of the comment map after one entry is written. *)
Lemma mapInv_step ns st h' d' l' k sk' gk :
  mapInv ns st ->
  length (heap st) <= length h' ->
  (forall e, e < length (heap st) -> posOf h' e = posOf (heap st) e) ->
  d' !! k = Some gk -> gk ∈ l' ->
  (forall k', k' <> k -> d' !! k' = docs st !! k') ->
  (forall e, e ∈ l' -> e < length h') ->
  NoDup (map (posOf h') l') ->
  mapInv ns (mkState h' d' (<[k := l']> (cmap st)) sk').
Proof.
  intros (I1 & I2 & I3 & I4) Hlen Hpos Hd Hgk Hother Hall Hnd.
  assert (Hmap : forall l, (forall e, e ∈ l -> e < length (heap st)) ->
                   map (posOf h') l = map (posOf (heap st)) l).
  { intros l Hl. apply map_ext_in. intros e He. apply Hpos, Hl.
    now apply list_elem_of_In. }
  unfold mapInv; simpl. repeat split.
  - intros k' l g. destruct (decide (k = k')) as [<-|Hne].
    + rewrite lookup_insert_eq. intros [= <-]. apply Hall.
    + rewrite lookup_insert_ne by exact Hne. intros Hk Hg.
      specialize (I1 _ _ _ Hk Hg). lia.
  - intros k' l. destruct (decide (k = k')) as [<-|Hne].
    + rewrite lookup_insert_eq. now intros [= <-].
    + rewrite lookup_insert_ne by exact Hne. intros Hk.
      rewrite Hmap; [now apply (I2 k')|]. intros e He. exact (I1 _ _ _ Hk He).
  - intros k' g. destruct (decide (k = k')) as [<-|Hne].
    + rewrite Hd, lookup_insert_eq. intros [= <-]. eauto.
    + rewrite lookup_insert_ne by exact Hne. rewrite Hother by auto. apply I3.
  - intros n l g Hn Ht Hnone. destruct (decide (k = nodeId n)) as [Heq|Hne].
    + rewrite <- Heq, Hd in Hnone. discriminate.
    + rewrite lookup_insert_ne by exact Hne. rewrite Hother in Hnone by auto.
      intros Hk Hg. rewrite Hpos by exact (I1 _ _ _ Hk Hg).
      exact (I4 n l g Hn Ht Hnone Hk Hg).
Qed.

(** ** One declaration documented *)

Lemma deref_insert h g c e :
  g < length h -> deref (<[g := c]> h) e = if decide (e = g) then c else deref h e.
Proof.
  intros Hg. unfold deref. destruct (decide (e = g)) as [->|Hne].
  - now rewrite list_lookup_insert_eq.
  - now rewrite list_lookup_insert_ne by auto.
Qed.

Lemma deref_cons_lt h g c0 rest : deref h g = c0 :: rest -> g < length h.
Proof.
  unfold deref. destruct (h !! g) eqn:Hg; [|discriminate].
  intros _. now apply lookup_lt_Some in Hg.
Qed.

(** [modifyComment] on a line-comment block: the block keeps its position
    and does not lose weight; nothing else moves. *)
Lemma deref_cons_lookup h g c0 rest :
  deref h g = c0 :: rest -> h !! g = Some (c0 :: rest).
Proof. unfold deref. destruct (h !! g); simpl; [now intros -> | discriminate]. Qed.

Lemma modifyComment_heap flags g name st st1 :
  modifyComment flags g name st = Ok st1 ->
  isLineComment (deref (heap st) g) = true ->
  docs st1 = docs st /\ cmap st1 = cmap st /\ skipped st1 = skipped st
  /\ length (heap st1) = length (heap st)
  /\ (forall e, posOf (heap st1) e = posOf (heap st) e)
  /\ (forall e, weight (heap st) e <= weight (heap st1) e).
Proof.
  destruct (deref (heap st) g) as [|c0 rest] eqn:Hg.
  { unfold modifyComment. rewrite Hg. discriminate. }
  assert (Hlt := deref_cons_lt _ _ _ _ Hg).
  assert (Hh := deref_cons_lookup _ _ _ _ Hg).
  intros H Hline.
  change (strings.HasPrefix (ast.Text c0) "//" = true) in Hline.
  assert (Hstep : forall (c1 : ast.Comment) (tl : list ast.Comment),
    ast.Slash c1 = ast.Slash c0 ->
    groupWeight (c0 :: rest) <= groupWeight (c1 :: tl) ->
    let s1 := setHeap st (<[g := c1 :: tl]> (heap st)) in
    docs s1 = docs st /\ cmap s1 = cmap st /\ skipped s1 = skipped st
    /\ length (heap s1) = length (heap st)
    /\ (forall e, posOf (heap s1) e = posOf (heap st) e)
    /\ (forall e, weight (heap st) e <= weight (heap s1) e)).
  { intros c1 tl Hs Hw s1. unfold s1. simpl.
    repeat split; [apply length_insert| |].
    - intros e. unfold posOf. rewrite deref_insert by exact Hlt.
      destruct (decide (e = g)) as [->|]; [|reflexivity].
      now rewrite Hg, Hs.
    - intros e. unfold weight. rewrite deref_insert by exact Hlt.
      destruct (decide (e = g)) as [->|]; [|lia].
      now rewrite Hg. }
  destruct (strings.HasPrefix (ast.Text c0) "// ") eqn:Hb.
  - assert (Ht := HasPrefix_split _ _ Hb).
    set (r := strings.drop (String.length "// ") (ast.Text c0)) in Ht.
    clearbody r.
    rewrite (modifyComment_rewrite flags _ _ _ _ _ _ Hh Ht) in H.
    injection H as <-. apply Hstep; [reflexivity|].
    unfold groupWeight.
    rewrite !sum_list_with_cons.
    cbn [ast.Text]. rewrite Ht at 1.
    rewrite !linesWeight_spaced, nonSpace_spaced. lia.
  - rewrite (modifyComment_prepend flags _ _ _ _ _ Hh Hline Hb) in H.
    injection H as <-. apply Hstep; [reflexivity|].
    unfold groupWeight. rewrite !sum_list_with_cons. lia.
Qed.

Lemma recordDoc_newDoc_state k p text st :
  recordDoc k (newDoc k p text st)
  = mkState (heap st ++ [[ast.mkComment p text]])
      (<[k := length (heap st)]> (docs st))
      (<[k := appendCommentGroup (heap st ++ [[ast.mkComment p text]])
                (default [] (cmap st !! k)) (length (heap st))]> (cmap st))
      (skipped st).
Proof. unfold recordDoc, newDoc; simpl. now rewrite lookup_insert_eq. Qed.

Lemma recordDoc_state k g st :
  docs st !! k = Some g ->
  recordDoc k st
  = mkState (heap st) (docs st)
      (<[k := appendCommentGroup (heap st) (default [] (cmap st !! k)) g]> (cmap st))
      (skipped st).
Proof. intros H. unfold recordDoc. now rewrite H. Qed.

Lemma groupWeight_single p text : groupWeight [ast.mkComment p text] = linesWeight text.
Proof. unfold groupWeight. simpl. lia. Qed.

Lemma cgPos_posOf h g p : ast.cgPos (deref h g) = Ok p -> posOf h g = Some p.
Proof.
  unfold posOf. destruct (deref h g) as [|c0 rest]; simpl; [discriminate|].
  now intros [= <-].
Qed.

(** A fresh group written into the entry of its node. [l'] is the entry
    it leaves. *)
Lemma alloc_step ns st k p text l' :
  mapInv ns st ->
  let h' := (heap st ++ [[ast.mkComment p text]])%list in
  appendCommentGroup h' (default [] (cmap st !! k)) (length (heap st)) = l' ->
  length (heap st) ∈ l' ->
  (forall e, e ∈ l' -> e < length h') ->
  NoDup (map (posOf h') l') ->
  let st2 := recordDoc k (newDoc k p text st) in
  mapInv ns st2
  /\ total (heap st) (cmap st) + sum_list_with (weight h') l'
     <= total (heap st2) (cmap st2)
        + sum_list_with (weight h') (default [] (cmap st !! k)).
Proof.
  intros Hinv h' Happ Hin Hall Hnd st2. unfold st2.
  rewrite recordDoc_newDoc_state. fold h'. rewrite Happ. split.
  - eapply (mapInv_step ns st h' _ l' k _ (length (heap st)) Hinv); auto.
    + unfold h'. rewrite length_app. simpl. lia.
    + intros e He. now apply posOf_app.
    + apply lookup_insert_eq.
    + intros k' Hne. now apply lookup_insert_ne.
  - simpl. apply total_update.
    intros g Hg. apply elem_of_groupsOf in Hg as (k' & l & Hk & Hgl).
    destruct Hinv as (I1 & _). unfold h'.
    rewrite weight_app by exact (I1 _ _ _ Hk Hgl). lia.
Qed.

(** The doc kept or modified in place, then written into its entry. *)
Lemma inplace_step ns st st1 k g :
  mapInv ns st ->
  docs st !! k = Some g ->
  docs st1 = docs st -> cmap st1 = cmap st ->
  length (heap st1) = length (heap st) ->
  (forall e, posOf (heap st1) e = posOf (heap st) e) ->
  (forall e, weight (heap st) e <= weight (heap st1) e) ->
  mapInv ns (recordDoc k st1)
  /\ total (heap st) (cmap st)
     <= total (heap (recordDoc k st1)) (cmap (recordDoc k st1)).
Proof.
  intros Hinv Hd Hd1 Hc1 Hlen Hpos Hw.
  destruct Hinv as (I1 & I2 & I3 & I4).
  destruct (I3 _ _ Hd) as (l & Hk & Hg).
  assert (Hmap : map (posOf (heap st1)) l = map (posOf (heap st)) l)
    by (apply map_ext; auto).
  rewrite (recordDoc_state k g) by (now rewrite Hd1).
  rewrite Hc1, Hk. simpl.
  rewrite appendCommentGroup_self; [|exact Hg|rewrite Hmap; eauto].
  split.
  - rewrite Hd1.
    apply (mapInv_step ns st (heap st1) (docs st) l k (skipped st1) g); auto.
    + unfold mapInv; auto.
    + lia.
    + intros e He. rewrite Hlen. eauto.
    + rewrite Hmap. eauto.
  - pose proof (total_update (heap st) (heap st1) (cmap st) k l (fun e _ => Hw e)) as Ht.
    rewrite Hk in Ht. simpl in Ht. lia.
Qed.

(** One declaration documented: the invariant of the comment map is
    kept and the total weight of its groups does not go down; it goes up
    by the weight of the new line when there was no doc, and by what the
    new line has over the name when the doc was trivial. *)
Lemma document_step flags ns n name arg tmpl st st1 :
  mapInv ns st ->
  n ∈ ns ->
  isTarget n = true ->
  nonSpace name <= linesWeight (fmt.Sprintf tmpl [arg]) ->
  addComment flags (nodeId n) (declPos n) name arg tmpl st = Ok st1 ->
  let st2 := recordDoc (nodeId n) st1 in
  mapInv ns st2
  /\ total (heap st) (cmap st) <= total (heap st2) (cmap st2)
  /\ (docs st !! nodeId n = None ->
      total (heap st) (cmap st) + linesWeight (fmt.Sprintf tmpl [arg])
      <= total (heap st2) (cmap st2))
  /\ (forall g t, docs st !! nodeId n = Some g ->
        ast.cgText (deref (heap st) g) = Ok t -> strings.TrimSpace t = name ->
        total (heap st) (cmap st) + linesWeight (fmt.Sprintf tmpl [arg])
        <= total (heap st2) (cmap st2) + nonSpace name).
Proof.
  intros Hinv Hn Htgt Hshape H st2. unfold st2. clear st2.
  set (k := nodeId n) in *. set (text := fmt.Sprintf tmpl [arg]) in *.
  pose proof Hinv as (I1 & I2 & I3 & I4).
  unfold addComment in H. destruct (docs st !! k) as [g|] eqn:Hd.
  - apply bind_Ok in H as (t & Ht & H).
    destruct (I3 _ _ Hd) as (l & Hk & Hg).
    destruct (String.eqb (strings.TrimSpace t) name) eqn:He.
    + (* trivial doc *)
      apply bind_Ok in H as (p & Hp & [= <-]).
      apply cgPos_posOf in Hp.
      apply list_elem_of_split in Hg as (l1 & l2 & ->).
      set (h' := (heap st ++ [[ast.mkComment p text]])%list).
      assert (Hall : forall e, e ∈ (l1 ++ g :: l2)%list -> e < length (heap st))
        by (intros e He'; exact (I1 _ _ _ Hk He')).
      assert (Hmap : map (posOf h') (l1 ++ g :: l2)%list
                     = map (posOf (heap st)) (l1 ++ g :: l2)%list).
      { apply map_ext_in. intros e He'. apply posOf_app, Hall.
        now apply list_elem_of_In. }
      assert (Hpg' : posOf h' (length (heap st)) = posOf h' g).
      { unfold h'. rewrite posOf_alloc, posOf_app; [now rewrite Hp|].
        apply Hall. set_solver. }
      assert (Happ : appendCommentGroup h' (default [] (cmap st !! k)) (length (heap st))
                     = (l1 ++ length (heap st) :: l2)%list).
      { rewrite Hk. simpl. apply appendCommentGroup_replace; [|exact Hpg'].
        rewrite Hmap. eauto. }
      destruct (alloc_step ns st k p text _ Hinv Happ) as [Hinv2 Htot].
      * set_solver.
      * intros e He'. unfold h'. rewrite length_app. simpl.
        apply elem_of_app in He' as [He'|He'].
        -- assert (e < length (heap st)) by (apply Hall; set_solver). lia.
        -- apply elem_of_cons in He' as [->|He']; [lia|].
           assert (e < length (heap st)) by (apply Hall; set_solver). lia.
      * fold h'. rewrite map_app, map_cons, Hpg'.
        rewrite <- map_cons, <- map_app, Hmap. eauto.
      * fold h' in Htot. rewrite Hk in Htot. simpl in Htot.
        rewrite !sum_list_with_app, !sum_list_with_cons in Htot.
        assert (Hwg : weight h' g = nonSpace name).
        { unfold h'. rewrite weight_app by (apply Hall; set_solver).
          unfold weight. rewrite <- (cgText_weight _ _ Ht).
          apply String.eqb_eq in He. now rewrite <- He, nonSpace_TrimSpace. }
        assert (Hwn : weight h' (length (heap st)) = linesWeight text).
        { unfold h'. now rewrite weight_alloc, groupWeight_single. }
        rewrite Hwg, Hwn in Htot. fold text. fold text in Hshape.
        split; [exact Hinv2|]. split; [lia|]. split; [discriminate|].
        intros g0 t0 _ _ _. lia.
    + (* the doc stays or is modified in place *)
      assert (Hstep : mapInv ns (recordDoc k st1)
                      /\ total (heap st) (cmap st)
                         <= total (heap (recordDoc k st1)) (cmap (recordDoc k st1))).
      { destruct (isLineComment (deref (heap st) g)
                  && negb (hasCommentPrefix (deref (heap st) g) name)) eqn:Hb.
        - apply andb_true_iff in Hb as [Hline _].
          destruct (modifyComment_heap _ _ _ _ _ H Hline)
            as (M1 & M2 & _ & M4 & M5 & M6).
          eapply inplace_step; eauto.
        - injection H as <-. eapply inplace_step; eauto. }
      destruct Hstep as [Hinv2 Htot].
      split; [exact Hinv2|]. split; [exact Htot|]. split; [discriminate|].
      intros g0 t0 [= <-] Ht0 Htriv.
      rewrite Ht in Ht0. injection Ht0 as <-.
      apply String.eqb_neq in He. contradiction.
  - (* no doc *)
    injection H as <-.
    set (p := (declPos n - 1)%Z).
    set (h' := (heap st ++ [[ast.mkComment p text]])%list).
    set (l := default [] (cmap st !! k)).
    assert (Hall : forall e, e ∈ l -> e < length (heap st)).
    { unfold l. destruct (cmap st !! k) as [l0|] eqn:Hk; simpl.
      - intros e He. exact (I1 _ _ _ Hk He).
      - intros e He. inversion He. }
    assert (Hfree : forall e, e ∈ l -> posOf h' e <> posOf h' (length (heap st))).
    { unfold h'. intros e He. rewrite posOf_alloc, posOf_app by auto.
      unfold l in He. destruct (cmap st !! k) as [l0|] eqn:Hk; simpl in He.
      - exact (I4 n l0 e Hn Htgt Hd Hk He).
      - inversion He. }
    assert (Happ : appendCommentGroup h' l (length (heap st))
                   = (l ++ [length (heap st)])%list)
      by (now apply appendCommentGroup_new).
    assert (Hmapl : map (posOf h') l = map (posOf (heap st)) l).
    { apply map_ext_in. intros e He. apply posOf_app, Hall.
      now apply list_elem_of_In. }
    assert (Hndl : NoDup (map (posOf (heap st)) l)).
    { unfold l. destruct (cmap st !! k) as [l0|] eqn:Hk; simpl; [eauto|].
      constructor. }
    assert (Hnd' : NoDup (map (posOf h') (l ++ [length (heap st)])%list)).
    { rewrite map_app. apply NoDup_app. split; [|split].
      - now rewrite Hmapl.
      - intros x Hx Hx'.
        change (x ∈ [posOf h' (length (heap st))]) in Hx'.
        apply list_elem_of_singleton in Hx' as ->.
        apply list_elem_of_In, in_map_iff in Hx as (e & Heq & He).
        apply (Hfree e); [now apply list_elem_of_In | exact Heq].
      - apply NoDup_singleton. }
    assert (Hall' : forall e, e ∈ (l ++ [length (heap st)])%list -> e < length h').
    { intros e He. unfold h'. rewrite length_app. simpl.
      apply elem_of_app in He as [He|He].
      * specialize (Hall _ He). lia.
      * apply list_elem_of_singleton in He as ->. lia. }
    assert (Hin' : length (heap st) ∈ (l ++ [length (heap st)])%list) by set_solver.
    destruct (alloc_step ns st k p text _ Hinv Happ Hin' Hall' Hnd') as [Hinv2 Htot].
    fold h' l in Htot.
    rewrite sum_list_with_app in Htot. simpl in Htot.
    assert (Hwn : weight h' (length (heap st)) = linesWeight text).
    { unfold h'. now rewrite weight_alloc, groupWeight_single. }
    rewrite Hwn in Htot. fold text. fold text in Hshape.
    split; [exact Hinv2|]. split; [lia|]. split; [intros _; lia|].
    intros g t [=].
Qed.

(** ** The weight of a synthesized line *)

Lemma linesWeight_template (suffix : string) (arg : fmt.Operand) :
  linesWeight (fmt.Sprintf (commentBase ++ suffix) [arg])
  = nonSpace (fmt.text arg) + nonSpace (fmt.run suffix [arg] 1).
Proof.
  now rewrite Sprintf_template, linesWeight_spaced, nonSpace_spaced.
Qed.

Lemma linesWeight_indented_template (suffix : string) (arg : fmt.Operand) :
  linesWeight
    (fmt.Sprintf (strings.Replace1 (commentBase ++ suffix) commentBase commentIndentedBase)
       [arg])
  = 1 + nonSpace (fmt.text arg) + nonSpace (fmt.run suffix [arg] 1).
Proof.
  rewrite Replace1_base, Sprintf_indented, linesWeight_indented, nonSpace_spaced.
  lia.
Qed.

(** A string that begins with white space is no exported name. *)
Lemma space_not_exported (e rest : string) :
  In e strings.spaces -> ast.IsExported (e ++ rest) = false.
Proof.
  intros He. vm_compute in He.
  repeat (destruct He as [<-|He];
          [vm_compute; try reflexivity; apply unicode.Upper_space; reflexivity|]).
  destruct He.
Qed.

(** An exported name weighs something: it begins with a letter. *)
Lemma nonSpace_exported (name : string) : ast.IsExported name = true -> 1 <= nonSpace name.
Proof.
  destruct name as [|c s].
  - unfold ast.IsExported, unicode.IsUpper. simpl.
    rewrite unicode.Upper_error. discriminate.
  - intros Hex. rewrite nonSpace_cons.
    destruct (strings.spaceWidth (String c s)) as [|w] eqn:Hw; [lia|].
    apply spaceWidth_Some in Hw as (e & He & Hp & _).
    rewrite (HasPrefix_split _ _ Hp), (space_not_exported _ _ He) in Hex.
    discriminate.
Qed.

(** ** The comment map through the walk *)

Section WalkInvariant.

Variable flags : Flags.
Variable ns : list Node.
Variable arg : string.

Let ct := commentBase ++ arg.

Local Notation walkOk := (walkOk ns).

Lemma walkOk_refl st : mapInv ns st -> walkOk st st.
Proof. unfold walkOk; auto. Qed.

Lemma walkOk_trans st0 st1 st2 : walkOk st0 st1 -> walkOk st1 st2 -> walkOk st0 st2.
Proof. unfold walkOk. intros [_ H1] [H2 H3]. split; [exact H2 | lia]. Qed.

Lemma document_walkOk n name x st st1 :
  mapInv ns st -> n ∈ ns -> isTarget n = true ->
  fmt.text x = name ->
  addComment flags (nodeId n) (declPos n) name x ct st = Ok st1 ->
  walkOk st (recordDoc (nodeId n) st1).
Proof.
  intros Hinv Hn Htgt Harg H.
  destruct (document_step flags ns n name x ct st st1 Hinv Hn Htgt) as (H1 & H2 & _).
  - unfold ct. rewrite linesWeight_template, Harg. lia.
  - exact H.
  - split; auto.
Qed.

Lemma parenEntries_walkOk specs :
  forall st st',
    mapInv ns st -> (forall s, s ∈ specs -> s ∈ ns) ->
    parenEntries flags specs ct st = Ok st' -> walkOk st st'.
Proof.
  induction specs as [|s specs IH]; intros st st' Hinv Hsub; simpl.
  - intros [= <-]. now apply walkOk_refl.
  - destruct s as [| | |vs pos Names kids| |]; try discriminate.
    intros H. apply bind_Ok in H as (n0 & Hn & H).
    assert (Hsub' : forall s, s ∈ specs -> s ∈ ns)
      by (intros s Hs; apply Hsub; now constructor).
    destruct Names as [|n0' Names]; [discriminate|]. injection Hn as ->.
    destruct (ast.IsExported n0) eqn:Hex; simpl in H; [|now apply IH].
    apply bind_Ok in H as (st1 & Ha & H).
    unfold addParenValueSpecComment in Ha.
    assert (Hin : ValueSpec vs pos (n0 :: Names) kids ∈ ns) by (apply Hsub; constructor).
    destruct (document_step flags ns (ValueSpec vs pos (n0 :: Names) kids) n0
                (fmt.Str n0)
                (strings.Replace1 ct commentBase commentIndentedBase) st st1
                Hinv Hin Hex) as (H1 & H2 & _).
    + unfold ct. rewrite linesWeight_indented_template. simpl. lia.
    + exact Ha.
    + eapply walkOk_trans; [split; eauto|]. now apply IH.
Qed.

Lemma visit_walkOk n st st' :
  mapInv ns st -> (forall s, s ∈ n :: childrenOf n -> s ∈ ns) ->
  visit flags ct n st = Ok st' -> walkOk st st'.
Proof.
  intros Hinv Hsub.
  assert (Hn : n ∈ ns) by (apply Hsub; constructor).
  assert (Hkeep : forall s, Ok st = Ok s -> walkOk st s)
    by (intros s [= <-]; now apply walkOk_refl).
  destruct n as [id pos Name kids|id Decl|id TokPos Tok Lparen Rparen Specs| | |];
    simpl; auto.
  - destruct (bool_decide _ || negb _) eqn:Hb; [auto|].
    apply orb_false_iff in Hb as [_ Hb]. apply negb_false_iff in Hb.
    intros H. apply bind_Ok in H as (st1 & Ha & [= <-]).
    exact (document_walkOk (FuncDecl id pos Name kids) Name (fmt.Ident id Name) st st1
             Hinv Hn Hb eq_refl Ha).
  - intros [= <-]. split; [|simpl; lia].
    destruct Hinv as (I1 & I2 & I3 & I4). unfold mapInv; simpl. auto.
  - assert (Hparen : parenEntries flags Specs ct st = Ok st' -> walkOk st st').
    { apply parenEntries_walkOk; [exact Hinv|].
      intros s Hs. apply Hsub. now constructor. }
    assert (Hgroup : forall name x st1,
      isTarget (GenDecl id TokPos Tok Lparen Rparen Specs) = true ->
      fmt.text x = name ->
      addComment flags id TokPos name x ct st = Ok st1 -> walkOk st (recordDoc id st1)).
    { intros name x st1 Htgt Harg Ha.
      exact (document_walkOk (GenDecl id TokPos Tok Lparen Rparen Specs) name x st st1
               Hinv Hn Htgt Harg Ha). }
    destruct Tok; auto.
    + destruct (negb _ && parenComment flags); [exact Hparen|].
      destruct Specs as [|s Specs]; [auto|]. destruct s; try discriminate.
      intros H. apply bind_Ok in H as (n0 & Hn0 & H).
      destruct Names as [|n0' Names]; [discriminate|]. injection Hn0 as ->.
      destruct (bool_decide _ || negb _) eqn:Hb; [auto|].
      apply orb_false_iff in Hb as [_ Hb]. apply negb_false_iff in Hb.
      apply bind_Ok in H as (st1 & Ha & [= <-]). eapply Hgroup; [exact Hb | reflexivity | exact Ha].
    + destruct Specs as [|s Specs]; [discriminate|]. destruct s; try discriminate.
      destruct (bool_decide _ || negb _) eqn:Hb; [auto|].
      apply orb_false_iff in Hb as [_ Hb]. apply negb_false_iff in Hb.
      intros H. apply bind_Ok in H as (st1 & Ha & [= <-]).
      eapply Hgroup; [exact Hb | reflexivity | exact Ha].
    + destruct (negb _ && parenComment flags); [exact Hparen|].
      destruct Specs as [|s Specs]; [auto|]. destruct s; try discriminate.
      intros H. apply bind_Ok in H as (n0 & Hn0 & H).
      destruct Names as [|n0' Names]; [discriminate|]. injection Hn0 as ->.
      destruct (bool_decide _ || negb _) eqn:Hb; [auto|].
      apply orb_false_iff in Hb as [_ Hb]. apply negb_false_iff in Hb.
      apply bind_Ok in H as (st1 & Ha & [= <-]). eapply Hgroup; [exact Hb | reflexivity | exact Ha].
Qed.

Lemma inspectList_walkOk nodes :
  Forall (fun n => forall st st', mapInv ns st ->
                     (forall s, s ∈ subnodes n -> s ∈ ns) ->
                     inspect flags ct n st = Ok st' -> walkOk st st') nodes ->
  forall st st', mapInv ns st ->
    (forall s, s ∈ flat_map subnodes nodes -> s ∈ ns) ->
    inspectList flags ct nodes st = Ok st' -> walkOk st st'.
Proof.
  induction 1 as [|n nodes Hn _ IH]; intros st st' Hinv Hsub; simpl.
  - intros [= <-]. now apply walkOk_refl.
  - intros H. apply bind_Ok in H as (s1 & H1 & H2).
    simpl in Hsub.
    assert (W1 : walkOk st s1).
    { apply Hn; auto. intros s Hs. apply Hsub. set_solver. }
    eapply walkOk_trans; [exact W1|].
    apply IH; [exact (proj1 W1)| |exact H2].
    intros s Hs. apply Hsub. set_solver.
Qed.

Lemma inspect_walkOk n :
  forall st st', mapInv ns st ->
    (forall s, s ∈ subnodes n -> s ∈ ns) ->
    inspect flags ct n st = Ok st' -> walkOk st st'.
Proof.
  induction n as [n IH] using Node_children_ind. intros st st' Hinv Hsub.
  rewrite inspect_unfold. intros H. apply bind_Ok in H as (st1 & Hv & Hl).
  rewrite subnodes_unfold in Hsub.
  assert (W1 : walkOk st st1).
  { apply (visit_walkOk n); auto.
    intros s Hs. apply Hsub.
    apply elem_of_cons in Hs as [->|Hs]; [constructor|].
    apply elem_of_cons; right. apply elem_of_flat_map_subnodes.
    exists s. split; [exact Hs | apply subnodes_self]. }
  eapply walkOk_trans; [exact W1|].
  apply (inspectList_walkOk _ IH); [exact (proj1 W1)| |exact Hl].
  intros s Hs. apply Hsub. now constructor.
Qed.

End WalkInvariant.

(** ** The walk along the declarations of a file *)

Lemma inspectList_app flags ct l1 l2 st st' :
  inspectList flags ct (l1 ++ l2) st = Ok st' ->
  exists s1, inspectList flags ct l1 st = Ok s1 /\ inspectList flags ct l2 s1 = Ok st'.
Proof.
  revert st; induction l1 as [|n l1 IH]; intros st; simpl.
  - intros H. exists st. auto.
  - intros H. apply bind_Ok in H as (s0 & H0 & H).
    destruct (IH _ H) as (s1 & H1 & H2).
    exists s1. rewrite H0. simpl. auto.
Qed.

Lemma frame_inspectList_all flags ct l st st' :
  inspectList flags ct l st = Ok st' -> frame (targetIds (flat_map subnodes l)) st st'.
Proof.
  apply frame_inspectList. apply Forall_forall. intros n _. apply frame_inspect.
Qed.

Lemma inspectList_walkOk_all flags ns arg l st st' :
  mapInv ns st ->
  (forall s, s ∈ flat_map subnodes l -> s ∈ ns) ->
  inspectList flags (commentBase ++ arg) l st = Ok st' -> walkOk ns st st'.
Proof.
  apply inspectList_walkOk. apply Forall_forall. intros n _. apply inspect_walkOk.
Qed.

Lemma addComment_skipped flags node pos name arg tmpl st st1 :
  addComment flags node pos name arg tmpl st = Ok st1 -> skipped st1 = skipped st.
Proof.
  unfold addComment. destruct (docs st !! node) as [g|].
  - intros H. apply bind_Ok in H as (t & _ & H).
    destruct (String.eqb _ name).
    + apply bind_Ok in H as (p & _ & [= <-]). reflexivity.
    + destruct (_ && _); [|now injection H as <-].
      unfold modifyComment in H.
      destruct (deref (heap st) g); [discriminate|].
      destruct (_ && _); now injection H as <-.
  - now intros [= <-].
Qed.

Lemma recordDoc_skipped node st : skipped (recordDoc node st) = skipped st.
Proof. unfold recordDoc. now destruct (docs st !! node). Qed.

Lemma parenEntries_skipped flags ct specs :
  forall st st', parenEntries flags specs ct st = Ok st' -> skipped st' = skipped st.
Proof.
  induction specs as [|s specs IH]; intros st st'; simpl.
  - now intros [= <-].
  - destruct s; try discriminate.
    intros H. apply bind_Ok in H as (n0 & _ & H).
    destruct (ast.IsExported n0); simpl in H; [|now apply IH].
    apply bind_Ok in H as (st1 & Ha & H).
    apply addComment_skipped in Ha. apply IH in H.
    now rewrite H, recordDoc_skipped.
Qed.

Lemma visit_skipped flags ct n st st' :
  visit flags ct n st = Ok st' ->
  forall k, k ∈ skipped st' -> k ∈ skipped st \/ k ∈ map nodeId (childrenOf n).
Proof.
  assert (Hdoc : forall node pos name arg st1 k,
    addComment flags node pos name arg ct st = Ok st1 ->
    k ∈ skipped (recordDoc node st1) -> k ∈ skipped st \/ k ∈ map nodeId (childrenOf n)).
  { intros node pos name arg st1 k Ha Hk. left.
    now rewrite recordDoc_skipped, (addComment_skipped _ _ _ _ _ _ _ _ Ha) in Hk. }
  assert (Hparen : forall specs k,
    parenEntries flags specs ct st = Ok st' ->
    k ∈ skipped st' -> k ∈ skipped st \/ k ∈ map nodeId (childrenOf n)).
  { intros specs k Hp Hk. left. now rewrite (parenEntries_skipped _ _ _ _ _ Hp) in Hk. }
  destruct n as [id pos Name kids|id Decl|id TokPos Tok Lparen Rparen Specs| | |];
    simpl; try (intros [= <-]; auto).
  - destruct (bool_decide _ || negb _); [intros [= <-]; auto|].
    intros H k. apply bind_Ok in H as (st1 & Ha & [= <-]). eapply Hdoc; exact Ha.
  - intros k Hk. simpl in Hk. apply elem_of_union in Hk as [Hk|Hk]; [|auto].
    right. apply elem_of_singleton in Hk as ->. constructor.
  - destruct Tok; try (intros [= <-]; auto).
    + destruct (negb _ && parenComment flags); [intros H k; eapply Hparen; exact H|].
      destruct Specs as [|s Specs]; [intros [= <-]; auto|].
      destruct s; try discriminate.
      intros H k. apply bind_Ok in H as (n0 & _ & H).
      destruct (bool_decide _ || negb _); [injection H as <-; auto|].
      apply bind_Ok in H as (st1 & Ha & [= <-]). eapply Hdoc; exact Ha.
    + destruct Specs as [|s Specs]; [discriminate|]. destruct s; try discriminate.
      destruct (bool_decide _ || negb _); [intros [= <-]; auto|].
      intros H k. apply bind_Ok in H as (st1 & Ha & [= <-]). eapply Hdoc; exact Ha.
    + destruct (negb _ && parenComment flags); [intros H k; eapply Hparen; exact H|].
      destruct Specs as [|s Specs]; [intros [= <-]; auto|].
      destruct s; try discriminate.
      intros H k. apply bind_Ok in H as (n0 & _ & H).
      destruct (bool_decide _ || negb _); [injection H as <-; auto|].
      apply bind_Ok in H as (st1 & Ha & [= <-]). eapply Hdoc; exact Ha.
Qed.

Lemma inspectList_skipped flags ct l :
  Forall (fun n => forall st st', inspect flags ct n st = Ok st' ->
            forall k, k ∈ skipped st' ->
              k ∈ skipped st \/ k ∈ map nodeId (subnodes n)) l ->
  forall st st', inspectList flags ct l st = Ok st' ->
    forall k, k ∈ skipped st' ->
      k ∈ skipped st \/ k ∈ map nodeId (flat_map subnodes l).
Proof.
  induction 1 as [|n l Hn _ IH]; intros st st'; simpl.
  - intros [= <-]. auto.
  - intros H k Hk. apply bind_Ok in H as (s1 & H1 & H2).
    rewrite map_app.
    destruct (IH _ _ H2 k Hk) as [Hs|Hs]; [|right; set_solver].
    destruct (Hn _ _ H1 k Hs) as [Hs'|Hs']; [auto | right; set_solver].
Qed.

(** The walk marks as skipped only nodes below the one it starts from. *)
Lemma inspect_skipped flags ct n :
  forall st st', inspect flags ct n st = Ok st' ->
    forall k, k ∈ skipped st' -> k ∈ skipped st \/ k ∈ map nodeId (subnodes n).
Proof.
  induction n as [n IH] using Node_children_ind. intros st st'.
  rewrite inspect_unfold, subnodes_unfold. intros H k Hk.
  apply bind_Ok in H as (st1 & Hv & Hl).
  destruct (inspectList_skipped _ _ _ IH _ _ Hl k Hk) as [Hs|Hs].
  - destruct (visit_skipped _ _ _ _ _ Hv k Hs) as [Hs'|Hs']; [auto|].
    right. simpl. apply elem_of_cons; right.
    apply list_elem_of_In, in_map_iff in Hs' as (c & <- & Hc).
    apply list_elem_of_In, in_map. apply in_flat_map. exists c.
    split; [exact Hc|]. apply list_elem_of_In, subnodes_self.
  - right. simpl. now apply elem_of_cons; right.
Qed.

Lemma inspectList_skipped_all flags ct l st st' :
  inspectList flags ct l st = Ok st' ->
  forall k, k ∈ skipped st' -> k ∈ skipped st \/ k ∈ map nodeId (flat_map subnodes l).
Proof.
  apply inspectList_skipped. apply Forall_forall. intros n _. apply inspect_skipped.
Qed.

(** ** Sorting the groups *)

Lemma insertByPos_perm h g l : insertByPos h g l ≡ₚ g :: l.
Proof.
  induction l as [|x l IH]; simpl; [reflexivity|].
  destruct (posZ h g <? posZ h x)%Z; [reflexivity|].
  rewrite IH. apply Permutation_swap.
Qed.

Lemma sortComments_perm h l : sortComments h l ≡ₚ l.
Proof.
  unfold sortComments. induction l as [|g l IH]; simpl; [reflexivity|].
  now rewrite insertByPos_perm, IH.
Qed.

(** The weight of the text projected back is the total of the map. *)
Lemma current_weight h m s :
  commentSign h (cmapComments h m) = Ok s -> nonSpace s = total h m.
Proof.
  intros H. rewrite (commentSign_weight _ _ _ H). unfold total, cmapComments.
  now rewrite sortComments_perm.
Qed.

(** ** An exported function without doc, or with a trivial one (C8) *)

Lemma targetIds_ids k l : k ∈ targetIds l -> k ∈ map nodeId l.
Proof.
  intros H. apply elem_of_targetIds in H as (m & Hm & _ & <-).
  apply list_elem_of_In, in_map. now apply list_elem_of_In.
Qed.

(** The pass of [parseFile] cut at a top-level function: the walk up to
    the function, the function documented, the walk after it. *)
Lemma pass_at_function flags ncm af af' h d tmpl st' modified pre post id pos name kids :
  parseFile flags ncm (ParseOk af h d) tmpl = Ok (Done af' st' modified) ->
  Decls af = (pre ++ FuncDecl id pos name kids :: post)%list ->
  ast.IsExported name = true ->
  NoDup (map nodeId (subnodes (fileNode af))) ->
  let ns := subnodes (fileNode af) in
  let st0 := mkState (prepared af h).2 d
               (ncm (prepared af h).1 (prepared af h).2) ∅ in
  mapInv ns st0 ->
  Comments (prepared af h).1 ≡ₚ groupsOf (cmap st0) ->
  exists sa st1 original current,
    walkOk ns st0 sa
    /\ frame (targetIds (flat_map subnodes pre)) st0 sa
    /\ id ∉ targetIds (flat_map subnodes pre)
    /\ addComment flags id pos name (fmt.Ident id name) (commentBase ++ tmpl) sa = Ok st1
    /\ walkOk ns (recordDoc id st1) st'
    /\ frame (targetIds (flat_map subnodes kids) ++ targetIds (flat_map subnodes post))
         (recordDoc id st1) st'
    /\ id ∉ (targetIds (flat_map subnodes kids) ++ targetIds (flat_map subnodes post))%list
    /\ FuncDecl id pos name kids ∈ ns
    /\ (forall s, s ∈ flat_map subnodes pre -> s ∈ ns)
    /\ nonSpace original = total (heap st0) (cmap st0)
    /\ nonSpace current = total (heap st') (cmap st')
    /\ modified = negb (String.eqb current original).
Proof.
  intros Hp HD Hex Hnd ns st0 Hinv Hperm.
  apply parseFile_pass in Hp as (af1 & Hp & _).
  apply pass_inspect in Hp as (o & c & Ho & Hi & Haf1 & Hc & Hm).
  rewrite fileNode_prepared in Hi. fold st0 in Hi.
  set (F := FuncDecl id pos name kids) in *.
  assert (Hns : subnodes (fileNode af) = fileNode af :: (flat_map subnodes pre
                  ++ (F :: flat_map subnodes kids) ++ flat_map subnodes post)%list).
  { rewrite subnodes_unfold. unfold fileNode at 2.
    change (childrenOf (Other 0 (Decls af))) with (Decls af).
    rewrite HD, flat_map_app.
    change (flat_map subnodes (F :: post))
      with (subnodes F ++ flat_map subnodes post)%list.
    rewrite (subnodes_unfold F). reflexivity. }
  rewrite Hns in Hnd.
  simpl in Hnd. rewrite !map_app in Hnd. simpl in Hnd.
  apply NoDup_cons in Hnd as [_ Hnd].
  apply NoDup_app in Hnd as (_ & Hdis1 & Hnd).
  apply NoDup_cons in Hnd as [Hnot Hnd].
  assert (Hpre : id ∉ map nodeId (flat_map subnodes pre)).
  { intros Hin. apply (Hdis1 id Hin). constructor. }
  assert (Hrest : id ∉ (map nodeId (flat_map subnodes kids)
                        ++ map nodeId (flat_map subnodes post))%list).
  { now rewrite <- map_app. }
  rewrite inspect_unfold in Hi.
  change (inspectList flags (commentBase ++ tmpl) (Decls af) st0 = Ok st') in Hi.
  rewrite HD in Hi.
  apply inspectList_app in Hi as (sa & Ha & Hi).
  change (bind (inspect flags (commentBase ++ tmpl) F sa)
            (fun s1 => inspectList flags (commentBase ++ tmpl) post s1) = Ok st') in Hi.
  apply bind_Ok in Hi as (sb & HF & Hpost).
  rewrite inspect_unfold in HF. apply bind_Ok in HF as (sb1 & Hv & Hkids).
  change (childrenOf F) with kids in Hkids.
  assert (Wpre : walkOk ns st0 sa).
  { eapply inspectList_walkOk_all; [exact Hinv| |exact Ha].
    intros s Hs. unfold ns. rewrite Hns. set_solver. }
  assert (Hska : id ∉ skipped sa).
  { intros Hk.
    destruct (inspectList_skipped_all _ _ _ _ _ Ha id Hk) as [Hk'|Hk'].
    - simpl in Hk'. set_solver.
    - exact (Hpre Hk'). }
  change (visit flags (commentBase ++ tmpl) F sa)
    with (if bool_decide (id ∈ skipped sa) || negb (ast.IsExported name) then Ok sa
          else bind (addFuncDeclComment flags id pos name (commentBase ++ tmpl) sa)
                 (fun st1 => Ok (recordDoc id st1))) in Hv.
  rewrite (bool_decide_eq_false_2 _ Hska), Hex in Hv.
  change (bind (addFuncDeclComment flags id pos name (commentBase ++ tmpl) sa)
            (fun st1 => Ok (recordDoc id st1)) = Ok sb1) in Hv.
  apply bind_Ok in Hv as (st1 & Hadd & [= <-]).
  unfold addFuncDeclComment in Hadd.
  assert (HFin : F ∈ ns) by (unfold ns; rewrite Hns; set_solver).
  assert (WF : walkOk ns sa (recordDoc id st1)).
  { exact (document_walkOk flags ns tmpl F name (fmt.Ident id name) sa st1
             (proj1 Wpre) HFin Hex eq_refl Hadd). }
  assert (Wkids : walkOk ns (recordDoc id st1) sb).
  { eapply inspectList_walkOk_all; [exact (proj1 WF)| |exact Hkids].
    intros s Hs. unfold ns. rewrite Hns. set_solver. }
  assert (Wpost : walkOk ns sb st').
  { eapply inspectList_walkOk_all; [exact (proj1 Wkids)| |exact Hpost].
    intros s Hs. unfold ns. rewrite Hns. set_solver. }
  exists sa, st1, o, c.
  split; [exact Wpre|].
  split; [exact (frame_inspectList_all _ _ _ _ _ Ha)|].
  split; [intros Hk; apply Hpre; now apply targetIds_ids|].
  split; [exact Hadd|].
  split; [exact (walkOk_trans ns _ _ _ Wkids Wpost)|].
  split; [exact (frame_trans _ _ _ _ _ (frame_inspectList_all _ _ _ _ _ Hkids)
                   (frame_inspectList_all _ _ _ _ _ Hpost))|].
  split.
  { intros Hk. apply Hrest. apply elem_of_app in Hk as [Hk|Hk];
      apply targetIds_ids in Hk; set_solver. }
  split; [exact HFin|].
  split; [intros s Hs; unfold ns; rewrite Hns; set_solver|].
  split.
  { rewrite (commentSign_weight _ _ _ Ho). unfold total.
    now rewrite Hperm. }
  split; [|exact Hm].
  apply current_weight. now rewrite Haf1 in Hc.
Qed.

(** The doc a function has just received is still its doc, unchanged, when
    the walk is over. *)
Lemma doc_persists ns id p text sa st' T :
  mapInv ns sa ->
  frame T (recordDoc id (newDoc id p text sa)) st' ->
  id ∉ T ->
  exists g,
    docs st' !! id = Some g
    /\ heap st' !! g = Some [ast.mkComment p text]
    /\ g ∈ default [] (cmap st' !! id).
Proof.
  intros (I1 & _ & I3 & _) (F1 & _ & _ & F4) Hid.
  destruct (recordDoc_newDoc id p text sa) as (Rd & Rh & Rc & _).
  destruct (F1 _ Hid) as [Fd Fc].
  exists (length (heap sa)). split; [|split].
  - rewrite Fd, Rd. apply lookup_insert_eq.
  - apply F4.
    + rewrite Rh, lookup_app_r by lia. now rewrite Nat.sub_diag.
    + intros k Hk. rewrite Rd.
      destruct (decide (id = k)) as [->|Hne]; [contradiction|].
      rewrite lookup_insert_ne by exact Hne. intros Hd.
      destruct (I3 _ _ Hd) as (l & Hl & Hg).
      specialize (I1 _ _ _ Hl Hg). lia.
  - now rewrite Fc.
Qed.

Lemma nonSpace_neq (a b : string) : nonSpace a <> nonSpace b -> a <> b.
Proof. intros H ->. now apply H. Qed.

(** C8, as amended. An exported function of a parsed file (a function
    declaration is always at the top level), whose comment map is as
    [ast.NewCommentMap] builds it (every comment group of the file in one
    entry, the doc of a node in the entry of the node). The operand of
    [fmt.Sprintf] is the identifier of the function. If the function has
    no doc, then after
    [parseFile] its [Doc] is a fresh group of one comment, the template
    filled with the name, one byte before the declaration, recorded in the
    entry of the function, and [modified] is [true]. If its doc is trivial
    (its trimmed text is the name), its [Doc] is a fresh group of one
    comment, the template filled with the name, at the position of the old
    doc, and [modified] is [true] provided the suffix of the template
    renders to something that is not blank, that is, has a byte outside
    white space. *)
Theorem C8_function_doc_synthesized
    (flags : Flags) (ncm : File -> list ast.CommentGroup -> gmap nat (list nat))
    (af af' : File) (h : list ast.CommentGroup) (d : gmap nat nat)
    (tmpl : string) (st' : State) (modified : bool)
    (pre post : list Node) (id : nat) (pos : ast.Pos) (name : string)
    (kids : list Node) :
  parseFile flags ncm (ParseOk af h d) tmpl = Ok (Done af' st' modified) ->
  Decls af = (pre ++ FuncDecl id pos name kids :: post)%list ->
  ast.IsExported name = true ->
  NoDup (map nodeId (subnodes (fileNode af))) ->
  mapInv (subnodes (fileNode af)) (startState ncm af h d) ->
  Comments (prepared af h).1 ≡ₚ groupsOf (cmap (startState ncm af h d)) ->
  let text := fmt.Sprintf (commentBase ++ tmpl) [fmt.Ident id name] in
  (d !! id = None ->
   (exists g,
      docs st' !! id = Some g
      /\ heap st' !! g = Some [ast.mkComment (pos - 1)%Z text]
      /\ g ∈ default [] (cmap st' !! id))
   /\ modified = true)
  /\ (forall g0 c0 rest t,
        d !! id = Some g0 ->
        h !! g0 = Some (c0 :: rest) ->
        ast.cgText (c0 :: rest) = Ok t ->
        strings.TrimSpace t = name ->
        (forall m', m' ∈ subnodes (fileNode af) -> isTarget m' = true ->
                    nodeId m' <> id -> d !! nodeId m' <> Some g0) ->
        (exists g,
           docs st' !! id = Some g
           /\ heap st' !! g = Some [ast.mkComment (ast.Slash c0) text]
           /\ g ∈ default [] (cmap st' !! id))
        /\ (1 <= nonSpace (fmt.run tmpl [fmt.Ident id name] 1) -> modified = true)).
Proof.
  intros Hp HD Hex Hnd Hinv Hperm text.
  destruct (pass_at_function _ _ _ _ _ _ _ _ _ _ _ _ _ _ _ Hp HD Hex Hnd Hinv Hperm)
    as (sa & st1 & o & c & Wpre & Fpre & Hidpre & Hadd & Wrest & Frest & Hidrest
        & HFin & Hsubpre & Ho & Hc & Hm).
  pose proof Fpre as (P1 & _ & _ & P4).
  destruct (P1 _ Hidpre) as [Pd _]. simpl in Pd.
  assert (Hlw : linesWeight text
                = nonSpace name + nonSpace (fmt.run tmpl [fmt.Ident id name] 1))
    by apply linesWeight_template.
  assert (Hname := nonSpace_exported _ Hex).
  assert (Hshape : nonSpace name <= linesWeight text) by lia.
  destruct (document_step flags _ _ name _ _ sa st1 (proj1 Wpre) HFin Hex Hshape Hadd)
    as (_ & _ & Hnone & Htriv).
  destruct Wpre as [Hinva Hta]. destruct Wrest as [_ Htr].
  assert (Hmod : total (heap (startState ncm af h d)) (cmap (startState ncm af h d))
                 < total (heap st') (cmap st') -> modified = true).
  { intros Hlt. rewrite Hm. apply negb_true_iff, String.eqb_neq, nonSpace_neq.
    unfold startState in *. lia. }
  split.
  - intros Hd. rewrite Hd in Pd.
    rewrite (addComment_missing flags _ _ _ _ _ _ Pd) in Hadd. injection Hadd as <-.
    split; [exact (doc_persists _ _ _ _ _ _ _ Hinva Frest Hidrest)|].
    apply Hmod. specialize (Hnone Pd). unfold text in *. simpl in *. lia.
  - intros g0 c0 rest t Hd Hh Ht Heq Halias. rewrite Hd in Pd.
    assert (Hha : heap sa !! g0 = Some (c0 :: rest)).
    { apply P4; [simpl; now apply prepared_heap|].
      intros k Hk. apply elem_of_targetIds in Hk as (m' & Hm' & Ht' & <-). simpl.
      apply Halias; auto.
      intros Heqid. apply Hidpre. rewrite <- Heqid.
      apply elem_of_targetIds. eauto. }
    specialize (Htriv g0 t Pd).
    rewrite (deref_lookup _ _ _ Hha) in Htriv. specialize (Htriv Ht Heq).
    rewrite (addComment_trivial flags _ _ _ _ _ _ _ _ _ _ Pd Hha Ht Heq) in Hadd.
    injection Hadd as <-.
    split; [exact (doc_persists _ _ _ _ _ _ _ Hinva Frest Hidrest)|].
    intros Hsfx. apply Hmod. unfold text in *. simpl in *. lia.
Qed.

(** A trivial doc replaced by a comment of the same text, whatever the
    library. *)
Lemma trivial_doc_same_text :
  ast.IsExported "DoThing" = true
  /\ (exists t, ast.cgText [ast.mkComment 10%Z "// DoThing"] = Ok t
                /\ strings.TrimSpace t = "DoThing")
  /\ exists af' st',
       parseFile Sample.dots Sample.docOfOne
         (ParseOk (mkFile [Sample.funcDoThing] [0])
            [[ast.mkComment 10%Z "// DoThing"]] {[ 1 := 0 ]}) ""
       = Ok (Done af' st' false)
       /\ map (deref (heap st')) (Comments af') = [[ast.mkComment 10%Z "// DoThing "]].
Proof.
  split; [reflexivity|]. split.
  - eexists. split; reflexivity.
  - eexists _, _. split; [vm_compute; reflexivity | reflexivity].
Qed.

End TrivialDoc.

(** [func Run() {}] in a file without comments: the placeholder is the only
    group of the comment map, [Run] gets [// Run ...] at position [19] and
    the pass reports a modification. [func DoThing() {}] documented as
    [// DoThing]: the doc is replaced by [// DoThing ...] at position [10],
    and the pass reports a modification. *)
Lemma C8_function_doc_synthesized_witness :
  (exists af' st' g,
     parseFile Sample.dots Sample.onPackageName
       (ParseOk (mkFile [Sample.funcRun] []) [] ∅) "..." = Ok (Done af' st' true)
     /\ docs st' !! 1 = Some g
     /\ heap st' !! g = Some [ast.mkComment 19%Z "// Run ..."])
  /\ (exists af' st' g,
        parseFile Sample.dots Sample.docOfOne
          (ParseOk (mkFile [Sample.funcDoThing] [0])
             [[ast.mkComment 10%Z "// DoThing"]] {[ 1 := 0 ]}) "..."
        = Ok (Done af' st' true)
        /\ docs st' !! 1 = Some g
        /\ heap st' !! g = Some [ast.mkComment 10%Z "// DoThing ..."]).
Proof.
  split.
  - assert (P : parseFile Sample.dots Sample.onPackageName
                  (ParseOk (mkFile [Sample.funcRun] []) [] ∅) "..."
                = Ok (Done _ _ _))
      by (vm_compute; reflexivity).
    destruct (C8_function_doc_synthesized _ _ _ _ _ _ _ _ _ [] [] 1 20%Z "Run" [] P)
      as [H _].
    + reflexivity.
    + reflexivity.
    + apply (bool_decide_unpack _). vm_compute. exact I.
    + unfold mapInv, startState, Sample.onPackageName, prepared; simpl.
      repeat split.
      * intros k l g Hk Hg. apply lookup_singleton_Some in Hk as [<- <-].
        apply list_elem_of_singleton in Hg as ->. lia.
      * intros k l Hk. apply lookup_singleton_Some in Hk as [<- <-].
        apply NoDup_singleton.
      * intros k g Hk. rewrite lookup_empty in Hk. discriminate.
      * intros n l g Hn Ht _ Hk. apply lookup_singleton_Some in Hk as [Hid <-].
        repeat (apply elem_of_cons in Hn as [->|Hn]; [discriminate|]).
        inversion Hn.
    + reflexivity.
    + destruct (H eq_refl) as [(g & H1 & H2 & _) _].
      eexists _, _, g. split; [exact P|]. split; [exact H1 | exact H2].
  - assert (P : parseFile Sample.dots Sample.docOfOne
                  (ParseOk (mkFile [Sample.funcDoThing] [0])
                     [[ast.mkComment 10%Z "// DoThing"]] {[ 1 := 0 ]}) "..."
                = Ok (Done _ _ _))
      by (vm_compute; reflexivity).
    destruct (C8_function_doc_synthesized _ _ _ _ _ _ _ _ _ [] [] 1 20%Z "DoThing" []
                P) as [_ H].
    + reflexivity.
    + reflexivity.
    + apply (bool_decide_unpack _). vm_compute. exact I.
    + unfold mapInv, startState, Sample.docOfOne, prepared; simpl.
      repeat split.
      * intros k l g Hk Hg. apply lookup_singleton_Some in Hk as [<- <-].
        apply list_elem_of_singleton in Hg as ->. lia.
      * intros k l Hk. apply lookup_singleton_Some in Hk as [<- <-].
        apply NoDup_singleton.
      * intros k g Hk. apply lookup_singleton_Some in Hk as [<- <-].
        exists [0]. split; [reflexivity | constructor].
      * intros n l g Hn Ht Hd Hk. apply lookup_singleton_Some in Hk as [Hid <-].
        repeat (apply elem_of_cons in Hn as [->|Hn]; [discriminate|]).
        inversion Hn.
    + reflexivity.
    + destruct (H 0 (ast.mkComment 10%Z "// DoThing") []
                  ("DoThing" ++ String "010"%char ""))
        as [(g & H1 & H2 & _) Hm].
      * reflexivity.
      * reflexivity.
      * reflexivity.
      * reflexivity.
      * intros m' Hm' Ht' Hid.
        repeat (apply elem_of_cons in Hm' as [->|Hm']; [try discriminate|]).
        -- now contradiction Hid.
        -- inversion Hm'.
      * eexists _, _, g. split; [exact P|]. split; [exact H1 | exact H2].
Defined.

(** C8 as stated fails: with an empty template suffix the trivial doc
    [// DoThing] of [func DoThing] is replaced by [// DoThing ], the text
    of the comments is the same before and after, and the pass reports no
    modification. *)
Lemma C8_counterexample :
  ast.IsExported "DoThing" = true
  /\ (exists t, ast.cgText [ast.mkComment 10%Z "// DoThing"] = Ok t
                /\ strings.TrimSpace t = "DoThing")
  /\ exists af' st',
       parseFile Sample.dots Sample.docOfOne
         (ParseOk (mkFile [Sample.funcDoThing] [0])
            [[ast.mkComment 10%Z "// DoThing"]] {[ 1 := 0 ]}) ""
       = Ok (Done af' st' false)
       /\ map (deref (heap st')) (Comments af') = [[ast.mkComment 10%Z "// DoThing "]].
Proof. exact trivial_doc_same_text. Qed.

Section ModifyComment.

Context {tables : unicode.Tables} {printer : fmt.Printer}.

(** * Further properties of the code *)

(** ** [modifyComment] *)

Lemma HasPrefix_base (name x : string) :
  strings.HasPrefix ("// " ++ name ++ " " ++ x) (fmt.Sprintf commentBase [fmt.Str name]) = true.
Proof. rewrite <- Sprintf_base_append. apply HasPrefix_append. Qed.

Lemma modifyComment_shape flags g name st st1 :
  modifyComment flags g name st = Ok st1 ->
  exists c0 rest line tl,
    heap st !! g = Some (c0 :: rest)
    /\ heap st1 = <[g := line :: tl]> (heap st)
    /\ ast.Slash line = ast.Slash c0
    /\ strings.HasPrefix (ast.Text line) (fmt.Sprintf commentBase [fmt.Str name]) = true
    /\ (tl = c0 :: rest \/ tl = rest)
    /\ docs st1 = docs st /\ cmap st1 = cmap st /\ skipped st1 = skipped st.
Proof.
  intros H. unfold modifyComment in H.
  destruct (deref (heap st) g) as [|c0 rest] eqn:Hg; [discriminate|].
  apply deref_cons_lookup in Hg.
  destruct (strings.HasPrefix (ast.Text c0) "//"
            && negb (strings.HasPrefix (ast.Text c0) "// ")).
  - injection H as <-. eexists c0, rest, _, (c0 :: rest).
    split; [exact Hg|]. split; [reflexivity|]. split; [reflexivity|].
    split; [|auto]. exact (HasPrefix_base name _).
  - injection H as <-. eexists c0, rest, _, rest.
    split; [exact Hg|]. split; [reflexivity|]. split; [reflexivity|].
    split; [|auto]. exact (HasPrefix_base name _).
Qed.

(** [modifyComment] fails on a group without a line. When it returns, the
    group is where it was, its first line starts with the delimiter, the
    name and a space, and after that line come either all the lines the
    group had or all but the first; [Doc] fields, comment map and skipped
    set are not written. *)
Theorem modifyComment_keeps_block
    (flags : Flags) (g : nat) (name : string) (st : State) :
  (deref (heap st) g = [] -> is_ok (modifyComment flags g name st) = false)
  /\ (forall st1, modifyComment flags g name st = Ok st1 ->
      exists c0 rest line tl,
        heap st !! g = Some (c0 :: rest)
        /\ heap st1 = <[g := line :: tl]> (heap st)
        /\ ast.Slash line = ast.Slash c0
        /\ strings.HasPrefix (ast.Text line) (fmt.Sprintf commentBase [fmt.Str name]) = true
        /\ (tl = c0 :: rest \/ tl = rest)
        /\ docs st1 = docs st /\ cmap st1 = cmap st /\ skipped st1 = skipped st).
Proof.
  split.
  - intros He. unfold modifyComment. now rewrite He.
  - intros st1. apply modifyComment_shape.
Qed.

End ModifyComment.

(** The doc [//nolint:foo] [// more]: the new line goes in front. *)
Lemma modifyComment_keeps_block_witness :
  exists line tl,
    ast.Slash line = 10%Z
    /\ strings.HasPrefix (ast.Text line) "// Run " = true
    /\ (tl = map (ast.mkComment 10%Z) ["//nolint:foo"; "// more"]
        \/ tl = [ast.mkComment 10%Z "// more"]).
Proof.
  destruct (proj2 (modifyComment_keeps_block Sample.dots 0 "Run"
                     (Sample.withDoc ["//nolint:foo"; "// more"])) _ eq_refl)
    as (c0 & rest & line & tl & Hh & _ & Hs & Hp & Htl & _).
  injection Hh as <- <-.
  exists line, tl. auto.
Defined.

Section AddFunctions.

Context {tables : unicode.Tables} {printer : fmt.Printer}.

(** ** The four [add...Comment] functions *)

Lemma addComment_effect flags node pos name arg tmpl st st1 :
  addComment flags node pos name arg tmpl st = Ok st1 ->
  is_Some (docs st1 !! node)
  /\ cmap st1 = cmap st
  /\ skipped st1 = skipped st
  /\ (forall k, k <> node -> docs st1 !! k = docs st !! k)
  /\ length (heap st) <= length (heap st1).
Proof.
  assert (Hnew : forall p text,
    let s1 := newDoc node p text st in
    is_Some (docs s1 !! node) /\ cmap s1 = cmap st /\ skipped s1 = skipped st
    /\ (forall k, k <> node -> docs s1 !! k = docs st !! k)
    /\ length (heap st) <= length (heap s1)).
  { intros p text s1. unfold s1, newDoc. simpl. repeat split.
    - rewrite lookup_insert_eq. eauto.
    - intros k Hk. now apply lookup_insert_ne.
    - rewrite length_app. lia. }
  unfold addComment. destruct (docs st !! node) as [g|] eqn:Hd.
  - intros H. apply bind_Ok in H as (t & _ & H).
    destruct (String.eqb _ name).
    + apply bind_Ok in H as (p & _ & [= <-]). apply Hnew.
    + destruct (_ && _).
      * destruct (modifyComment_shape flags g name st _ H)
          as (c0 & rest & line & tl & _ & Hh & _ & _ & _ & H1 & H2 & H3).
        rewrite H1, H2, H3, Hh, Hd, length_insert. repeat split; eauto.
      * injection H as <-. rewrite Hd. repeat split; eauto.
  - intros [= <-]. apply Hnew.
Qed.

(** Whichever of the four [add...Comment] functions returns, the node has
    a [Doc] afterwards (which is why [parseFile] may hand [typ.Doc] to
    [appendCommentGroup]), the [Doc] of every other node is what it was,
    the comment map and the skipped set are not written, and no comment
    group is freed. *)
Theorem add_functions_leave_doc
    (flags : Flags) (node : nat) (pos : ast.Pos) (name tmpl : string)
    (st st1 : State) :
  addFuncDeclComment flags node pos name tmpl st = Ok st1
  \/ addValueSpecComment flags node pos name tmpl st = Ok st1
  \/ addParenValueSpecComment flags node pos name tmpl st = Ok st1
  \/ addTypeSpecComment flags node pos name tmpl st = Ok st1 ->
  is_Some (docs st1 !! node)
  /\ cmap st1 = cmap st
  /\ skipped st1 = skipped st
  /\ (forall k, k <> node -> docs st1 !! k = docs st !! k)
  /\ length (heap st) <= length (heap st1).
Proof.
  unfold addFuncDeclComment, addValueSpecComment, addParenValueSpecComment,
    addTypeSpecComment.
  intros [H|[H|[H|H]]]; exact (addComment_effect _ _ _ _ _ _ _ _ H).
Qed.

End AddFunctions.

(** A type without doc. *)
Lemma add_functions_leave_doc_witness :
  exists st1, is_Some (docs st1 !! 7) /\ cmap st1 = cmap Sample.bare.
Proof.
  eexists.
  destruct (add_functions_leave_doc Sample.dots 7 20%Z "T" (commentBase ++ "...")
              Sample.bare _ (or_intror (or_intror (or_intror eq_refl))))
    as (H1 & H2 & _).
  split; [exact H1 | exact H2].
Defined.

Section PlainTemplate.

Context {tables : unicode.Tables} {printer : fmt.Printer}.

(** ** Templates *)

(** Once the operands are used up, plain text is written as it is. *)
Lemma run_plain (s : string) (a : list fmt.Operand) (n : nat) :
  plain s = true -> length a <= n -> fmt.run s a n = s.
Proof.
  intros Hp Hn. induction s as [|c s IH]; simpl.
  - now rewrite (proj2 (Nat.ltb_ge _ _) Hn).
  - simpl in Hp. apply andb_true_iff in Hp as [Hc Hs].
    rewrite Hc. now rewrite IH.
Qed.

(** Once the operands are used up, [%s] is written as [%!s(MISSING)]. *)
Lemma run_missing (before rest : string) (a : list fmt.Operand) (n : nat) :
  plain before = true -> length a <= n ->
  fmt.run (before ++ "%s" ++ rest) a n
  = before ++ "%!s(MISSING)" ++ fmt.run rest a n.
Proof.
  intros Hp Hn. induction before as [|c before IH].
  - change ("" ++ "%s" ++ rest) with (String "%"%char (String "s"%char rest)).
    cbn [fmt.run]. simpl.
    now rewrite (proj2 (nth_error_None a n) Hn).
  - simpl in Hp. apply andb_true_iff in Hp as [Hc Hp].
    rewrite !append_cons. cbn [fmt.run]. rewrite Hc. f_equal. now apply IH.
Qed.

(** With a template that holds no percent sign, a declaration without doc
    gets exactly the delimiter, its name, a space and the template, one
    byte before it; an entry of a group documented on its own gets the
    same behind a tab. *)
Theorem plain_template_text
    (flags : Flags) (node : nat) (pos : ast.Pos) (name tmpl : string) (st : State) :
  plain tmpl = true ->
  docs st !! node = None ->
  addFuncDeclComment flags node pos name (commentBase ++ tmpl) st
  = Ok (newDoc node (pos - 1)%Z ("// " ++ name ++ " " ++ tmpl) st)
  /\ addValueSpecComment flags node pos name (commentBase ++ tmpl) st
     = Ok (newDoc node (pos - 1)%Z ("// " ++ name ++ " " ++ tmpl) st)
  /\ addTypeSpecComment flags node pos name (commentBase ++ tmpl) st
     = Ok (newDoc node (pos - 1)%Z ("// " ++ name ++ " " ++ tmpl) st)
  /\ addParenValueSpecComment flags node pos name (commentBase ++ tmpl) st
     = Ok (newDoc node (pos - 1)%Z
             (String "009"%char ("// " ++ name ++ " " ++ tmpl)) st).
Proof.
  intros Hp Hd.
  unfold addFuncDeclComment, addValueSpecComment, addParenValueSpecComment,
    addTypeSpecComment.
  rewrite !(addComment_missing flags _ _ _ _ _ _ Hd).
  rewrite Replace1_base, !Sprintf_template, Sprintf_indented.
  rewrite !(run_plain _ _ 1 Hp) by (simpl; lia).
  auto.
Qed.

End PlainTemplate.

(** [func Run] without doc, template [runs.]. *)
Lemma plain_template_text_witness :
  addFuncDeclComment Sample.dots 1 20%Z "Run" (commentBase ++ "runs.") Sample.bare
  = Ok (newDoc 1 19%Z "// Run runs." Sample.bare).
Proof.
  exact (proj1 (plain_template_text Sample.dots 1 20%Z "Run" "runs." Sample.bare
                  eq_refl eq_refl)).
Defined.

Section SecondPlaceholder.

Context {tables : unicode.Tables} {printer : fmt.Printer}.

(** A template with a placeholder of its own does not make the synthesis
    fail: [fmt.Sprintf] has one operand, the name, which the placeholder of
    [commentBase] takes, and the first [%s] of the template is written out
    as [%!s(MISSING)]; what follows it is formatted with no operand left. *)
Theorem second_placeholder_is_missing
    (flags : Flags) (node : nat) (pos : ast.Pos) (name before rest : string)
    (st : State) :
  plain before = true ->
  docs st !! node = None ->
  addFuncDeclComment flags node pos name (commentBase ++ before ++ "%s" ++ rest) st
  = Ok (newDoc node (pos - 1)%Z
          ("// " ++ name ++ " " ++ before ++ "%!s(MISSING)"
           ++ fmt.run rest [fmt.Ident node name] 1) st).
Proof.
  intros Hp Hd. unfold addFuncDeclComment.
  rewrite (addComment_missing flags _ _ _ _ _ _ Hd), Sprintf_template.
  now rewrite (run_missing _ _ _ 1 Hp) by (simpl; lia).
Qed.

End SecondPlaceholder.

(** Template [is %s.]. *)
Lemma second_placeholder_is_missing_witness :
  addFuncDeclComment Sample.dots 1 20%Z "Run" (commentBase ++ "is %s.") Sample.bare
  = Ok (newDoc 1 19%Z "// Run is %!s(MISSING)." Sample.bare).
Proof.
  exact (second_placeholder_is_missing Sample.dots 1 20%Z "Run" "is " "." Sample.bare
           eq_refl eq_refl).
Defined.

Section LocalDeclaration.

Context {tables : unicode.Tables} {printer : fmt.Printer}.

(** ** Declarations inside a function body, outside the per-entry mode *)

(** The walk reaches a declaration statement before the declaration it
    holds. For a [type] group, an [import], or a [var] or [const] group
    that does not take the per-entry branch, the visit of the statement
    followed by the visit of the declaration writes nothing but the mark:
    the declaration gets no comment, whatever its names and its doc. *)
Theorem local_declaration_left_alone
    (flags : Flags) (ct : string) (id gid : nat) (TokPos Lparen Rparen : ast.Pos)
    (Tok : Token) (specs : list Node) (st : State) :
  Tok = TYPE \/ Tok = IMPORT \/ parenComment flags = false
  \/ (Lparen = ast.NoPos /\ Rparen = ast.NoPos) ->
  (Tok = TYPE -> exists ts n kids rest, specs = TypeSpec ts n kids :: rest) ->
  (Tok = VAR \/ Tok = CONST ->
   specs = [] \/ exists vs p n0 names kids rest,
                   specs = ValueSpec vs p (n0 :: names) kids :: rest) ->
  let decl := GenDecl gid TokPos Tok Lparen Rparen specs in
  exists st1,
    visit flags ct (DeclStmt id decl) st = Ok st1
    /\ visit flags ct decl st1 = Ok st1
    /\ gid ∈ skipped st1
    /\ heap st1 = heap st /\ docs st1 = docs st /\ cmap st1 = cmap st.
Proof.
  intros Hpath Htype Hvalue decl.
  eexists. split; [reflexivity|].
  set (st1 := mkState (heap st) (docs st) (cmap st) ({[ nodeId decl ]} ∪ skipped st)).
  assert (Hin : gid ∈ skipped st1) by (unfold st1; simpl; set_solver).
  assert (Hsk : bool_decide (gid ∈ skipped st1) = true) by now apply bool_decide_eq_true.
  assert (Hsame : heap st1 = heap st /\ docs st1 = docs st /\ cmap st1 = cmap st)
    by (unfold st1; auto).
  clearbody st1.
  split; [|auto].
  assert (Hval : Tok = VAR \/ Tok = CONST ->
    (negb ((Lparen =? ast.NoPos)%Z && (Rparen =? ast.NoPos)%Z)
     && parenComment flags) = false ->
    visit flags ct decl st1 = Ok st1).
  { intros HT Hb. unfold decl.
    destruct (Hvalue HT) as [->|(vs & p & n0 & names & kids & rest & ->)];
      destruct HT as [-> | ->]; simpl; rewrite Hb; try reflexivity;
      now rewrite Hsk. }
  destruct Tok.
  - reflexivity.
  - apply Hval; [auto|].
    destruct Hpath as [H|[H|[H|[-> ->]]]]; try discriminate;
      [rewrite H; apply andb_false_r | reflexivity].
  - destruct (Htype eq_refl) as (ts & n & kids & rest & Hs).
    unfold decl. rewrite Hs. simpl. now rewrite Hsk.
  - apply Hval; [auto|].
    destruct Hpath as [H|[H|[H|[-> ->]]]]; try discriminate;
      [rewrite H; apply andb_false_r | reflexivity].
Qed.

End LocalDeclaration.

(** [var X = 1] inside a function body, per-entry flag set. *)
Lemma local_declaration_left_alone_witness :
  exists st1,
    visit Sample.dotsParen (commentBase ++ "...")
      (GenDecl 4 30%Z VAR 0%Z 0%Z [ValueSpec 5 34%Z ["X"] []]) st1 = Ok st1
    /\ 4 ∈ skipped st1 /\ docs st1 = ∅.
Proof.
  destruct (local_declaration_left_alone Sample.dotsParen (commentBase ++ "...")
              3 4 30%Z 0%Z 0%Z VAR [ValueSpec 5 34%Z ["X"] []] Sample.bare)
    as (st1 & _ & Hv & Hs & _ & Hd & _).
  - right. right. right. split; reflexivity.
  - discriminate.
  - intros _. right. eexists _, _, _, _, _, _. reflexivity.
  - exists st1. auto.
Defined.

Section PerEntryFlag.

Context {tables : unicode.Tables} {printer : fmt.Printer}.

(** ** The per-entry flag *)

Lemma visit_flag t ct n st :
  parenGroup n = false ->
  visit (mkFlags t true) ct n st = visit (mkFlags t false) ct n st.
Proof.
  destruct n as [| |id TokPos Tok Lparen Rparen Specs| | |]; try reflexivity.
  destruct Tok; try reflexivity; simpl; intros ->; reflexivity.
Qed.

Lemma inspectList_flag t ct l :
  Forall (fun n => forall st,
            (forall m, m ∈ subnodes n -> parenGroup m = false) ->
            inspect (mkFlags t true) ct n st = inspect (mkFlags t false) ct n st) l ->
  forall st, (forall m, m ∈ flat_map subnodes l -> parenGroup m = false) ->
    inspectList (mkFlags t true) ct l st = inspectList (mkFlags t false) ct l st.
Proof.
  induction 1 as [|n l Hn _ IH]; intros st Hall; [reflexivity|]. simpl.
  rewrite Hn by (intros m Hm; apply Hall; simpl; set_solver).
  apply bind_ext. intros s1. apply IH. intros m Hm. apply Hall. simpl. set_solver.
Qed.

Lemma inspect_flag t ct n :
  forall st, (forall m, m ∈ subnodes n -> parenGroup m = false) ->
    inspect (mkFlags t true) ct n st = inspect (mkFlags t false) ct n st.
Proof.
  induction n as [n IH] using Node_children_ind. intros st Hall.
  rewrite !inspect_unfold.
  rewrite visit_flag by (apply Hall, subnodes_self).
  apply bind_ext. intros s1. apply (inspectList_flag _ _ _ IH).
  intros m Hm. apply Hall. rewrite subnodes_unfold. now constructor.
Qed.

(** The per-entry flag is read for parenthesized [var] and [const] groups
    only: on a file without such a group, [parseFile] returns the same tree,
    the same comments and the same verdict with the flag set and unset. *)
Theorem per_entry_flag_needs_paren_group
    (t : string) (ncm : File -> list ast.CommentGroup -> gmap nat (list nat))
    (af : File) (h : list ast.CommentGroup) (d : gmap nat nat) (tmpl : string) :
  (forall m, m ∈ subnodes (fileNode af) -> parenGroup m = false) ->
  parseFile (mkFlags t true) ncm (ParseOk af h d) tmpl
  = parseFile (mkFlags t false) ncm (ParseOk af h d) tmpl.
Proof.
  intros Hall. unfold parseFile.
  destruct (Comments af) as [|c cs]; unfold alloc, pass;
    rewrite inspect_flag by exact Hall; reflexivity.
Qed.

End PerEntryFlag.

(** [var ( A = 1; B = 2 )] has parentheses; [func Run] and [type ()] do not
    count. *)
Lemma per_entry_flag_needs_paren_group_witness :
  parseFile (mkFlags "..." true) Sample.onPackageName
    (ParseOk (mkFile [Sample.funcRun] []) [] ∅) "..."
  = parseFile (mkFlags "..." false) Sample.onPackageName
      (ParseOk (mkFile [Sample.funcRun] []) [] ∅) "...".
Proof.
  apply per_entry_flag_needs_paren_group.
  intros m Hm.
  repeat (apply elem_of_cons in Hm as [->|Hm]; [reflexivity|]).
  inversion Hm.
Defined.

Section KeepsDocs.

Context {tables : unicode.Tables} {printer : fmt.Printer}.

(** ** What the walk never undoes *)

Lemma keeps_refl st : keeps st st.
Proof. unfold keeps; auto. Qed.

Lemma keeps_trans st0 st1 st2 : keeps st0 st1 -> keeps st1 st2 -> keeps st0 st2.
Proof.
  intros (A1 & A2 & A3) (B1 & B2 & B3). unfold keeps.
  repeat split; [auto | auto | lia].
Qed.

Lemma keeps_skip st sk : keeps st (mkState (heap st) (docs st) (cmap st) sk).
Proof. unfold keeps, attached; simpl; auto. Qed.

(** One declaration documented: its doc is attached, nothing else is lost. *)
Lemma keeps_document flags node pos name arg tmpl st st1 :
  addComment flags node pos name arg tmpl st = Ok st1 ->
  keeps st (recordDoc node st1) /\ attached node (recordDoc node st1).
Proof.
  intros H. apply addComment_effect in H as ([g Hg] & Hc & _ & Hother & Hlen).
  assert (Hatt : attached node (recordDoc node st1)).
  { exists g. rewrite (recordDoc_state _ _ _ Hg). simpl.
    split; [exact Hg|]. rewrite lookup_insert_eq. simpl.
    apply appendCommentGroup_In. }
  split; [|exact Hatt].
  rewrite (recordDoc_state _ _ _ Hg) in *. unfold keeps; simpl. repeat split.
  - intros k Hk. destruct (decide (k = node)) as [->|Hne]; [eauto|].
    now rewrite Hother.
  - intros k Hk. destruct (decide (k = node)) as [->|Hne]; [exact Hatt|].
    destruct Hk as (g' & Hd' & Hin'). exists g'. simpl.
    rewrite Hother by exact Hne. split; [exact Hd'|].
    rewrite lookup_insert_ne by auto. now rewrite Hc.
  - exact Hlen.
Qed.

Lemma keeps_parenEntries flags ct specs :
  forall st st', parenEntries flags specs ct st = Ok st' ->
    keeps st st'
    /\ forall vs pos n0 names kids,
         ValueSpec vs pos (n0 :: names) kids ∈ specs ->
         ast.IsExported n0 = true -> attached vs st'.
Proof.
  induction specs as [|s specs IH]; intros st st'; simpl.
  - intros [= <-]. split; [apply keeps_refl|]. intros * Hin. inversion Hin.
  - destruct s as [| | |vs pos Names kids| |]; try discriminate.
    intros H. apply bind_Ok in H as (n0 & Hn & H).
    destruct Names as [|n0' names]; [discriminate|]. injection Hn as ->.
    destruct (ast.IsExported n0) eqn:Hex; simpl in H.
    + apply bind_Ok in H as (st1 & Ha & H).
      apply keeps_document in Ha as [K1 A1].
      destruct (IH _ _ H) as [K2 A2].
      split; [exact (keeps_trans _ _ _ K1 K2)|].
      intros vs' pos' n0' names' kids' Hin Hex'.
      apply elem_of_cons in Hin as [Heq|Hin]; [|eauto].
      injection Heq as -> -> -> -> ->. now apply (proj1 (proj2 K2)).
    + destruct (IH _ _ H) as [K2 A2]. split; [exact K2|].
      intros vs' pos' n0' names' kids' Hin Hex'.
      apply elem_of_cons in Hin as [Heq|Hin]; [|eauto].
      injection Heq as -> -> -> -> ->. congruence.
Qed.

Lemma keeps_visit flags ct n st st' :
  visit flags ct n st = Ok st' -> keeps st st'.
Proof.
  assert (Hdoc : forall node pos name arg st1,
    addComment flags node pos name arg ct st = Ok st1 -> keeps st (recordDoc node st1)).
  { intros node pos name arg st1 Ha. exact (proj1 (keeps_document _ _ _ _ _ _ _ _ Ha)). }
  assert (Hsame : Ok st = Ok st' -> keeps st st')
    by (intros [= <-]; apply keeps_refl).
  destruct n as [id pos Name kids|id Decl|id TokPos Tok Lparen Rparen Specs| | |];
    simpl; auto.
  - destruct (bool_decide _ || negb _); [auto|].
    intros H. apply bind_Ok in H as (st1 & Ha & [= <-]). eapply Hdoc; exact Ha.
  - intros [= <-]. apply keeps_skip.
  - assert (Hparen : parenEntries flags Specs ct st = Ok st' -> keeps st st')
      by (intros H; exact (proj1 (keeps_parenEntries _ _ _ _ _ H))).
    destruct Tok; auto.
    + destruct (negb _ && parenComment flags); [exact Hparen|].
      destruct Specs as [|s Specs]; [auto|]. destruct s; try discriminate.
      intros H. apply bind_Ok in H as (n0 & _ & H).
      destruct (bool_decide _ || negb _); [auto|].
      apply bind_Ok in H as (st1 & Ha & [= <-]). eapply Hdoc; exact Ha.
    + destruct Specs as [|s Specs]; [discriminate|]. destruct s; try discriminate.
      destruct (bool_decide _ || negb _); [auto|].
      intros H. apply bind_Ok in H as (st1 & Ha & [= <-]). eapply Hdoc; exact Ha.
    + destruct (negb _ && parenComment flags); [exact Hparen|].
      destruct Specs as [|s Specs]; [auto|]. destruct s; try discriminate.
      intros H. apply bind_Ok in H as (n0 & _ & H).
      destruct (bool_decide _ || negb _); [auto|].
      apply bind_Ok in H as (st1 & Ha & [= <-]). eapply Hdoc; exact Ha.
Qed.

Lemma keeps_inspectList flags ct l :
  Forall (fun n => forall st st', inspect flags ct n st = Ok st' -> keeps st st') l ->
  forall st st', inspectList flags ct l st = Ok st' -> keeps st st'.
Proof.
  induction 1 as [|n l Hn _ IH]; intros st st'; simpl.
  - intros [= <-]. apply keeps_refl.
  - intros H. apply bind_Ok in H as (s1 & H1 & H2).
    exact (keeps_trans _ _ _ (Hn _ _ H1) (IH _ _ H2)).
Qed.

Lemma keeps_inspect flags ct n :
  forall st st', inspect flags ct n st = Ok st' -> keeps st st'.
Proof.
  induction n as [n IH] using Node_children_ind. intros st st'.
  rewrite inspect_unfold. intros H. apply bind_Ok in H as (st1 & Hv & Hl).
  exact (keeps_trans _ _ _ (keeps_visit _ _ _ _ _ Hv) (keeps_inspectList _ _ _ IH _ _ Hl)).
Qed.

Lemma keeps_inspectList_all flags ct l st st' :
  inspectList flags ct l st = Ok st' -> keeps st st'.
Proof.
  apply keeps_inspectList. apply Forall_forall. intros n _. apply keeps_inspect.
Qed.

(** Every node of the tree is visited, and what its visit leaves is kept
    to the end of the walk. *)
Lemma inspectList_visits flags ct l :
  Forall (fun n => forall m st st', inspect flags ct n st = Ok st' ->
            m ∈ subnodes n ->
            exists s1 s2, visit flags ct m s1 = Ok s2 /\ keeps s2 st') l ->
  forall m st st', inspectList flags ct l st = Ok st' ->
    m ∈ flat_map subnodes l ->
    exists s1 s2, visit flags ct m s1 = Ok s2 /\ keeps s2 st'.
Proof.
  induction 1 as [|n l Hn _ IH]; intros m st st'; simpl.
  - intros _ Hm. inversion Hm.
  - intros H Hm. apply bind_Ok in H as (sa & H1 & H2).
    apply elem_of_app in Hm as [Hm|Hm].
    + destruct (Hn _ _ _ H1 Hm) as (s1 & s2 & Hv & Hk).
      exists s1, s2. split; [exact Hv|].
      exact (keeps_trans _ _ _ Hk (keeps_inspectList_all _ _ _ _ _ H2)).
    + exact (IH _ _ _ H2 Hm).
Qed.

Lemma inspect_visits flags ct n :
  forall m st st', inspect flags ct n st = Ok st' ->
    m ∈ subnodes n ->
    exists s1 s2, visit flags ct m s1 = Ok s2 /\ keeps s2 st'.
Proof.
  induction n as [n IH] using Node_children_ind. intros m st st'.
  rewrite inspect_unfold, subnodes_unfold. intros H Hm.
  apply bind_Ok in H as (st1 & Hv & Hl).
  apply elem_of_cons in Hm as [->|Hm].
  - exists st, st1. split; [exact Hv|]. exact (keeps_inspectList_all _ _ _ _ _ Hl).
  - exact (inspectList_visits _ _ _ IH _ _ _ Hl Hm).
Qed.

Lemma visit_own flags ct n name st :
  ownName flags n = Some name ->
  nodeId n ∉ skipped st ->
  visit flags ct n st
  = bind (addComment flags (nodeId n) (declPos n) name (operandOf n name) ct st)
      (fun st1 => Ok (recordDoc (nodeId n) st1)).
Proof.
  intros Hown Hsk.
  assert (Hb : bool_decide (nodeId n ∈ skipped st) = false)
    by now apply bool_decide_eq_false.
  destruct n as [id pos Name kids| |id TokPos Tok Lparen Rparen Specs| | |];
    try discriminate; simpl in *.
  - destruct (ast.IsExported Name); [|discriminate]. injection Hown as ->.
    now rewrite Hb.
  - destruct Tok; try discriminate.
    + destruct Specs as [|s Specs]; [discriminate|].
      destruct s as [| | |vs p Names kids| |]; try discriminate.
      destruct Names as [|n0 names]; [discriminate|].
      destruct (negb _ && parenComment flags); [discriminate|].
      destruct (ast.IsExported n0) eqn:He; [|discriminate]. injection Hown as ->.
      simpl. now rewrite Hb, He.
    + destruct Specs as [|s Specs]; [discriminate|].
      destruct s as [| | | |ts Name kids|]; try discriminate.
      destruct (ast.IsExported Name); [|discriminate]. injection Hown as ->.
      now rewrite Hb.
    + destruct Specs as [|s Specs]; [discriminate|].
      destruct s as [| | |vs p Names kids| |]; try discriminate.
      destruct Names as [|n0 names]; [discriminate|].
      destruct (negb _ && parenComment flags); [discriminate|].
      destruct (ast.IsExported n0) eqn:He; [|discriminate]. injection Hown as ->.
      simpl. now rewrite Hb, He.
Qed.

(** ** What [parseFile] guarantees on return *)

(** [parseFile] never takes a doc away and never frees a comment group: a
    node that had a [Doc] has one when [parseFile] returns, the store of
    groups is at least as long, and the declarations of the tree returned
    are those of the tree parsed. *)
Theorem parseFile_keeps_docs
    (flags : Flags) (ncm : File -> list ast.CommentGroup -> gmap nat (list nat))
    (af af' : File) (h : list ast.CommentGroup) (d : gmap nat nat)
    (tmpl : string) (st' : State) (modified : bool) :
  parseFile flags ncm (ParseOk af h d) tmpl = Ok (Done af' st' modified) ->
  (forall k, is_Some (d !! k) -> is_Some (docs st' !! k))
  /\ length h <= length (heap st')
  /\ Decls af' = Decls af.
Proof.
  intros Hp.
  apply parseFile_pass in Hp as (af1 & Hp & Hdrop & Hkeep).
  apply pass_inspect in Hp as (o & c & _ & Hi & Haf1 & _).
  apply keeps_inspect in Hi as (K1 & _ & K3). simpl in K1, K3.
  split; [exact K1|]. split.
  - assert (length h <= length (prepared af h).2); [|lia].
    unfold prepared. destruct (Comments af); simpl; [|lia].
    rewrite length_app. lia.
  - destruct (Comments af) as [|x xs] eqn:HC.
    + specialize (Hdrop eq_refl). unfold dropInjected in Hdrop.
      destruct (Comments af1); [discriminate|]. injection Hdrop as <-.
      rewrite Haf1. simpl. unfold prepared. now rewrite HC.
    + rewrite (Hkeep ltac:(discriminate)), Haf1. simpl.
      unfold prepared. now rewrite HC.
Qed.

End KeepsDocs.

(** [helper] keeps its doc next to [Run]. *)
Lemma parseFile_keeps_docs_witness :
  exists st', is_Some (docs st' !! 1) /\ 1 <= length (heap st').
Proof.
  assert (P : parseFile Sample.dots Sample.docOfOne
                (ParseOk Sample.helperAndRun [[ast.mkComment 10%Z "// does it"]]
                   {[ 1 := 0 ]}) "..." = Ok (Done _ _ _))
    by (vm_compute; reflexivity).
  destruct (parseFile_keeps_docs _ _ _ _ _ _ _ _ _ P) as (H1 & H2 & _).
  eexists. split; [apply H1; now exists 0 | exact H2].
Defined.

Section PerEntryMode.

Context {tables : unicode.Tables} {printer : fmt.Printer}.

(** With the per-entry flag set, every exported entry of every
    parenthesized [var] or [const] group of the file, at the top level or
    inside a function body, has a [Doc] when [parseFile] returns, and the
    doc is in the entry of the comment map for it. *)
Theorem per_entry_mode_documents_entries
    (flags : Flags) (ncm : File -> list ast.CommentGroup -> gmap nat (list nat))
    (af af' : File) (h : list ast.CommentGroup) (d : gmap nat nat)
    (tmpl : string) (st' : State) (modified : bool)
    (gid : nat) (TokPos Lparen Rparen : ast.Pos) (Tok : Token) (specs : list Node)
    (vs : nat) (pos : ast.Pos) (n0 : string) (names : list string) (kids : list Node) :
  parseFile flags ncm (ParseOk af h d) tmpl = Ok (Done af' st' modified) ->
  parenComment flags = true ->
  GenDecl gid TokPos Tok Lparen Rparen specs ∈ subnodes (fileNode af) ->
  Tok = VAR \/ Tok = CONST ->
  Lparen <> ast.NoPos ->
  ValueSpec vs pos (n0 :: names) kids ∈ specs ->
  ast.IsExported n0 = true ->
  attached vs st'.
Proof.
  intros Hp Hflag HG HTok HL Hin Hex.
  apply parseFile_pass in Hp as (af1 & Hp & _).
  apply pass_inspect in Hp as (o & c & _ & Hi & _).
  rewrite fileNode_prepared in Hi.
  destruct (inspect_visits _ _ _ _ _ _ Hi HG) as (s1 & s2 & Hv & Hk).
  assert (Hpe : parenEntries flags specs (commentBase ++ tmpl) s1 = Ok s2).
  { assert (HLb : negb ((Lparen =? ast.NoPos)%Z && (Rparen =? ast.NoPos)%Z) = true).
    { apply negb_true_iff, andb_false_iff. left. now apply Z.eqb_neq. }
    simpl in Hv. rewrite HLb, Hflag in Hv.
    destruct HTok as [-> | ->]; exact Hv. }
  apply keeps_parenEntries in Hpe as [_ Hall].
  apply (proj1 (proj2 Hk)). eauto.
Qed.

End PerEntryMode.

(** The entry [X] of the group inside [func f]. *)
Lemma per_entry_mode_documents_entries_witness :
  exists st', attached 5 st'.
Proof.
  assert (P : parseFile Sample.dotsParen Sample.onPackageName
                (ParseOk (mkFile [Sample.localGroup] []) [] ∅) "..." = Ok (Done _ _ _))
    by (vm_compute; reflexivity).
  eexists.
  apply (per_entry_mode_documents_entries _ _ _ _ _ _ _ _ _
           4 30%Z 34%Z 50%Z VAR [ValueSpec 5 40%Z ["X"] []] 5 40%Z "X" [] [] P).
  - reflexivity.
  - unfold Sample.localGroup, fileNode. simpl.
    do 4 (apply elem_of_cons; right). apply elem_of_cons; left. reflexivity.
  - now left.
  - discriminate.
  - constructor.
  - reflexivity.
Defined.

Section TopLevel.

Context {tables : unicode.Tables} {printer : fmt.Printer}.

(** The pass cut at a declaration of the top level: the walk up to it, its
    visit, and the rest. *)
Lemma pass_at_declaration flags ncm af af' h d tmpl st' modified pre post D :
  parseFile flags ncm (ParseOk af h d) tmpl = Ok (Done af' st' modified) ->
  Decls af = (pre ++ D :: post)%list ->
  NoDup (map nodeId (subnodes (fileNode af))) ->
  exists sa sb,
    inspectList flags (commentBase ++ tmpl) pre (startState ncm af h d) = Ok sa
    /\ nodeId D ∉ skipped sa
    /\ nodeId D ∉ map nodeId (flat_map subnodes pre)
    /\ visit flags (commentBase ++ tmpl) D sa = Ok sb
    /\ keeps sb st'.
Proof.
  intros Hp HD Hnd.
  apply parseFile_pass in Hp as (af1 & Hp & _).
  apply pass_inspect in Hp as (o & c & _ & Hi & _).
  rewrite fileNode_prepared in Hi.
  change (mkState (prepared af h).2 d (ncm (prepared af h).1 (prepared af h).2) ∅)
    with (startState ncm af h d) in Hi.
  assert (Hns : subnodes (fileNode af)
                = fileNode af :: (flat_map subnodes pre
                    ++ subnodes D ++ flat_map subnodes post)%list).
  { rewrite subnodes_unfold. unfold fileNode at 2.
    change (childrenOf (Other 0 (Decls af))) with (Decls af).
    rewrite HD, flat_map_app. reflexivity. }
  rewrite Hns in Hnd. rewrite (subnodes_unfold D) in Hnd.
  rewrite map_cons, !map_app, map_cons in Hnd.
  apply NoDup_cons in Hnd as [_ Hnd].
  apply NoDup_app in Hnd as (_ & Hdis & _).
  assert (Hpre : nodeId D ∉ map nodeId (flat_map subnodes pre)).
  { intros Hin. apply (Hdis _ Hin). apply elem_of_app. left. constructor. }
  rewrite inspect_unfold in Hi.
  change (inspectList flags (commentBase ++ tmpl) (Decls af) (startState ncm af h d)
          = Ok st') in Hi.
  rewrite HD in Hi.
  apply inspectList_app in Hi as (sa & Ha & Hi).
  change (bind (inspect flags (commentBase ++ tmpl) D sa)
            (fun s1 => inspectList flags (commentBase ++ tmpl) post s1) = Ok st') in Hi.
  apply bind_Ok in Hi as (sb & HF & Hpost).
  rewrite inspect_unfold in HF. apply bind_Ok in HF as (sb1 & Hv & Hkids).
  exists sa, sb1. split; [exact Ha|]. split; [|split; [exact Hpre|split; [exact Hv|]]].
  - intros Hk.
    destruct (inspectList_skipped_all _ _ _ _ _ Ha _ Hk) as [Hk'|Hk'].
    + unfold startState in Hk'. simpl in Hk'. set_solver.
    + exact (Hpre Hk').
  - exact (keeps_trans _ _ _ (keeps_inspectList_all _ _ _ _ _ Hkids)
             (keeps_inspectList_all _ _ _ _ _ Hpost)).
Qed.

(** When [parseFile] returns, every declaration of the top level that the
    visitor documents at its own visit (an exported function, a [type]
    group whose first name is exported, a [var] or [const] group whose
    first name is exported, outside the per-entry mode) has a [Doc], and
    the doc is in the entry of the comment map for the declaration. *)
Theorem top_level_declaration_documented
    (flags : Flags) (ncm : File -> list ast.CommentGroup -> gmap nat (list nat))
    (af af' : File) (h : list ast.CommentGroup) (d : gmap nat nat)
    (tmpl : string) (st' : State) (modified : bool)
    (pre post : list Node) (D : Node) (name : string) :
  parseFile flags ncm (ParseOk af h d) tmpl = Ok (Done af' st' modified) ->
  Decls af = (pre ++ D :: post)%list ->
  NoDup (map nodeId (subnodes (fileNode af))) ->
  ownName flags D = Some name ->
  attached (nodeId D) st'.
Proof.
  intros Hp HD Hnd Hown.
  destruct (pass_at_declaration _ _ _ _ _ _ _ _ _ _ _ _ Hp HD Hnd)
    as (sa & sb & _ & Hsk & _ & Hv & Hk).
  rewrite (visit_own _ _ _ _ _ Hown Hsk) in Hv.
  apply bind_Ok in Hv as (st1 & Ha & [= <-]).
  apply keeps_document in Ha as [_ Hatt].
  exact (proj1 (proj2 Hk) _ Hatt).
Qed.

End TopLevel.

(** [Run], after the unexported [helper]. *)
Lemma top_level_declaration_documented_witness :
  exists st', attached 2 st'.
Proof.
  assert (P : parseFile Sample.dots Sample.docOfOne
                (ParseOk Sample.helperAndRun [[ast.mkComment 10%Z "// does it"]]
                   {[ 1 := 0 ]}) "..." = Ok (Done _ _ _))
    by (vm_compute; reflexivity).
  eexists.
  apply (top_level_declaration_documented _ _ _ _ _ _ _ _ _
           [FuncDecl 1 20%Z "helper" []] [] (FuncDecl 2 40%Z "Run" []) "Run" P).
  - reflexivity.
  - apply (bool_decide_unpack _). vm_compute. exact I.
  - reflexivity.
Defined.

Section NeverLosesText.

Context {tables : unicode.Tables} {printer : fmt.Printer}.

(** [parseFile] never loses comment text: on a file whose comment map holds
    every comment group once, the doc of a node in the entry of the node
    and at a position of its own there, the text after the pass has at
    least as many bytes outside white space as the text before. *)
Theorem parseFile_never_loses_text
    (flags : Flags) (ncm : File -> list ast.CommentGroup -> gmap nat (list nat))
    (af af' : File) (h : list ast.CommentGroup) (d : gmap nat nat)
    (tmpl : string) (st' : State) (modified : bool) :
  parseFile flags ncm (ParseOk af h d) tmpl = Ok (Done af' st' modified) ->
  mapInv (subnodes (fileNode af)) (startState ncm af h d) ->
  Comments (prepared af h).1 ≡ₚ groupsOf (cmap (startState ncm af h d)) ->
  exists original current,
    commentSign (prepared af h).2 (Comments (prepared af h).1) = Ok original
    /\ commentSign (heap st') (cmapComments (heap st') (cmap st')) = Ok current
    /\ nonSpace original <= nonSpace current.
Proof.
  intros Hp Hinv Hperm.
  apply parseFile_pass in Hp as (af1 & Hp & _).
  apply pass_inspect in Hp as (o & c & Ho & Hi & Haf1 & Hc & _).
  rewrite fileNode_prepared in Hi. rewrite Haf1 in Hc. simpl in Hc.
  exists o, c. split; [exact Ho|]. split; [exact Hc|].
  destruct (inspect_walkOk flags _ tmpl _ _ _ Hinv (fun s Hs => Hs) Hi) as [_ Hle].
  rewrite (current_weight _ _ _ Hc), (commentSign_weight _ _ _ Ho).
  unfold total in Hle at 1. unfold startState in Hperm. simpl in Hperm, Hle.
  now rewrite Hperm.
Qed.

End NeverLosesText.

(** [func DoThing] documented as [// DoThing], template [...]: the text
    goes from [DoThing] to [DoThing ...], from seven bytes outside white
    space to ten. *)
Lemma parseFile_never_loses_text_witness :
  exists st',
    commentSign (heap st') (cmapComments (heap st') (cmap st'))
    = Ok ("DoThing ..." ++ String "010"%char "")
    /\ nonSpace ("DoThing" ++ String "010"%char "")
       <= nonSpace ("DoThing ..." ++ String "010"%char "").
Proof.
  assert (P : parseFile Sample.dots Sample.docOfOne
                (ParseOk (mkFile [Sample.funcDoThing] [0])
                   [[ast.mkComment 10%Z "// DoThing"]] {[ 1 := 0 ]}) "..."
              = Ok (Done _ _ _))
    by (vm_compute; reflexivity).
  destruct (parseFile_never_loses_text _ _ _ _ _ _ _ _ _ P)
    as (o & c & Ho & Hc & Hle).
  - unfold mapInv, startState, Sample.docOfOne, prepared; simpl.
    repeat split.
    + intros k l g Hk Hg. apply lookup_singleton_Some in Hk as [<- <-].
      apply list_elem_of_singleton in Hg as ->. lia.
    + intros k l Hk. apply lookup_singleton_Some in Hk as [<- <-].
      apply NoDup_singleton.
    + intros k g Hk. apply lookup_singleton_Some in Hk as [<- <-].
      exists [0]. split; [reflexivity | constructor].
    + intros n l g Hn Ht Hd Hk. apply lookup_singleton_Some in Hk as [Hid <-].
      repeat (apply elem_of_cons in Hn as [->|Hn]; [discriminate|]).
      inversion Hn.
  - reflexivity.
  - assert (Ho' : o = "DoThing" ++ String "010"%char "")
      by (vm_compute in Ho; now injection Ho as <-).
    assert (Hc' : c = "DoThing ..." ++ String "010"%char "")
      by (vm_compute in Hc; now injection Hc as <-).
    subst o c. eexists. split; [exact Hc | exact Hle].
Defined.

Section Compliant.

Context {tables : unicode.Tables} {printer : fmt.Printer}.

(** ** A file that needs nothing *)

Lemma state_eta st : mkState (heap st) (docs st) (cmap st) (skipped st) = st.
Proof. now destruct st. Qed.

Lemma document_compliant flags n name arg pos tmpl st :
  compliant (heap st) (docs st) (cmap st) n ->
  targetName n = Some name ->
  bind (addComment flags (nodeId n) pos name arg tmpl st)
    (fun st1 => Ok (recordDoc (nodeId n) st1)) = Ok st.
Proof.
  intros Hc Hname.
  destruct (Hc _ Hname) as (g & cg & t & l & Hd & Hh & Ht & Hne & Hb & Hm & Hg & Hnd).
  rewrite (addComment_nontrivial flags _ _ _ _ _ _ _ _ _ Hd Hh Ht Hne), Hb. simpl.
  rewrite (recordDoc_state _ _ _ Hd), Hm. simpl.
  rewrite (appendCommentGroup_self _ _ _ Hg Hnd), (insert_id _ _ _ Hm).
  now rewrite state_eta.
Qed.

Lemma parenEntries_compliant flags ct specs st :
  (forall s, s ∈ specs -> compliant (heap st) (docs st) (cmap st) s) ->
  forall st', parenEntries flags specs ct st = Ok st' -> st' = st.
Proof.
  induction specs as [|s specs IH]; intros Hall st'; simpl.
  - now intros [= <-].
  - destruct s as [| | |vs pos Names kids| |]; try discriminate.
    intros H. apply bind_Ok in H as (n0 & Hn & H).
    destruct Names as [|n0' names]; [discriminate|]. injection Hn as ->.
    assert (Hrest : forall s, s ∈ specs -> compliant (heap st) (docs st) (cmap st) s)
      by (intros s Hs; apply Hall; now constructor).
    destruct (ast.IsExported n0) eqn:Hex; simpl in H; [|now apply IH].
    assert (Hdoc := document_compliant flags (ValueSpec vs pos (n0 :: names) kids) n0
                      (fmt.Str n0) pos
                      (strings.Replace1 ct commentBase commentIndentedBase) st
                      (Hall _ ltac:(constructor))).
    simpl in Hdoc. rewrite Hex in Hdoc. specialize (Hdoc eq_refl).
    unfold addParenValueSpecComment in H.
    apply bind_Ok in H as (st1 & Ha & H). rewrite Ha in Hdoc. simpl in Hdoc.
    injection Hdoc as Hdoc. rewrite Hdoc in H. now apply IH.
Qed.

Lemma visit_compliant flags ct n st st' :
  (forall s, s ∈ n :: childrenOf n -> compliant (heap st) (docs st) (cmap st) s) ->
  visit flags ct n st = Ok st' ->
  heap st' = heap st /\ docs st' = docs st /\ cmap st' = cmap st.
Proof.
  intros Hall.
  assert (Hn := Hall n ltac:(constructor)).
  assert (Hsame : Ok st = Ok st' ->
                  heap st' = heap st /\ docs st' = docs st /\ cmap st' = cmap st)
    by (intros [= <-]; auto).
  assert (Hdoc : forall name arg pos,
    targetName n = Some name ->
    bind (addComment flags (nodeId n) pos name arg ct st)
      (fun st1 => Ok (recordDoc (nodeId n) st1)) = Ok st' ->
    heap st' = heap st /\ docs st' = docs st /\ cmap st' = cmap st).
  { intros name arg pos Hname H.
    rewrite (document_compliant flags n name arg pos ct st Hn Hname) in H.
    now apply Hsame. }
  destruct n as [id pos Name kids|id Decl|id TokPos Tok Lparen Rparen Specs| | |];
    simpl; auto.
  - destruct (bool_decide _ || negb _) eqn:Hb; [auto|].
    apply orb_false_iff in Hb as [_ Hb]. apply negb_false_iff in Hb.
    apply (Hdoc Name _ pos). simpl. now rewrite Hb.
  - intros [= <-]. auto.
  - assert (Hparen : parenEntries flags Specs ct st = Ok st' ->
                     heap st' = heap st /\ docs st' = docs st /\ cmap st' = cmap st).
    { intros H. apply parenEntries_compliant in H; [now subst|].
      intros s Hs. apply Hall. now constructor. }
    destruct Tok; auto.
    + destruct (negb _ && parenComment flags); [exact Hparen|].
      destruct Specs as [|s Specs]; [auto|]. destruct s; try discriminate.
      destruct Names as [|n0 names]; [discriminate|]. simpl.
      destruct (bool_decide _ || negb _) eqn:Hb; [auto|].
      apply orb_false_iff in Hb as [_ Hb]. apply negb_false_iff in Hb.
      apply (Hdoc n0 _ TokPos). simpl. now rewrite Hb.
    + destruct Specs as [|s Specs]; [discriminate|]. destruct s; try discriminate.
      destruct (bool_decide _ || negb _) eqn:Hb; [auto|].
      apply orb_false_iff in Hb as [_ Hb]. apply negb_false_iff in Hb.
      apply (Hdoc Name _ TokPos). simpl. now rewrite Hb.
    + destruct (negb _ && parenComment flags); [exact Hparen|].
      destruct Specs as [|s Specs]; [auto|]. destruct s; try discriminate.
      destruct Names as [|n0 names]; [discriminate|]. simpl.
      destruct (bool_decide _ || negb _) eqn:Hb; [auto|].
      apply orb_false_iff in Hb as [_ Hb]. apply negb_false_iff in Hb.
      apply (Hdoc n0 _ TokPos). simpl. now rewrite Hb.
Qed.

Lemma inspectList_compliant flags ct l :
  Forall (fun n => forall st st',
            (forall s, s ∈ subnodes n -> compliant (heap st) (docs st) (cmap st) s) ->
            inspect flags ct n st = Ok st' ->
            heap st' = heap st /\ docs st' = docs st /\ cmap st' = cmap st) l ->
  forall st st',
    (forall s, s ∈ flat_map subnodes l -> compliant (heap st) (docs st) (cmap st) s) ->
    inspectList flags ct l st = Ok st' ->
    heap st' = heap st /\ docs st' = docs st /\ cmap st' = cmap st.
Proof.
  induction 1 as [|n l Hn _ IH]; intros st st' Hall; simpl.
  - intros [= <-]. auto.
  - intros H. apply bind_Ok in H as (s1 & H1 & H2).
    apply Hn in H1 as (E1 & E2 & E3);
      [|intros s Hs; apply Hall; simpl; apply elem_of_app; now left].
    apply IH in H2 as (F1 & F2 & F3).
    + repeat split; congruence.
    + intros s Hs. rewrite E1, E2, E3. apply Hall. simpl. apply elem_of_app. now right.
Qed.

Lemma inspect_compliant flags ct n :
  forall st st',
    (forall s, s ∈ subnodes n -> compliant (heap st) (docs st) (cmap st) s) ->
    inspect flags ct n st = Ok st' ->
    heap st' = heap st /\ docs st' = docs st /\ cmap st' = cmap st.
Proof.
  induction n as [n IH] using Node_children_ind. intros st st' Hall.
  rewrite inspect_unfold. intros H. apply bind_Ok in H as (st1 & Hv & Hl).
  rewrite subnodes_unfold in Hall.
  apply visit_compliant in Hv as (E1 & E2 & E3).
  - apply (inspectList_compliant _ _ _ IH) in Hl as (F1 & F2 & F3).
    + repeat split; congruence.
    + intros s Hs. rewrite E1, E2, E3. apply Hall. now constructor.
  - intros s Hs. apply Hall. apply elem_of_cons in Hs as [->|Hs]; [now constructor|].
    constructor. apply elem_of_flat_map_subnodes. exists s. split; [exact Hs|apply subnodes_self].
Qed.

(** A file in which every declaration the visitor can document is
    [compliant], and whose comment map gives back the comments of the file
    in their order, is returned as it came: the comment groups, the docs,
    the comment map and the list of comments are the same, and the verdict
    is [modified = false]. *)
Theorem compliant_file_unchanged
    (flags : Flags) (ncm : File -> list ast.CommentGroup -> gmap nat (list nat))
    (af af' : File) (h : list ast.CommentGroup) (d : gmap nat nat)
    (tmpl : string) (st' : State) (modified : bool) :
  parseFile flags ncm (ParseOk af h d) tmpl = Ok (Done af' st' modified) ->
  (forall s, s ∈ subnodes (fileNode af) ->
     compliant (heap (startState ncm af h d)) d (cmap (startState ncm af h d)) s) ->
  cmapComments (heap (startState ncm af h d)) (cmap (startState ncm af h d))
    = Comments (prepared af h).1 ->
  modified = false
  /\ af' = af
  /\ heap st' = (prepared af h).2
  /\ docs st' = d
  /\ cmap st' = cmap (startState ncm af h d).
Proof.
  intros Hp Hall Hcm.
  apply parseFile_pass in Hp as (af1 & Hp & Hdrop & Hkeep).
  apply pass_inspect in Hp as (o & c & Ho & Hi & Haf1 & Hc & Hm).
  rewrite fileNode_prepared in Hi.
  apply inspect_compliant in Hi as (E1 & E2 & E3); [|exact Hall].
  simpl in E1, E2, E3. simpl in Hcm.
  rewrite E1, E3, Hcm in Haf1.
  assert (Hoc : c = o).
  { rewrite Haf1, E1 in Hc. simpl in Hc. congruence. }
  split; [rewrite Hm, Hoc, String.eqb_refl; reflexivity|].
  split; [|auto].
  destruct af as [decls comments]. unfold prepared in *. simpl in *.
  destruct comments as [|x xs]; simpl in *.
  - specialize (Hdrop eq_refl). rewrite Haf1 in Hdrop.
    unfold dropInjected in Hdrop. simpl in Hdrop. congruence.
  - rewrite (Hkeep ltac:(discriminate)). exact Haf1.
Qed.

End Compliant.

(** [// DoThing does it.] [func DoThing() {}] comes back as it is. *)
Lemma compliant_file_unchanged_witness :
  exists st',
    parseFile Sample.dots Sample.docOfOne
      (ParseOk (mkFile [Sample.funcDoThing] [0])
         [[ast.mkComment 10%Z "// DoThing does it."]] {[ 1 := 0 ]}) "..."
    = Ok (Done (mkFile [Sample.funcDoThing] [0]) st' false)
    /\ heap st' = [[ast.mkComment 10%Z "// DoThing does it."]].
Proof.
  assert (P : parseFile Sample.dots Sample.docOfOne
                (ParseOk (mkFile [Sample.funcDoThing] [0])
                   [[ast.mkComment 10%Z "// DoThing does it."]] {[ 1 := 0 ]}) "..."
              = Ok (Done _ _ _))
    by (vm_compute; reflexivity).
  eexists. split; [exact P|].
  refine (proj1 (proj2 (proj2
    (compliant_file_unchanged _ _ _ _ _ _ _ _ _ P _ _)))).
  - intros s Hs name Hname.
    rewrite subnodes_unfold in Hs. simpl in Hs.
    apply elem_of_cons in Hs as [->|Hs]; [discriminate|].
    apply list_elem_of_singleton in Hs as ->.
    injection Hname as <-.
    exists 0, [ast.mkComment 10%Z "// DoThing does it."],
      ("DoThing does it." ++ String "010"%char ""), [0].
    repeat split; try reflexivity.
    + vm_compute. discriminate.
    + apply list_elem_of_singleton. reflexivity.
    + simpl. repeat constructor. intros Hx. inversion Hx.
  - reflexivity.
Defined.
